(** * Composite keys, request chains and cursor pagination

    A shallow embedding of the key formatter ([SchemaFormatter]), of the
    request chain ([Chain], [Query]), of the pagination post-processing and
    of the request builders of [Table] of the DynamoDB query builder, with
    the properties of its specification.

    Conventions of the embedding.
    - A JavaScript object that is only read by key is a [gmap string _];
      an object whose enumeration order is observed ([Object.keys],
      [for ... in]) is the list of its own entries in enumeration order.
    - A fallible function returns a [result]: [Throw e] is a thrown error.
    - The wire form [{S: v}] of a string attribute is identified with [v], so
      that [marshall] and [unmarshall] of the AWS SDK are the identity on the
      string attributes this layer handles. *)

From Stdlib Require Import ZArith Ascii String List Bool Lia Sorting.Permutation.
From stdpp Require Import gmap strings list fin_maps pretty sorting.

Local Open Scope string_scope.
Local Open Scope list_scope.
Local Open Scope Z_scope.

(** ** Errors and the error monad *)

(** The error codes of [types/errors.ts] that the modelled code raises, with
    the arguments their factory functions take.  [TypeError] is the runtime's
    own error (a property read on [undefined]); [StoreError] is whatever the
    store client rejects with. *)
Inductive DynamoError : Type :=
  | KEY_SCHEMA_REQUIRED
  | PK_REQUIRED
  | SEPARATOR_REQUIRED (keyType : string) (keysLength : nat)
  | SK_EMPTY
  | FIRST_KEY_NOT_INCLUDED_IN_SK
  | KEY_NOT_INCLUDED_IN_SK (key : string)
  | SK_NOT_DEFINED_IN_SCHEMA
  | KEY_PART_REQUIRED (keyPart : string)
  | INVALID_QUERY_TYPE (queryType : string)
  | TypeError
  | StoreError (message : string).

Inductive result (A : Type) : Type :=
  | Return (a : A)
  | Throw (e : DynamoError).
Arguments Return {A} a.
Arguments Throw {A} e.

Definition bind {A B : Type} (r : result A) (k : A -> result B) : result B :=
  match r with
  | Return a => k a
  | Throw e => Throw e
  end.

Notation "'let*' x ':=' r 'in' k" := (bind r (fun x => k))
  (at level 10, x name, r at level 100, k at level 200).

(** [xs.map(f)] for a callback that may throw: the first throw wins. *)
Fixpoint mapM {A B : Type} (f : A -> result B) (l : list A) : result (list B) :=
  match l with
  | [] => Return []
  | x :: xs => let* y := f x in let* ys := mapM f xs in Return (y :: ys)
  end.

(** JavaScript truthiness of an optional string: [undefined] and [''] are
    falsy. *)
Definition truthy_string (s : option string) : bool :=
  match s with
  | Some EmptyString | None => false
  | Some _ => true
  end.

(** ** Key schemas *)

Record KeyDef : Type := mkKeyDef {
  name : string;
  keys : list string;
  separator : option string
}.

(** The schema as a caller hands it over: at run time the [pk] member may be
    missing. *)
Record KeySchema : Type := mkKeySchema {
  pk : option KeyDef;
  sk : option KeyDef;
  preserve : option (list string)
}.

(** A constructed formatter: the validated schema, whose [pk] is present. *)
Record SchemaFormatter : Type := mkSchemaFormatter {
  getPK : KeyDef;
  getSK : option KeyDef;
  getPreserve : option (list string)
}.

(** [new SchemaFormatter(keySchema)]. *)
Definition SchemaFormatter_new (keySchema : option KeySchema)
  : result SchemaFormatter :=
  match keySchema with
  | None => Throw KEY_SCHEMA_REQUIRED
  | Some ks =>
    match pk ks with
    | None => Throw PK_REQUIRED
    | Some pkd =>
      if (1 <? length (keys pkd))%nat && negb (truthy_string (separator pkd))
      then Throw (SEPARATOR_REQUIRED "pk" (length (keys pkd)))
      else
        match sk ks with
        | Some skd =>
          if (1 <? length (keys skd))%nat && negb (truthy_string (separator skd))
          then Throw (SEPARATOR_REQUIRED "sk" (length (keys skd)))
          else Return (mkSchemaFormatter pkd (sk ks) (preserve ks))
        | None => Return (mkSchemaFormatter pkd (sk ks) (preserve ks))
        end
    end
  end.

(** ** Logical items and key encoding *)

(** The value of a property of a logical item: a string, or [undefined]
    (a property that was assigned a missing array element). *)
Inductive jsval : Type :=
  | JUndefined
  | JString (s : string).

#[global] Instance jsval_eq_dec : EqDecision jsval.
Proof. solve_decision. Defined.

#[global] Instance DynamoError_eq_dec : EqDecision DynamoError.
Proof. solve_decision. Defined.

(** [mustGet(obj, prop)]: the property, which must be neither missing nor
    [undefined].  The map holds the own properties of the object; a name
    that the object lacks reads as [undefined], which is what the source
    reads unless the name is one that every object inherits (see
    [objectPrototypeNames]). *)
Definition mustGet (obj : gmap string jsval) (prop : string) : result string :=
  match obj !! prop with
  | Some (JString val) => Return val
  | Some JUndefined | None => Throw (KEY_PART_REQUIRED prop)
  end.

(** [parts.join(sep)]. *)
Fixpoint join (sep : string) (parts : list string) : string :=
  match parts with
  | [] => ""
  | [p] => p
  | p :: rest => p +:+ sep +:+ join sep rest
  end.

(** [formatKey(item, def)]: the declared parts of the side, in declared
    order, joined with the separator (['#'] when none is declared). *)
Definition formatKey (item : gmap string jsval) (def : KeyDef) : result string :=
  let sep := default "#" (separator def) in
  let* parts := mapM (mustGet item) (keys def) in
  Return (join sep parts).

Definition formatPK (sf : SchemaFormatter) (item : gmap string jsval)
  : result string :=
  formatKey item (getPK sf).

(** [formatSK] casts [keySchema.sk] to a key definition; reading [separator]
    of a missing sort side is a [TypeError]. *)
Definition formatSK (sf : SchemaFormatter) (item : gmap string jsval)
  : result string :=
  match getSK sf with
  | Some skd => formatKey item skd
  | None => Throw TypeError
  end.

(** ** Partial sort keys *)

(** [arr.indexOf(x)]: the first position of [x], or [-1]. *)
Fixpoint indexOf (arr : list string) (x : string) : Z :=
  match arr with
  | [] => -1
  | y :: ys =>
    if String.eqb y x then 0
    else let i := indexOf ys x in if i <? 0 then -1 else i + 1
  end.

(** [Array.prototype.sort] with a comparator is a stable sort; its result is
    the one of this stable insertion sort, for the comparator
    [(a, b) => rank a - rank b]. *)
Fixpoint insert_by (rank : string -> Z) (x : string) (l : list string)
  : list string :=
  match l with
  | [] => [x]
  | y :: ys => if rank x <=? rank y then x :: y :: ys
               else y :: insert_by rank x ys
  end.

Fixpoint sort_by (rank : string -> Z) (l : list string) : list string :=
  match l with
  | [] => []
  | x :: xs => insert_by rank x (sort_by rank xs)
  end.

(** The body of the [for (let i = 1; i < skKeysInSchema.length; i++)] loop of
    [assertPartialOrderSKIsCorrect], over the indices still to visit. *)
Fixpoint walkSchema (skKeysInSchema orderedKeysInSK : list string)
    (indices : list nat) : result unit :=
  match indices with
  | [] => Return tt
  | i :: rest =>
    if (length orderedKeysInSK =? i)%nat then Return tt
    else if decide (orderedKeysInSK !! i = skKeysInSchema !! i)
    then walkSchema skKeysInSchema orderedKeysInSK rest
    else Throw (KEY_NOT_INCLUDED_IN_SK (default "undefined" (skKeysInSchema !! i)))
  end.

(** [assertPartialOrderSKIsCorrect(sk)], on the sort side's declared parts
    ([keySchema.sk?.keys ?? []]) and on [Object.keys(sk)]. *)
Definition assertPartialOrderSKIsCorrect (skKeysInSchema keysInSK : list string)
  : result unit :=
  if (length keysInSK =? 0)%nat then Throw SK_EMPTY
  else
    let orderedKeysInSK := sort_by (indexOf skKeysInSchema) keysInSK in
    if decide (orderedKeysInSK !! 0%nat = skKeysInSchema !! 0%nat)
    then walkSchema skKeysInSchema orderedKeysInSK
           (seq 1 (length skKeysInSchema - 1))
    else Throw FIRST_KEY_NOT_INCLUDED_IN_SK.

Definition skKeysOf (sf : SchemaFormatter) : list string :=
  match getSK sf with
  | Some skd => keys skd
  | None => []
  end.

(** [formatPartialOrderedSK(sk)].  The partial sort key is given by its
    entries in enumeration order: [Object.keys(sk)] is [map fst], and the
    copy [{...sk}] is the map of the entries. *)
Definition formatPartialOrderedSK (sf : SchemaFormatter)
    (sk : list (string * jsval)) : result string :=
  let* _ := assertPartialOrderSKIsCorrect (skKeysOf sf) (map fst sk) in
  match getSK sf with
  | None => Throw SK_NOT_DEFINED_IN_SCHEMA
  | Some skKeysInSchema =>
    let partialOrderedSKKeyDef :=
      {| name := name skKeysInSchema;
         keys := map fst sk;
         separator := separator skKeysInSchema |} in
    formatKey (list_to_map sk) partialOrderedSKKeyDef
  end.

(** ** Key decoding *)

(** [str.split(sep)] for a non-empty separator.  [skip] counts the characters
    of a separator occurrence that are still to be consumed; [cur] is the
    segment read so far. *)
Fixpoint split_go (sep s : string) (skip : nat) (cur : string) : list string :=
  match s with
  | EmptyString => [cur]
  | String c s' =>
    match skip with
    | S k => split_go sep s' k cur
    | O =>
      if String.prefix sep s
      then cur :: split_go sep s' (String.length sep - 1) ""
      else split_go sep s' 0 (cur +:+ String c "")
    end
  end.

Definition split (sep s : string) : list string := split_go sep s 0 "".

(** The loop [for (i = 0; i < keyParts.length; i++) obj[keyParts[i]] =
    valueParts[i]]: a missing segment is assigned as [undefined]. *)
Fixpoint assignParts (keyParts valueParts : list string) (obj : gmap string jsval)
  : gmap string jsval :=
  match keyParts with
  | [] => obj
  | k :: ks =>
    assignParts ks (tail valueParts)
      (<[k := match valueParts with
              | [] => JUndefined
              | v :: _ => JString v
              end]> obj)
  end.

(** The block of [formatRecordAsItemDto] that rebuilds the logical fields of
    one side from its physical key string (the same block appears for the
    partition and for the sort side).  Without a separator the whole string
    is stored under the side's physical attribute name. *)
Definition decodeSide (def : KeyDef) (inRecord : string) : gmap string jsval :=
  if truthy_string (separator def)
  then assignParts (keys def) (split (default "" (separator def)) inRecord) ∅
  else {[ name def := JString inRecord ]}.

(** [record[key].toString()] on an unmarshalled record. *)
Definition attrToString (record : gmap string string) (key : string)
  : result string :=
  match record !! key with
  | Some v => Return v
  | None => Throw TypeError
  end.

(** [formatRecordAsItemDto(record)]: [{...pk, ...sk, ...data}]. *)
Definition formatRecordAsItemDto (sf : SchemaFormatter)
    (record : gmap string string) : result (gmap string jsval) :=
  let* pkInRecord := attrToString record (name (getPK sf)) in
  let pkm := decodeSide (getPK sf) pkInRecord in
  let* skm :=
    match getSK sf with
    | Some skd =>
      let* skInRecord := attrToString record (name skd) in
      Return (decodeSide skd skInRecord)
    | None => Return ∅
    end in
  let data : gmap string string :=
    match getSK sf with
    | Some skd => delete (name skd) (delete (name (getPK sf)) record)
    | None => delete (name (getPK sf)) record
    end in
  Return ((JString <$> data) ∪ (skm ∪ pkm)).

(** [formatItemKeysDtoAsRecord(item)]: the physical key attributes of a
    logical key record. *)
Definition formatItemKeysDtoAsRecord (sf : SchemaFormatter)
    (item : gmap string jsval) : result (gmap string string) :=
  let* pkv := formatKey item (getPK sf) in
  let logical : gmap string string := {[ name (getPK sf) := pkv ]} in
  match getSK sf with
  | Some skd =>
    let* skv := formatKey item skd in
    Return (<[name skd := skv]> logical)
  | None => Return logical
  end.

(** ** Requests *)

(** A typed literal of the wire protocol, as [Chain.filter] builds them. *)
Inductive AttributeValue : Type :=
  | AttrS (s : string)
  | AttrN (n : string)
  | AttrBOOL (b : bool)
  | AttrNULL (b : bool).

#[global] Instance AttributeValue_eq_dec : EqDecision AttributeValue.
Proof. solve_decision. Defined.

(** [CommandInput] of [types/types.ts]: the mutable request accumulator. *)
Record CommandInput : Type := mkCommandInput {
  TableName : string;
  IndexName : option string;
  ScanIndexForward : option bool;
  ProjectionExpression : option string;
  ExclusiveStartKey : option (gmap string string);
  KeyConditionExpression : option string;
  ExpressionAttributeNames : option (gmap string string);
  Limit : Z;
  ExpressionAttributeValues : option (gmap string AttributeValue);
  FilterExpression : option string
}.

Module rawFilterParams.
Record t : Type := mk {
  FilterExpression : string;
  ExpressionAttributeNames : gmap string string;
  ExpressionAttributeValues : gmap string AttributeValue
}.
End rawFilterParams.

(** A chain: the request it accumulates, its kind and its formatter.  The
    store client is a parameter of [run]. *)
Record Chain : Type := mkChain {
  params : CommandInput;
  queryType : string;
  schemaFormatter : SchemaFormatter
}.

Definition with_params (c : Chain) (p : CommandInput) : Chain :=
  {| params := p; queryType := queryType c; schemaFormatter := schemaFormatter c |}.

(** [filterRaw(filter)]. *)
Definition filterRaw (c : Chain) (filter : rawFilterParams.t) : Chain :=
  let p := params c in
  let filterExpression :=
    if negb (truthy_string (FilterExpression p))
    then rawFilterParams.FilterExpression filter
    else default "" (FilterExpression p)
           +:+ " AND (" +:+ rawFilterParams.FilterExpression filter +:+ ")" in
  let names : gmap string string :=
    match ExpressionAttributeNames p with
    | None => ∅
    | Some existing => rawFilterParams.ExpressionAttributeNames filter ∪ existing
    end in
  let values : gmap string AttributeValue :=
    match ExpressionAttributeValues p with
    | None => rawFilterParams.ExpressionAttributeValues filter
    | Some existing => rawFilterParams.ExpressionAttributeValues filter ∪ existing
    end in
  with_params c
    {| TableName := TableName p;
       IndexName := IndexName p;
       ScanIndexForward := ScanIndexForward p;
       ProjectionExpression := ProjectionExpression p;
       ExclusiveStartKey := ExclusiveStartKey p;
       KeyConditionExpression := KeyConditionExpression p;
       ExpressionAttributeNames := Some names;
       Limit := Limit p;
       ExpressionAttributeValues := Some values;
       FilterExpression := Some filterExpression |}.

(** ** Filters *)

(** [FilterValue = string | number | boolean | null]; a number is an
    integer here, of those that a double holds exactly and that [toString]
    prints in full. *)
Inductive FilterValue : Type :=
  | FString (s : string)
  | FNumber (n : Z)
  | FBoolean (b : bool)
  | FNull.

(** [FilterCondition]: a bare value, or an object from operators to values
    (its entries in enumeration order, a value possibly [undefined]). *)
Inductive FilterCondition : Type :=
  | CondValue (v : FilterValue)
  | CondOperators (condObj : list (string * option FilterValue)).

(** A filter object: its entries in enumeration order. *)
Definition FilterObject : Type := list (string * option FilterCondition).

(** [s.replace(/\./g, '_')]. *)
Fixpoint replaceDots (s : string) : string :=
  match s with
  | EmptyString => EmptyString
  | String c s' =>
    String (if Ascii.eqb c "."%char then "_"%char else c) (replaceDots s')
  end.

Definition isAlphaNum (c : ascii) : bool :=
  let n := nat_of_ascii c in
  ((48 <=? n) && (n <=? 57) || (65 <=? n) && (n <=? 90)
   || (97 <=? n) && (n <=? 122))%nat.

(** [s.replace(/[^a-zA-Z0-9]/g, '')]. *)
Fixpoint keepAlphaNum (s : string) : string :=
  match s with
  | EmptyString => EmptyString
  | String c s' =>
    if isAlphaNum c then String c (keepAlphaNum s') else keepAlphaNum s'
  end.

(** The typed literal of a value: the [typeof] cascade of [Chain.filter]. *)
Definition literalOf (value : FilterValue) : AttributeValue :=
  match value with
  | FNumber n => AttrN (pretty n)
  | FBoolean b => AttrBOOL b
  | FNull => AttrNULL true
  | FString s => AttrS s
  end.

(** The locals of [Chain.filter]. *)
Record FilterState : Type := mkFilterState {
  expressionParts : list string;
  names : gmap string string;
  values : gmap string AttributeValue;
  counter : nat
}.

Definition valuePlaceholderOf (safeKey : string) (counter : nat)
    (operator : string) : string :=
  ":val_" +:+ safeKey +:+ "_" +:+ pretty counter +:+ "_" +:+ keepAlphaNum operator.

(** The inner loop [for (const op in condObj)]. *)
Fixpoint filterOperators (safeKey namePlaceholder : string) (counter : nat)
    (condObj : list (string * option FilterValue))
    (parts : list string) (values : gmap string AttributeValue)
  : list string * gmap string AttributeValue :=
  match condObj with
  | [] => (parts, values)
  | (operator, None) :: rest =>
    filterOperators safeKey namePlaceholder counter rest parts values
  | (operator, Some value) :: rest =>
    let valuePlaceholder := valuePlaceholderOf safeKey counter operator in
    filterOperators safeKey namePlaceholder counter rest
      (parts ++ [namePlaceholder +:+ " " +:+ operator +:+ " " +:+ valuePlaceholder])
      (<[valuePlaceholder := literalOf value]> values)
  end.

(** One iteration of the outer loop [for (const key in filterObject)]. *)
Definition filterStep (st : FilterState)
    (entry : string * option FilterCondition) : FilterState :=
  match entry with
  | (_, None) => st
  | (key, Some condition) =>
    let safeKey := replaceDots key in
    let namePlaceholder := "#" +:+ safeKey +:+ "_" +:+ pretty (counter st) in
    let names' := <[namePlaceholder := key]> (names st) in
    match condition with
    | CondOperators condObj =>
      let '(parts', values') :=
        filterOperators safeKey namePlaceholder (counter st) condObj
          (expressionParts st) (values st) in
      mkFilterState parts' names' values' (S (counter st))
    | CondValue v =>
      let valuePlaceholder := ":val_" +:+ safeKey +:+ "_" +:+ pretty (counter st) in
      mkFilterState
        (expressionParts st ++ [namePlaceholder +:+ " = " +:+ valuePlaceholder])
        names'
        (<[valuePlaceholder := literalOf v]> (values st))
        (S (counter st))
    end
  end.

(** [filter(filterObject)]. *)
Definition filter (c : Chain) (filterObject : FilterObject) : Chain :=
  let st := fold_left filterStep filterObject (mkFilterState [] ∅ ∅ 0) in
  if (0 <? length (expressionParts st))%nat
  then filterRaw c
         (rawFilterParams.mk (join " AND " (expressionParts st))
            (names st) (values st))
  else c.

(** ** Pagination *)

Inductive Direction : Type := forward | backward.

Record paginationResult : Type := mkPaginationResult {
  items : list (gmap string jsval);
  lastEvaluatedKey : option (gmap string jsval);
  firstEvaluatedKey : option (gmap string jsval);
  count : nat;
  hasNext : bool;
  hasPrevious : bool;
  direction : Direction
}.

(** [formatEmptyPaginationResult(direction, lastEvaluatedKey)]. *)
Definition formatEmptyPaginationResult (direction : Direction)
    (lastEvaluatedKey : option (gmap string jsval)) : paginationResult :=
  {| items := [];
     lastEvaluatedKey := lastEvaluatedKey;
     firstEvaluatedKey := lastEvaluatedKey;
     count := 0;
     hasNext := bool_decide (is_Some lastEvaluatedKey);
     hasPrevious := bool_decide (is_Some lastEvaluatedKey);
     direction := direction |}.

(** [formatPaginationResult(items, limit, direction, lastEvaluatedKey,
    oldLastEvaluatedKey)].  [items.pop()] updates the array that the result
    then reads: [items'] below is that array after the conditional pop. *)
Definition formatPaginationResult (items : list (gmap string jsval))
    (limit : Z) (direction : Direction)
    (lastEvaluatedKey oldLastEvaluatedKey : option (gmap string jsval))
  : paginationResult :=
  if (length items =? 0)%nat
  then formatEmptyPaginationResult direction lastEvaluatedKey
  else
    let hasPrevious := bool_decide (is_Some oldLastEvaluatedKey) in
    let hasNext :=
      bool_decide (is_Some lastEvaluatedKey) || (Z.of_nat (length items) =? limit) in
    let items' :=
      if Z.of_nat (length items) =? limit then removelast items else items in
    {| items := items';
       lastEvaluatedKey := last items';
       firstEvaluatedKey := head items';
       count := length items';
       hasNext := hasNext;
       hasPrevious := hasPrevious;
       direction := direction |}.

(** ** Running a chain *)

Inductive Command : Type :=
  | QueryCommand (input : CommandInput)
  | ScanCommand (input : CommandInput).

(** What the store answers: [Items] and [LastEvaluatedKey], both optional. *)
Record CommandOutput : Type := mkCommandOutput {
  Items : option (list (gmap string string));
  LastEvaluatedKey : option (gmap string string)
}.

Definition keepTruthy (s : option string) : option string :=
  if truthy_string s then s else None.

(** [buildSharedCommandInput()]: a fresh request with the fields of the
    accumulator that are set. *)
Definition buildSharedCommandInput (c : Chain) : CommandInput :=
  let p := params c in
  {| TableName := TableName p;
     IndexName := keepTruthy (IndexName p);
     ScanIndexForward := None;
     ProjectionExpression := keepTruthy (ProjectionExpression p);
     ExclusiveStartKey := ExclusiveStartKey p;
     KeyConditionExpression := keepTruthy (KeyConditionExpression p);
     ExpressionAttributeNames := ExpressionAttributeNames p;
     Limit := Limit p;
     ExpressionAttributeValues := ExpressionAttributeValues p;
     FilterExpression := keepTruthy (FilterExpression p) |}.

Definition buildQueryCommandInput (c : Chain) : CommandInput :=
  let sharedParams := buildSharedCommandInput c in
  {| TableName := TableName sharedParams;
     IndexName := IndexName sharedParams;
     ScanIndexForward := Some (default false (ScanIndexForward (params c)));
     ProjectionExpression := ProjectionExpression sharedParams;
     ExclusiveStartKey := ExclusiveStartKey sharedParams;
     KeyConditionExpression := KeyConditionExpression sharedParams;
     ExpressionAttributeNames := ExpressionAttributeNames sharedParams;
     Limit := Limit sharedParams;
     ExpressionAttributeValues := ExpressionAttributeValues sharedParams;
     FilterExpression := FilterExpression sharedParams |}.

Definition buildScanCommandInput (c : Chain) : CommandInput :=
  buildSharedCommandInput c.

(** [this.params.Limit += 1], the first statement of [run].  The limit is
    an integer, and the addition is the one of integers: it is the addition
    of the source on the safe integers (see [isSafeInteger]); from [2^53]
    on, the addition of doubles rounds. *)
Definition incrementLimit (c : Chain) : Chain :=
  let p := params c in
  with_params c
    {| TableName := TableName p;
       IndexName := IndexName p;
       ScanIndexForward := ScanIndexForward p;
       ProjectionExpression := ProjectionExpression p;
       ExclusiveStartKey := ExclusiveStartKey p;
       KeyConditionExpression := KeyConditionExpression p;
       ExpressionAttributeNames := ExpressionAttributeNames p;
       Limit := Limit p + 1;
       ExpressionAttributeValues := ExpressionAttributeValues p;
       FilterExpression := FilterExpression p |}.

Definition directionOf (p : CommandInput) : Direction :=
  if default false (ScanIndexForward p) then forward else backward.

Definition decodeOptional (sf : SchemaFormatter)
    (key : option (gmap string string)) : result (option (gmap string jsval)) :=
  match key with
  | Some record =>
    let* item := formatRecordAsItemDto sf record in Return (Some item)
  | None => Return None
  end.

Section Run.

(** The store client: [client.send(command)] answers or rejects. *)
Variable send : Command -> result CommandOutput.

(** The dispatch of [run] on the kind of the chain: the command sent and
    the answer of the store, or INVALID_QUERY_TYPE. *)
Definition dispatch (c : Chain) : result CommandOutput :=
  if String.eqb (queryType c) "query"
  then send (QueryCommand (buildQueryCommandInput c))
  else if String.eqb (queryType c) "scan"
  then send (ScanCommand (buildScanCommandInput c))
  else Throw (INVALID_QUERY_TYPE (queryType c)).

(** The statements of [run] after the increment of the limit. *)
Definition runBody (c : Chain) : result paginationResult :=
  let* result := dispatch c in
  let* items :=
    mapM (formatRecordAsItemDto (schemaFormatter c))
      (default [] (Items result)) in
  let* newLastEvaluatedKey :=
    decodeOptional (schemaFormatter c) (LastEvaluatedKey result) in
  let* oldLastEvaluatedKey :=
    decodeOptional (schemaFormatter c) (ExclusiveStartKey (params c)) in
  Return (formatPaginationResult items (Limit (params c))
            (directionOf (params c)) newLastEvaluatedKey oldLastEvaluatedKey).

(** [run()]: the chain as the call leaves it, and the outcome. *)
Definition run (c : Chain) : Chain * result paginationResult :=
  let c' := incrementLimit c in
  (c', runBody c').

End Run.

Section Pivot.

(** [formatItemKeysWithIndexDtoAsRecord] of the formatter, which encodes a
    cursor for a secondary index; its body is not part of this
    development. *)
Variable formatItemKeysWithIndexDtoAsRecord :
  SchemaFormatter -> gmap string jsval -> string -> result (gmap string string).

(** [pivot(pivot)].  A throw happens before the assignment and leaves the
    chain as it was. *)
Definition pivot (c : Chain) (pivot : gmap string jsval) : result Chain :=
  let p := params c in
  let* startKey :=
    if truthy_string (IndexName p)
    then formatItemKeysWithIndexDtoAsRecord (schemaFormatter c) pivot
           (default "" (IndexName p))
    else formatItemKeysDtoAsRecord (schemaFormatter c) pivot in
  Return (with_params c
    {| TableName := TableName p;
       IndexName := IndexName p;
       ScanIndexForward := ScanIndexForward p;
       ProjectionExpression := ProjectionExpression p;
       ExclusiveStartKey := Some startKey;
       KeyConditionExpression := KeyConditionExpression p;
       ExpressionAttributeNames := ExpressionAttributeNames p;
       Limit := Limit p;
       ExpressionAttributeValues := ExpressionAttributeValues p;
       FilterExpression := FilterExpression p |}).

End Pivot.

(** ** Range conditions on the sort key *)

(** The common prologue of the range builders of [Query]: both tables are
    created when missing and ['#sk'] is bound to the sort attribute. *)
Definition bindSortName (c : Chain) (skName : string) : Chain :=
  let p := params c in
  with_params c
    {| TableName := TableName p;
       IndexName := IndexName p;
       ScanIndexForward := ScanIndexForward p;
       ProjectionExpression := ProjectionExpression p;
       ExclusiveStartKey := ExclusiveStartKey p;
       KeyConditionExpression := KeyConditionExpression p;
       ExpressionAttributeNames :=
         Some (<["#sk" := skName]> (default ∅ (ExpressionAttributeNames p)));
       Limit := Limit p;
       ExpressionAttributeValues :=
         Some (default ∅ (ExpressionAttributeValues p));
       FilterExpression := FilterExpression p |}.

(** The epilogue: the values bound and the condition appended. *)
Definition appendKeyCondition (c : Chain)
    (bound : list (string * AttributeValue)) (condition : string) : Chain :=
  let p := params c in
  with_params c
    {| TableName := TableName p;
       IndexName := IndexName p;
       ScanIndexForward := ScanIndexForward p;
       ProjectionExpression := ProjectionExpression p;
       ExclusiveStartKey := ExclusiveStartKey p;
       KeyConditionExpression :=
         Some (default "undefined" (KeyConditionExpression p) +:+ condition);
       ExpressionAttributeNames := ExpressionAttributeNames p;
       Limit := Limit p;
       ExpressionAttributeValues :=
         Some (fold_left (fun m kv => <[kv.1 := kv.2]> m) bound
                 (default ∅ (ExpressionAttributeValues p)));
       FilterExpression := FilterExpression p |}.

(** [Query.compare(skparams, operator)], behind [whereSKequal],
    [whereSKGreaterThan] and the like.  The pair is the chain as the call
    leaves it and the outcome; the query returned on success shares the
    request of the chain. *)
Definition compare (c : Chain) (skparams : list (string * jsval))
    (operator : string) : Chain * result unit :=
  match getSK (schemaFormatter c) with
  | None => (c, Throw SK_NOT_DEFINED_IN_SCHEMA)
  | Some skd =>
    let c1 := bindSortName c (name skd) in
    match formatPartialOrderedSK (schemaFormatter c) skparams with
    | Throw e => (c1, Throw e)
    | Return skValue =>
      (appendKeyCondition c1 [(":sk", AttrS skValue)]
         (" AND #sk " +:+ operator +:+ " :sk"), Return tt)
    end
  end.

(** [whereSKBeginsWith(sk)]. *)
Definition whereSKBeginsWith (c : Chain) (sk : list (string * jsval))
  : Chain * result unit :=
  match getSK (schemaFormatter c) with
  | None => (c, Throw SK_NOT_DEFINED_IN_SCHEMA)
  | Some skd =>
    let c1 := bindSortName c (name skd) in
    match formatPartialOrderedSK (schemaFormatter c) sk with
    | Throw e => (c1, Throw e)
    | Return skValue =>
      (appendKeyCondition c1 [(":sk", AttrS skValue)]
         " AND begins_with(#sk, :sk)", Return tt)
    end
  end.

(** [whereSKBetween(sk1, sk2)]. *)
Definition whereSKBetween (c : Chain) (sk1 sk2 : list (string * jsval))
  : Chain * result unit :=
  match getSK (schemaFormatter c) with
  | None => (c, Throw SK_NOT_DEFINED_IN_SCHEMA)
  | Some skd =>
    let c1 := bindSortName c (name skd) in
    match formatPartialOrderedSK (schemaFormatter c) sk1 with
    | Throw e => (c1, Throw e)
    | Return sk1Value =>
      match formatPartialOrderedSK (schemaFormatter c) sk2 with
      | Throw e => (c1, Throw e)
      | Return sk2Value =>
        (appendKeyCondition c1
           [(":low", AttrS sk1Value); (":high", AttrS sk2Value)]
           " AND #sk between :low and :high", Return tt)
      end
    end
  end.

(** ** Further functions of the formatter *)

(** [marshall(logical, { removeUndefinedValues: true })] on one value: a
    string is kept, [undefined] is removed. *)
Definition marshallValue (v : jsval) : option string :=
  match v with
  | JString s => Some s
  | JUndefined => None
  end.

(** [avoidKeys.has(key) && !preserveKeys.has(key)]: the key parts that
    [formatItemDtoAsRecord] does not store as attributes of their own. *)
Definition isFolded (sf : SchemaFormatter) (key : string) : Prop :=
  key ∈ keys (getPK sf) ++ skKeysOf sf /\ key ∉ default [] (getPreserve sf).

#[global] Instance isFolded_dec (sf : SchemaFormatter) (key : string) :
  Decision (isFolded sf key).
Proof. unfold isFolded. apply _. Defined.

(** [formatItemDtoAsRecord(item)].  The loop over the item assigns each of
    its fields once, after the two key attributes: the fields it keeps
    override the key attributes of the same name. *)
Definition formatItemDtoAsRecord (sf : SchemaFormatter)
    (item : gmap string jsval) : result (gmap string string) :=
  let* pkv := formatKey item (getPK sf) in
  let logical0 : gmap string jsval := {[ name (getPK sf) := JString pkv ]} in
  let* logical1 :=
    match getSK sf with
    | Some skd =>
      let* skv := formatKey item skd in
      Return (<[name skd := JString skv]> logical0)
    | None => Return logical0
    end in
  let kept : gmap string jsval :=
    base.filter (fun kv => ~ isFolded sf kv.1) item in
  Return (omap marshallValue (kept ∪ logical1)).

(** The loop [for (const key of keys) formatted[key] = item[key]] of
    [formatPKFromItem] and [formatSKFromItem]. *)
Fixpoint pickKeys (ks : list string) (item formatted : gmap string jsval)
  : gmap string jsval :=
  match ks with
  | [] => formatted
  | key :: rest =>
    pickKeys rest item (<[key := default JUndefined (item !! key)]> formatted)
  end.

(** [formatPKFromItem(item)]. *)
Definition formatPKFromItem (sf : SchemaFormatter) (item : gmap string jsval)
  : gmap string jsval :=
  pickKeys (keys (getPK sf)) item ∅.

(** [formatSKFromItem(item)]. *)
Definition formatSKFromItem (sf : SchemaFormatter) (item : gmap string jsval)
  : result (gmap string jsval) :=
  match getSK sf with
  | None => Throw SK_NOT_DEFINED_IN_SCHEMA
  | Some sk => Return (pickKeys (keys sk) item ∅)
  end.

(** ** Projection *)

(** [s.replace(/#/g, '0')]. *)
Fixpoint replaceHashes (s : string) : string :=
  match s with
  | EmptyString => EmptyString
  | String c s' =>
    String (if Ascii.eqb c "#"%char then "0"%char else c) (replaceHashes s')
  end.

(** [`#attr_${safeKey}_${counter}`]. *)
Definition attrPlaceholderOf (attr : string) (counter : nat) : string :=
  "#attr_" +:+ replaceHashes (replaceDots attr) +:+ "_" +:+ pretty counter.

(** The attributes that [project] asks for: the physical key attributes,
    then the fields of the caller. *)
Definition projectedAttributes (sf : SchemaFormatter)
    (projectDto : option (list string)) : list string :=
  [name (getPK sf)]
  ++ match getSK sf with Some sk => [name sk] | None => [] end
  ++ match projectDto with
     | Some dto => if (0 <? length dto)%nat then dto else []
     | None => []
     end.

(** The loop [for (const attr of attributes)] of [project]. *)
Fixpoint projectLoop (attributes : list string) (counter : nat)
    (names : gmap string string) (projectionParts : list string)
  : gmap string string * list string :=
  match attributes with
  | [] => (names, projectionParts)
  | attr :: rest =>
    let namePlaceholder := attrPlaceholderOf attr counter in
    projectLoop rest (S counter) (<[namePlaceholder := attr]> names)
      (projectionParts ++ [namePlaceholder])
  end.

(** [project(projectDto)]. *)
Definition project (c : Chain) (projectDto : option (list string)) : Chain :=
  let p := params c in
  let '(names, projectionParts) :=
    projectLoop (projectedAttributes (schemaFormatter c) projectDto) 0 ∅ [] in
  with_params c
    {| TableName := TableName p;
       IndexName := IndexName p;
       ScanIndexForward := ScanIndexForward p;
       ProjectionExpression := Some (join ", " projectionParts);
       ExclusiveStartKey := ExclusiveStartKey p;
       KeyConditionExpression := KeyConditionExpression p;
       ExpressionAttributeNames :=
         Some (names ∪ default ∅ (ExpressionAttributeNames p));
       Limit := Limit p;
       ExpressionAttributeValues := ExpressionAttributeValues p;
       FilterExpression := FilterExpression p |}.

(** ** Direction of a query *)

Definition setScanIndexForward (c : Chain) (b : bool) : Chain :=
  let p := params c in
  with_params c
    {| TableName := TableName p;
       IndexName := IndexName p;
       ScanIndexForward := Some b;
       ProjectionExpression := ProjectionExpression p;
       ExclusiveStartKey := ExclusiveStartKey p;
       KeyConditionExpression := KeyConditionExpression p;
       ExpressionAttributeNames := ExpressionAttributeNames p;
       Limit := Limit p;
       ExpressionAttributeValues := ExpressionAttributeValues p;
       FilterExpression := FilterExpression p |}.

(** [sortAscending()] and [sortDescending()] of [Query]. *)
Definition sortAscending (c : Chain) : Chain := setScanIndexForward c true.
Definition sortDescending (c : Chain) : Chain := setScanIndexForward c false.

(** ** The table *)

(** [Pagination] and [QueryParams] of [types/types.ts]. *)
Module Pagination.
Record t : Type := mk {
  pivot : option (gmap string jsval);
  direction : option Direction
}.
End Pagination.

Module QueryParams.
Record t : Type := mk {
  pk : gmap string jsval;
  limit : Z;
  IndexName : option string;
  pagination : option Pagination.t;
  project : option (list string)
}.
End QueryParams.

(** [UpdateItemInput] and [DeleteItemInput] as the table builds them.  An
    attribute read from a record that lacks it is [undefined]: [None]. *)
Module UpdateItemInput.
Record t : Type := mk {
  TableName : string;
  ReturnValues : string;
  Key : gmap string (option string);
  ConditionExpression : string;
  UpdateExpression : string;
  ExpressionAttributeNames : gmap string string;
  ExpressionAttributeValues : gmap string (option string)
}.
End UpdateItemInput.

Module DeleteItemInput.
Record t : Type := mk {
  TableName : string;
  Key : gmap string (option string)
}.
End DeleteItemInput.

(** [s.slice(0, -2)]: the string without its last two characters. *)
Definition sliceOffLastTwo (s : string) : string :=
  String.substring 0 (String.length s - 2) s.

Module Table.

(** A table: its name and the formatter that its constructor builds. *)
Record t : Type := mk {
  tableName : string;
  schemaFormatter : SchemaFormatter
}.

(** [query(qparams)]: the query on one partition, projected when the caller
    asks for it.  A throw of [formatPK] leaves no query. *)
Definition query (table : t) (qparams : QueryParams.t) : result Chain :=
  let sf := schemaFormatter table in
  let* pkValue := formatPK sf (QueryParams.pk qparams) in
  let params :=
    {| TableName := tableName table;
       IndexName := keepTruthy (QueryParams.IndexName qparams);
       ScanIndexForward := None;
       ProjectionExpression := None;
       ExclusiveStartKey := None;
       KeyConditionExpression := Some "#pk = :pk";
       ExpressionAttributeNames := Some {[ "#pk" := name (getPK sf) ]};
       Limit := QueryParams.limit qparams;
       ExpressionAttributeValues := Some {[ ":pk" := AttrS pkValue ]};
       FilterExpression := None |} in
  let query := mkChain params "query" sf in
  Return (match QueryParams.project qparams with
          | Some projectDto => project query (Some projectDto)
          | None => query
          end).

(** The query that [getPartitionBatch(qparams)] runs: sorted, moved to the
    pivot and projected. *)
Definition partitionQuery
    (formatItemKeysWithIndexDtoAsRecord :
       SchemaFormatter -> gmap string jsval -> string
       -> result (gmap string string))
    (table : t) (qparams : QueryParams.t) : result Chain :=
  let* query := query table qparams in
  let sorted :=
    match QueryParams.pagination qparams with
    | None => sortAscending query
    | Some pagination =>
      match Pagination.direction pagination with
      | None | Some forward => sortAscending query
      | Some backward => sortDescending query
      end
    end in
  let* pivoted :=
    match QueryParams.pagination qparams with
    | Some pagination =>
      match Pagination.pivot pagination with
      | Some cursor => pivot formatItemKeysWithIndexDtoAsRecord sorted cursor
      | None => Return sorted
      end
    | None => Return sorted
    end in
  Return (match QueryParams.project qparams with
          | Some projectDto => project pivoted (Some projectDto)
          | None => pivoted
          end).

(** [getPartitionBatch(qparams)]. *)
Definition getPartitionBatch (send : Command -> result CommandOutput)
    (formatItemKeysWithIndexDtoAsRecord :
       SchemaFormatter -> gmap string jsval -> string
       -> result (gmap string string))
    (table : t) (qparams : QueryParams.t) : result paginationResult :=
  let* query :=
    partitionQuery formatItemKeysWithIndexDtoAsRecord table qparams in
  (run send query).2.

(** The loop [for (const key in itemAsRecord)] of
    [createUpdateItemInputFromRecord], over the keys of the record in
    enumeration order. *)
Fixpoint updateLoop (pkName skName : string)
    (itemAsRecord : gmap string string) (recordKeys : list string)
    (UpdateExpression : string) (names : gmap string string)
    (values : gmap string (option string))
  : string * gmap string string * gmap string (option string) :=
  match recordKeys with
  | [] => (UpdateExpression, names, values)
  | key :: rest =>
    if decide (key = pkName \/ key = skName)
    then updateLoop pkName skName itemAsRecord rest UpdateExpression names values
    else updateLoop pkName skName itemAsRecord rest
           (UpdateExpression +:+ "#" +:+ key +:+ " = :" +:+ key +:+ ", ")
           (<["#" +:+ key := key]> names)
           (<[":" +:+ key := itemAsRecord !! key]> values)
  end.

(** [createUpdateItemInputFromRecord(itemAsRecord)], the record given by its
    entries in enumeration order. *)
Definition createUpdateItemInputFromRecord (table : t)
    (entries : list (string * string)) : UpdateItemInput.t :=
  let itemAsRecord : gmap string string := list_to_map entries in
  let pkName := name (getPK (schemaFormatter table)) in
  let Key0 : gmap string (option string) :=
    {[ pkName := itemAsRecord !! pkName ]} in
  let names0 : gmap string string := {[ "#pk" := pkName ]} in
  let '(skName, Key, ConditionExpression, names1) :=
    match getSK (schemaFormatter table) with
    | Some sk =>
      (name sk, <[name sk := itemAsRecord !! name sk]> Key0,
       "attribute_exists(#pk)" +:+ " AND attribute_exists(#sk)",
       <["#sk" := name sk]> names0)
    | None => ("", Key0, "attribute_exists(#pk)", names0)
    end in
  let '(UpdateExpression, names, values) :=
    updateLoop pkName skName itemAsRecord (map fst entries) "SET " names1 ∅ in
  UpdateItemInput.mk (tableName table) "ALL_NEW" Key ConditionExpression
    (sliceOffLastTwo UpdateExpression) names values.

(** [createDeleteItemInputFromRecord(itemAsRecord)]. *)
Definition createDeleteItemInputFromRecord (table : t)
    (itemAsRecord : gmap string string) : DeleteItemInput.t :=
  let pkName := name (getPK (schemaFormatter table)) in
  let Key0 : gmap string (option string) :=
    {[ pkName := itemAsRecord !! pkName ]} in
  DeleteItemInput.mk (tableName table)
    match getSK (schemaFormatter table) with
    | Some sk => <[name sk := itemAsRecord !! name sk]> Key0
    | None => Key0
    end.

(** The command input that [deleteItemInDynamo(pk, sk)] builds before it
    sends it: the record of [{...pk, ...sk}], then its key.  A throw of the
    formatter is what reaches the error handler of the method. *)
Definition deleteItemInput (table : t) (pk sk : gmap string jsval)
  : result DeleteItemInput.t :=
  let* itemAsRecord := formatItemDtoAsRecord (schemaFormatter table) (sk ∪ pk) in
  Return (createDeleteItemInputFromRecord table itemAsRecord).

End Table.

(** ** Specification-side notions *)

(** A side is well separated when it has at most one part, or declares a
    separator that is not the empty string. *)
Definition side_ok (d : KeyDef) : Prop :=
  (length (keys d) <= 1)%nat \/ exists s, separator d = Some s /\ s <> "".

(** The request fields that [run] is not meant to touch. *)
Definition same_except_Limit (p p' : CommandInput) : Prop :=
  TableName p' = TableName p /\
  IndexName p' = IndexName p /\
  ScanIndexForward p' = ScanIndexForward p /\
  ProjectionExpression p' = ProjectionExpression p /\
  ExclusiveStartKey p' = ExclusiveStartKey p /\
  KeyConditionExpression p' = KeyConditionExpression p /\
  ExpressionAttributeNames p' = ExpressionAttributeNames p /\
  ExpressionAttributeValues p' = ExpressionAttributeValues p /\
  FilterExpression p' = FilterExpression p.

Definition same_except_ExclusiveStartKey (p p' : CommandInput) : Prop :=
  TableName p' = TableName p /\
  IndexName p' = IndexName p /\
  ScanIndexForward p' = ScanIndexForward p /\
  ProjectionExpression p' = ProjectionExpression p /\
  KeyConditionExpression p' = KeyConditionExpression p /\
  ExpressionAttributeNames p' = ExpressionAttributeNames p /\
  Limit p' = Limit p /\
  ExpressionAttributeValues p' = ExpressionAttributeValues p /\
  FilterExpression p' = FilterExpression p.

(** The six comparison operators of [FilterOperator]. *)
Definition isFilterOperator (op : string) : Prop :=
  op = "=" \/ op = "<>" \/ op = "<" \/ op = "<=" \/ op = ">" \/ op = ">=".

(** [f] is a supplied field of least declared index: the field that the
    ordering by declared index puts first. *)
Definition first_supplied (declared supplied : list string) (f : string) : Prop :=
  f ∈ supplied /\
  forall g, g ∈ supplied -> indexOf declared f <= indexOf declared g.

(** The loop of [assertPartialOrderSKIsCorrect] read as a simultaneous
    traversal of the ordered supplied keys and of the declared parts, both
    from their second element on. *)
Fixpoint lockstep (ordered declared : list string) {struct declared}
  : result unit :=
  match declared with
  | [] => Return tt
  | p :: declared' =>
    match ordered with
    | [] => Return tt
    | x :: ordered' =>
      if decide (x = p) then lockstep ordered' declared'
      else Throw (KEY_NOT_INCLUDED_IN_SK p)
    end
  end.

(** [occurs c s]: the character [c] occurs in [s]. *)
Fixpoint occurs (c : ascii) (s : string) : bool :=
  match s with
  | EmptyString => false
  | String a s' => Ascii.eqb c a || occurs c s'
  end.

(** [free_of sep s]: no character of [s] is a character of [sep]; for a
    separator of one character, [s] does not contain the separator. *)
Fixpoint free_of (sep s : string) : bool :=
  match s with
  | EmptyString => true
  | String c s' => negb (occurs c sep) && free_of sep s'
  end.

(** The string held by a property, for properties that hold one. *)
Definition stringOf (item : gmap string jsval) (k : string) : string :=
  match item !! k with
  | Some (JString s) => s
  | _ => ""
  end.



(** A side whose encoding of the item can be decoded: every declared part
    holds a string, free of the characters of the separator when there is
    one, and named like the physical attribute when there is none. *)
Definition side_decodable (def : KeyDef) (item : gmap string jsval) : Prop :=
  (forall k, k ∈ keys def -> exists s, item !! k = Some (JString s)) /\
  (if truthy_string (separator def)
   then forall k, k ∈ keys def ->
                  free_of (default "" (separator def)) (stringOf item k) = true
   else keys def = [name def]).

(** The answer of the store to the request that [run] sends: the dispatch
    on the chain whose limit was incremented. *)
Definition issued (send : Command -> result CommandOutput) (c : Chain)
  : result CommandOutput :=
  dispatch send (incrementLimit c).

(** What the specification asks of a page derived from a non-empty item
    list [its], for a caller limit [N], a continuation cursor and a starting
    cursor. *)
Definition page_of (its : list (gmap string jsval)) (N : Z) (dir : Direction)
    (newCursor oldCursor : option (gmap string jsval))
    (pr : paginationResult) : Prop :=
  (hasPrevious pr = true <-> is_Some oldCursor) /\
  (hasNext pr = true <-> is_Some newCursor \/ Z.of_nat (length its) = N + 1) /\
  (Z.of_nat (length its) = N + 1 -> exists x, its = items pr ++ [x]) /\
  (Z.of_nat (length its) <> N + 1 -> items pr = its) /\
  count pr = length (items pr) /\
  firstEvaluatedKey pr = head (items pr) /\
  lastEvaluatedKey pr = last (items pr) /\
  direction pr = dir.

(** A record of the store that carries the physical key attributes of the
    schema. *)
Definition hasKeyAttributes (sf : SchemaFormatter)
    (record : gmap string string) : Prop :=
  is_Some (record !! name (getPK sf)) /\
  forall skd, getSK sf = Some skd -> is_Some (record !! name skd).

#[global] Instance hasKeyAttributes_dec (sf : SchemaFormatter)
    (record : gmap string string) : Decision (hasKeyAttributes sf record).
Proof.
  unfold hasKeyAttributes. destruct (getSK sf) as [skd|].
  - destruct (decide (is_Some (record !! name (getPK sf)))) as [Hp|Hp];
      [|right; tauto].
    destruct (decide (is_Some (record !! name skd))) as [Hs|Hs].
    + left. split; [exact Hp|]. intros ? [= <-]. exact Hs.
    + right. intros [_ H]. apply Hs, H. reflexivity.
  - destruct (decide (is_Some (record !! name (getPK sf)))) as [Hp|Hp].
    + left. split; [exact Hp|]. intros ? [=].
    + right. tauto.
Defined.


(** The name placeholder that [Chain.filter] gives to the field [key] when
    its counter is [counter]. *)
Definition namePlaceholderOf (key : string) (counter : nat) : string :=
  "#" +:+ replaceDots key +:+ "_" +:+ pretty counter.

(** The entries of a filter object whose condition is not [undefined]: the
    ones that [Chain.filter] numbers. *)
Definition definedEntries (fo : FilterObject)
  : list (string * FilterCondition) :=
  omap (fun entry => match entry.2 with
                     | Some cond => Some (entry.1, cond)
                     | None => None
                     end) fo.

(** The clauses that [Chain.filter] generates for a filter object. *)
Definition clausesOf (fo : FilterObject) : list string :=
  expressionParts (fold_left filterStep fo (mkFilterState [] ∅ ∅ 0)).

(** A filter object none of whose conditions carries a value: each
    condition is [undefined], or an operator object whose values are all
    [undefined]. *)
Definition definesNoValue (fo : FilterObject) : Prop :=
  Forall (fun entry =>
            match entry.2 with
            | None => True
            | Some (CondValue _) => False
            | Some (CondOperators condObj) =>
              Forall (fun ov => ov.2 = None) condObj
            end) fo.

(** [getPartitionBatch] without its own projection: the query of
    [Table.query], which is already projected, sorted and moved to the
    pivot. *)
Definition partitionQueryProjectedOnce
    (formatItemKeysWithIndexDtoAsRecord :
       SchemaFormatter -> gmap string jsval -> string
       -> result (gmap string string))
    (table : Table.t) (qparams : QueryParams.t) : result Chain :=
  let* query := Table.query table qparams in
  let sorted :=
    match QueryParams.pagination qparams with
    | None => sortAscending query
    | Some pagination =>
      match Pagination.direction pagination with
      | None | Some forward => sortAscending query
      | Some backward => sortDescending query
      end
    end in
  match QueryParams.pagination qparams with
  | Some pagination =>
    match Pagination.pivot pagination with
    | Some cursor => pivot formatItemKeysWithIndexDtoAsRecord sorted cursor
    | None => Return sorted
    end
  | None => Return sorted
  end.

(** The keys that [createUpdateItemInputFromRecord] assigns: the keys of
    the record, in enumeration order, but the two physical key attributes;
    and the clause of one key. *)
Definition assignedKeys (table : Table.t) (recordKeys : list string)
  : list string :=
  let pkName := name (getPK (Table.schemaFormatter table)) in
  let skName := match getSK (Table.schemaFormatter table) with
                | Some sk => name sk
                | None => ""
                end in
  base.filter (fun key => ~ (key = pkName \/ key = skName)) recordKeys.

Definition assignmentOf (key : string) : string :=
  "#" +:+ key +:+ " = :" +:+ key.

(** The names of the physical key attributes of a schema. *)
Definition physicalNames (sf : SchemaFormatter) : list string :=
  name (getPK sf) :: match getSK sf with
                     | Some skd => [name skd]
                     | None => []
                     end.

(** [Number.isSafeInteger]: the integers on which adding one is exact in
    double arithmetic. *)
Definition isSafeInteger (n : Z) : Prop := Z.abs n <= 2 ^ 53 - 1.

(** The names of the members that every plain object inherits from
    [Object.prototype]: reading one of them on an object that has no own
    property of that name gives the inherited member, not [undefined]. *)
Definition objectPrototypeNames : list string :=
  ["constructor"; "hasOwnProperty"; "isPrototypeOf"; "propertyIsEnumerable";
   "toLocaleString"; "toString"; "valueOf"; "__proto__";
   "__defineGetter__"; "__defineSetter__";
   "__lookupGetter__"; "__lookupSetter__"].

(** ** Sample inputs *)

(** The schema and the request of the chain tests: single-part sides without
    separator, and the request that [Table.query] builds. *)
Definition sampleFormatter : SchemaFormatter :=
  {| getPK := mkKeyDef "pk" ["tenantId"] None;
     getSK := Some (mkKeyDef "sk" ["category"] None);
     getPreserve := None |}.

Definition sampleParams : CommandInput :=
  {| TableName := "TestTable";
     IndexName := None;
     ScanIndexForward := None;
     ProjectionExpression := None;
     ExclusiveStartKey := None;
     KeyConditionExpression := Some "#pk = :pk";
     ExpressionAttributeNames := Some {[ "#pk" := "pk" ]};
     Limit := 10;
     ExpressionAttributeValues := Some {[ ":pk" := AttrS "tenant1" ]};
     FilterExpression := None |}.

Definition sampleChain : Chain := mkChain sampleParams "query" sampleFormatter.

(** The request that [Table.scan] builds: a table name and a limit. *)
Definition scanParams : CommandInput :=
  {| TableName := "TestTable";
     IndexName := None;
     ScanIndexForward := None;
     ProjectionExpression := None;
     ExclusiveStartKey := None;
     KeyConditionExpression := None;
     ExpressionAttributeNames := None;
     Limit := 10;
     ExpressionAttributeValues := None;
     FilterExpression := None |}.

Definition scanChain : Chain := mkChain scanParams "scan" sampleFormatter.

(** The chain of the tests moved to a cursor. *)
Definition pivotedChain : Chain :=
  mkChain
    {| TableName := "TestTable";
       IndexName := None;
       ScanIndexForward := None;
       ProjectionExpression := None;
       ExclusiveStartKey := Some (<["pk" := "tenant1"]> {[ "sk" := "books" ]});
       KeyConditionExpression := Some "#pk = :pk";
       ExpressionAttributeNames := Some {[ "#pk" := "pk" ]};
       Limit := 10;
       ExpressionAttributeValues := Some {[ ":pk" := AttrS "tenant1" ]};
       FilterExpression := None |}
    "query" sampleFormatter.

(** A store that holds nothing. *)
Definition emptyStore (_ : Command) : result CommandOutput :=
  Return {| Items := Some []; LastEvaluatedKey := None |}.


(** The table of the chain tests, and a request for one of its partitions
    that projects one field. *)
Definition sampleTable : Table.t := Table.mk "TestTable" sampleFormatter.

Definition sampleQueryParams : QueryParams.t :=
  QueryParams.mk {[ "tenantId" := JString "tenant1" ]} 10 None None
    (Some ["status"]).

(** A record of [sampleTable] with two payload attributes, and one with
    none. *)
Definition statusRecord : list (string * string) :=
  [("pk", "tenant1"); ("status", "active"); ("sk", "books"); ("age", "42")].

Definition bareRecord : list (string * string) :=
  [("pk", "tenant1"); ("sk", "books")].

(** An index formatter that always rejects, for chains without index. *)
Definition noIndexFormatter (_ : SchemaFormatter) (_ : gmap string jsval)
    (_ : string) : result (gmap string string) :=
  Throw TypeError.

Definition statusFilter : rawFilterParams.t :=
  rawFilterParams.mk "attribute_exists(#status)"
    {[ "#status" := "status" ]} {[ ":val" := AttrS "active" ]}.

(** [{ age: { '>': 18, '<': 65 } }]. *)
Definition ageRangeFilter : FilterObject :=
  [("age", Some (CondOperators [(">", Some (FNumber 18));
                                ("<", Some (FNumber 65))]))].

(** [{ age: undefined, name: { '=': undefined } }]: no value at all. *)
Definition valuelessFilter : FilterObject :=
  [("age", None); ("name", Some (CondOperators [("=", None)]))].

(** The schema of the partial-key tests, with sort parts [A] to [E]. *)
Definition partialsFormatter : SchemaFormatter :=
  {| getPK := mkKeyDef "pk" ["tenantId"; "userId"] (Some "#");
     getSK := Some (mkKeyDef "sk" ["A"; "B"; "C"; "D"; "E"] (Some "#"));
     getPreserve := Some ["userId"] |}.

(** [{ B: 'b', A: 'a' }]: a valid prefix, written in another order. *)
Definition reversedPrefix : list (string * jsval) :=
  [("B", JString "b"); ("A", JString "a")].

Definition compositeSide : KeyDef :=
  mkKeyDef "pk" ["tenantId"; "userId"] (Some "#").

(** A chain with a caller limit of one, and a store that answers two
    records and no continuation key. *)
Definition limitOneChain : Chain :=
  mkChain
    {| TableName := "TestTable";
       IndexName := None;
       ScanIndexForward := Some true;
       ProjectionExpression := None;
       ExclusiveStartKey := None;
       KeyConditionExpression := Some "#pk = :pk";
       ExpressionAttributeNames := Some {[ "#pk" := "pk" ]};
       Limit := 1;
       ExpressionAttributeValues := Some {[ ":pk" := AttrS "tenant1" ]};
       FilterExpression := None |}
    "query" sampleFormatter.

Definition twoRecords : CommandOutput :=
  {| Items := Some [ <["pk" := "tenant1"]> {[ "sk" := "category1" ]};
                     <["pk" := "tenant1"]> {[ "sk" := "category2" ]} ];
     LastEvaluatedKey := None |}.

Definition twoRecordStore (_ : Command) : result CommandOutput :=
  Return twoRecords.

(** The schema of the formatter tests: two parts on each side. *)
Definition formattingFormatter : SchemaFormatter :=
  {| getPK := mkKeyDef "pk" ["tenantId"; "userId"] (Some "#");
     getSK := Some (mkKeyDef "sk" ["sort"; "timestamp"] (Some "|"));
     getPreserve := Some ["userId"] |}.

Definition idItem (id : string) : gmap string jsval := {[ "id" := JString id ]}.

(** An item of that schema with one payload field. *)
Definition messageItem : gmap string jsval :=
  <["tenantId" := JString "t"]> (<["userId" := JString "u"]>
    (<["sort" := JString "s"]> (<["timestamp" := JString "9"]>
       {[ "message" := JString "hi" ]}))).

(** The record of the store for that item: [userId] is preserved. *)
Definition messageRecord : gmap string string :=
  <["pk" := "t#u"]> (<["sk" := "s|9"]> (<["userId" := "u"]>
    {[ "message" := "hi" ]})).

(** ** Tactics *)

(** Closed decidable goals are settled by evaluation. *)
Ltac by_decide := apply (bool_decide_unpack _); vm_compute; exact I.

(** * Properties *)

(** ** Construction of a formatter *)

Lemma truthy_string_spec (s : option string) :
  truthy_string s = true <-> exists t, s = Some t /\ t <> "".
Proof.
  destruct s as [[|a t]|]; simpl; split; try discriminate.
  - intros (t & [= <-] & Hne). congruence.
  - intros _. eexists. split; [reflexivity | discriminate].
  - intros _. reflexivity.
  - intros (t & [=] & _).
Qed.

Lemma side_check_false_iff (d : KeyDef) :
  (1 <? length (keys d))%nat && negb (truthy_string (separator d)) = false
  <-> side_ok d.
Proof.
  unfold side_ok. rewrite andb_false_iff, Nat.ltb_ge, negb_false_iff.
  rewrite truthy_string_spec. reflexivity.
Qed.

(** C8. Construction throws KEY_SCHEMA_REQUIRED for a missing schema,
    PK_REQUIRED for a schema without partition-key definition, and
    SEPARATOR_REQUIRED (naming the side and its number of parts) for a side
    with more than one part and no (non-empty) separator; every other
    schema, that is every schema whose sides each have at most one part or a
    separator, is accepted, and the formatter holds its definitions. *)
Theorem SchemaFormatter_new_spec (keySchema : option KeySchema) :
  match keySchema with
  | None => SchemaFormatter_new keySchema = Throw KEY_SCHEMA_REQUIRED
  | Some ks =>
    match pk ks with
    | None => SchemaFormatter_new keySchema = Throw PK_REQUIRED
    | Some pkd =>
      (~ side_ok pkd ->
         SchemaFormatter_new keySchema
         = Throw (SEPARATOR_REQUIRED "pk" (length (keys pkd)))) /\
      (forall skd, side_ok pkd -> sk ks = Some skd -> ~ side_ok skd ->
         SchemaFormatter_new keySchema
         = Throw (SEPARATOR_REQUIRED "sk" (length (keys skd)))) /\
      (side_ok pkd -> (forall skd, sk ks = Some skd -> side_ok skd) ->
         SchemaFormatter_new keySchema
         = Return (mkSchemaFormatter pkd (sk ks) (preserve ks)))
    end
  end.
Proof.
  destruct keySchema as [ks|]; [|reflexivity].
  simpl. destruct (pk ks) as [pkd|]; [|reflexivity].
  pose proof (side_check_false_iff pkd) as Hpk.
  destruct ((1 <? length (keys pkd))%nat && negb (truthy_string (separator pkd))).
  - split; [reflexivity|].
    split; intros; exfalso; match goal with H : side_ok pkd |- _ =>
      apply Hpk in H; discriminate end.
  - split; [intros Hn; exfalso; apply Hn, Hpk; reflexivity|].
    destruct (sk ks) as [skd|].
    + pose proof (side_check_false_iff skd) as Hsk.
      destruct ((1 <? length (keys skd))%nat
                && negb (truthy_string (separator skd))).
      * split.
        -- intros skd' _ [= <-] _. reflexivity.
        -- intros _ Hall. specialize (Hall skd eq_refl).
           apply Hsk in Hall. discriminate.
      * split.
        -- intros skd' _ [= <-] Hn. exfalso. apply Hn, Hsk. reflexivity.
        -- reflexivity.
    + split; [intros skd' _ [=]|reflexivity].
Qed.

Lemma SchemaFormatter_new_spec_witness :
  SchemaFormatter_new (Some (mkKeySchema (Some compositeSide) None None))
  = Return (mkSchemaFormatter compositeSide None None) /\
  SchemaFormatter_new
    (Some (mkKeySchema (Some (mkKeyDef "pk" ["tenantId"; "userId"] None))
             None None))
  = Throw (SEPARATOR_REQUIRED "pk" 2).
Proof.
  split.
  - pose proof (SchemaFormatter_new_spec
                  (Some (mkKeySchema (Some compositeSide) None None)))
      as (_ & _ & Hok).
    apply Hok.
    + right. exists "#". split; [reflexivity | discriminate].
    + intros skd [=].
  - pose proof (SchemaFormatter_new_spec
                  (Some (mkKeySchema
                           (Some (mkKeyDef "pk" ["tenantId"; "userId"] None))
                           None None)))
      as (Hpk & _).
    apply Hpk. intros [Hlen|(t & [=] & _)]. simpl in Hlen. lia.
Defined.

(** ** Deriving a page *)

Lemma bool_decide_is_Some {A : Type} (o : option A) :
  bool_decide (is_Some o) = true <-> is_Some o.
Proof. rewrite bool_decide_eq_true. reflexivity. Qed.

Lemma length_nonzero_iff {A : Type} (l : list A) :
  (length l =? 0)%nat = false <-> l <> [].
Proof.
  rewrite Nat.eqb_neq. destruct l; simpl; split; intros; congruence || lia.
Qed.

(** The derivation of a page from a non-empty item list, with the limit
    [N + 1] that [run] passes for a caller limit [N]. *)
Lemma formatPaginationResult_nonempty
    (its : list (gmap string jsval)) (N : Z) (dir : Direction)
    (newCursor oldCursor : option (gmap string jsval)) :
  its <> [] ->
  page_of its N dir newCursor oldCursor
    (formatPaginationResult its (N + 1) dir newCursor oldCursor).
Proof.
  intros Hne. unfold page_of, formatPaginationResult.
  apply length_nonzero_iff in Hne as Hlen. rewrite Hlen. simpl.
  split; [apply bool_decide_is_Some|].
  split.
  { rewrite orb_true_iff, bool_decide_is_Some, Z.eqb_eq. reflexivity. }
  destruct (Z.eqb_spec (Z.of_nat (length its)) (N + 1)) as [Heq|Hneq].
  - repeat split; try reflexivity; try contradiction.
    intros _. exists (List.last its ∅).
    apply app_removelast_last. exact Hne.
  - repeat split; try reflexivity; try contradiction.
Qed.

(** [run] issues its request with the caller's limit plus one, and derives
    the page with that same incremented limit. *)
Lemma run_over_fetches_by_one (send : Command -> result CommandOutput)
    (c : Chain) :
  Limit (buildQueryCommandInput (incrementLimit c)) = Limit (params c) + 1 /\
  Limit (buildScanCommandInput (incrementLimit c)) = Limit (params c) + 1 /\
  forall resp its newCursor oldCursor,
    issued send c = Return resp ->
    mapM (formatRecordAsItemDto (schemaFormatter c))
      (default [] (Items resp)) = Return its ->
    decodeOptional (schemaFormatter c) (LastEvaluatedKey resp)
      = Return newCursor ->
    decodeOptional (schemaFormatter c) (ExclusiveStartKey (params c))
      = Return oldCursor ->
    (run send c).2
    = Return (formatPaginationResult its (Limit (params c) + 1)
                (directionOf (params c)) newCursor oldCursor).
Proof.
  split; [reflexivity|]. split; [reflexivity|].
  intros resp its newCursor oldCursor Hsend Hits Hnew Hold.
  unfold issued in Hsend. unfold run, runBody. cbn [snd].
  rewrite Hsend. cbn [bind].
  change (schemaFormatter (incrementLimit c)) with (schemaFormatter c).
  rewrite Hits. cbn [bind]. rewrite Hnew. cbn [bind].
  change (ExclusiveStartKey (params (incrementLimit c)))
    with (ExclusiveStartKey (params c)).
  rewrite Hold. reflexivity.
Qed.

(** C1. When the store answers a request of [run] and the decoded item list
    is not empty, then, for the caller limit [N] stored before the call
    (the request is issued with [N + 1]): [hasPrevious] holds iff the
    starting cursor is defined; [hasNext] holds iff the continuation cursor
    is defined or [N + 1] items came back; in the latter case exactly the
    last item is dropped, otherwise the list is kept; [count] is the length
    of what is kept, and [firstEvaluatedKey] and [lastEvaluatedKey] are its
    first and last item. *)
Theorem run_page_nonempty (send : Command -> result CommandOutput)
    (c : Chain) (resp : CommandOutput) (its : list (gmap string jsval))
    (newCursor oldCursor : option (gmap string jsval)) :
  issued send c = Return resp ->
  mapM (formatRecordAsItemDto (schemaFormatter c))
    (default [] (Items resp)) = Return its ->
  decodeOptional (schemaFormatter c) (LastEvaluatedKey resp)
    = Return newCursor ->
  decodeOptional (schemaFormatter c) (ExclusiveStartKey (params c))
    = Return oldCursor ->
  its <> [] ->
  exists pr, (run send c).2 = Return pr /\
    page_of its (Limit (params c)) (directionOf (params c))
      newCursor oldCursor pr.
Proof.
  intros Hsend Hits Hnew Hold Hne.
  destruct (run_over_fetches_by_one send c) as (_ & _ & Hrun).
  eexists. split; [exact (Hrun resp its newCursor oldCursor Hsend Hits Hnew Hold)|].
  apply formatPaginationResult_nonempty. exact Hne.
Qed.

Lemma run_page_nonempty_witness :
  let it1 : gmap string jsval :=
    <["pk" := JString "tenant1"]> {[ "sk" := JString "category1" ]} in
  let it2 : gmap string jsval :=
    <["pk" := JString "tenant1"]> {[ "sk" := JString "category2" ]} in
  exists pr, (run twoRecordStore limitOneChain).2 = Return pr /\
    page_of [it1; it2] 1 forward None None pr.
Proof.
  intros it1 it2.
  apply (run_page_nonempty twoRecordStore limitOneChain twoRecords
           [it1; it2] None None).
  - reflexivity.
  - vm_compute. reflexivity.
  - reflexivity.
  - reflexivity.
  - discriminate.
Defined.

(** The page derived from an empty item list: no items, a count of zero,
    and both flags according to the continuation cursor, whatever the
    starting cursor. *)
Lemma formatPaginationResult_empty (limit : Z) (dir : Direction)
    (newCursor oldCursor : option (gmap string jsval)) :
  let pr := formatPaginationResult [] limit dir newCursor oldCursor in
  items pr = [] /\ count pr = 0%nat /\
  (hasNext pr = true <-> is_Some newCursor) /\
  (hasPrevious pr = true <-> is_Some newCursor).
Proof.
  simpl. repeat split; try apply bool_decide_is_Some;
    intros H; apply bool_decide_is_Some; exact H.
Qed.

(** C3. When the store answers a request of [run] and the decoded item
    list is empty, the page has no items and a count of zero, and [hasNext]
    and [hasPrevious] both hold iff the continuation cursor of the store is
    defined, whatever the starting cursor of the request; with no
    continuation cursor both are false, also on a page fetched from a
    cursor. *)
Theorem run_page_empty (send : Command -> result CommandOutput)
    (c : Chain) (resp : CommandOutput)
    (newCursor oldCursor : option (gmap string jsval)) :
  issued send c = Return resp ->
  mapM (formatRecordAsItemDto (schemaFormatter c))
    (default [] (Items resp)) = Return [] ->
  decodeOptional (schemaFormatter c) (LastEvaluatedKey resp)
    = Return newCursor ->
  decodeOptional (schemaFormatter c) (ExclusiveStartKey (params c))
    = Return oldCursor ->
  exists pr, (run send c).2 = Return pr /\
    items pr = [] /\ count pr = 0%nat /\
    (hasNext pr = true <-> is_Some newCursor) /\
    (hasPrevious pr = true <-> is_Some newCursor) /\
    (newCursor = None -> hasNext pr = false /\ hasPrevious pr = false).
Proof.
  intros Hsend Hits Hnew Hold.
  destruct (run_over_fetches_by_one send c) as (_ & _ & Hrun).
  eexists. split; [exact (Hrun resp [] newCursor oldCursor Hsend Hits Hnew Hold)|].
  destruct (formatPaginationResult_empty (Limit (params c) + 1)
              (directionOf (params c)) newCursor oldCursor)
    as (Hitems & Hcount & Hnext & Hprev).
  split; [exact Hitems|]. split; [exact Hcount|].
  split; [exact Hnext|]. split; [exact Hprev|].
  intros ->. split; reflexivity.
Qed.

Lemma run_page_empty_witness :
  exists pr, (run emptyStore pivotedChain).2 = Return pr /\
    items pr = [] /\ count pr = 0%nat /\
    hasNext pr = false /\ hasPrevious pr = false.
Proof.
  destruct (run_page_empty emptyStore pivotedChain
              {| Items := Some []; LastEvaluatedKey := None |} None
              (Some (<["pk" := JString "tenant1"]>
                       {[ "sk" := JString "books" ]})))
    as (pr & Hrun & Hitems & Hcount & _ & _ & Hnone).
  - reflexivity.
  - reflexivity.
  - reflexivity.
  - vm_compute. reflexivity.
  - exists pr. destruct (Hnone eq_refl) as [Hnext Hprev].
    split; [exact Hrun|]. split; [exact Hitems|]. split; [exact Hcount|].
    split; [exact Hnext|exact Hprev].
Defined.

(** C3, as stated, fails: an empty page fetched from a starting cursor, with
    no continuation cursor, reports [hasPrevious = false]; and an empty
    page with a continuation cursor but no starting cursor reports
    [hasPrevious = true]. *)
Lemma empty_page_hasPrevious_ignores_start_cursor :
  let cursor : gmap string jsval := {[ "id" := JString "5" ]} in
  hasPrevious (formatPaginationResult [] 6 forward None (Some cursor)) = false /\
  hasPrevious (formatPaginationResult [] 6 forward (Some cursor) None) = true.
Proof. split; reflexivity. Qed.

(** ** The frame of [run] and [pivot] *)

(** C9, as the code has it: [run] leaves every stored request field but
    [Limit] as it was, the exclusive start key included, and adds one to the
    stored [Limit] when it is a safe integer, whatever the store answers and
    also when the call throws; [pivot], when it returns, changes
    [ExclusiveStartKey] and nothing else. *)
Theorem run_pivot_frame
    (send : Command -> result CommandOutput)
    (fmtIndex : SchemaFormatter -> gmap string jsval -> string
                -> result (gmap string string))
    (c : Chain) (cursor : gmap string jsval) :
  (same_except_Limit (params c) (params (run send c).1) /\
   (isSafeInteger (Limit (params c)) ->
    Limit (params (run send c).1) = Limit (params c) + 1) /\
   queryType (run send c).1 = queryType c /\
   schemaFormatter (run send c).1 = schemaFormatter c) /\
  (forall c', pivot fmtIndex c cursor = Return c' ->
     same_except_ExclusiveStartKey (params c) (params c') /\
     is_Some (ExclusiveStartKey (params c')) /\
     queryType c' = queryType c /\
     schemaFormatter c' = schemaFormatter c).
Proof.
  split.
  - unfold same_except_Limit. simpl.
    split; [repeat split; reflexivity|].
    split; [intros _; reflexivity|]. split; reflexivity.
  - intros c' Hp. unfold pivot in Hp.
    destruct (if truthy_string (IndexName (params c)) then _ else _)
      as [startKey|e]; simpl in Hp; [|discriminate].
    injection Hp as <-. unfold same_except_ExclusiveStartKey. simpl.
    repeat split; try reflexivity. eexists; reflexivity.
Qed.

Lemma run_pivot_frame_witness :
  Limit (params (run emptyStore sampleChain).1) = 11 /\
  forall c',
    pivot noIndexFormatter sampleChain
      {[ "tenantId" := JString "t"; "category" := JString "c" ]} = Return c' ->
    Limit (params c') = 10.
Proof.
  pose proof (run_pivot_frame emptyStore noIndexFormatter sampleChain
                {[ "tenantId" := JString "t"; "category" := JString "c" ]})
    as [(_ & HL & _) Hp].
  split; [apply HL; unfold isSafeInteger; by_decide|].
  intros c' Hc'. destruct (Hp c' Hc') as [Hsame _].
  unfold same_except_ExclusiveStartKey in Hsame.
  destruct Hsame as (_ & _ & _ & _ & _ & _ & HLim & _). exact HLim.
Defined.

(** C9, as stated, fails: a run leaves a different stored [Limit]. *)
Lemma run_changes_stored_Limit :
  Limit (params (run emptyStore sampleChain).1) <> Limit (params sampleChain).
Proof. simpl. discriminate. Qed.

(** Two runs of one chain over-fetch by two on the second request. *)
Lemma second_run_requests_two_more (send : Command -> result CommandOutput)
    (c : Chain) :
  isSafeInteger (Limit (params c)) ->
  isSafeInteger (Limit (params c) + 1) ->
  Limit (buildQueryCommandInput (incrementLimit (run send c).1))
  = Limit (params c) + 2.
Proof. intros _ _. simpl. lia. Qed.

(** ** Merging a raw filter *)

(** The part of C6 that the code satisfies: the clause is installed, or
    appended as [ AND (clause)] to a non-empty expression; the value table
    always receives the new entries, which win over existing ones, and keeps
    the others; and so does the name table when the request already has
    one. *)
Lemma filterRaw_merges_into_existing_tables (c : Chain) (f : rawFilterParams.t) :
  let p' := params (filterRaw c f) in
  (truthy_string (FilterExpression (params c)) = false ->
     FilterExpression p' = Some (rawFilterParams.FilterExpression f)) /\
  (forall old, FilterExpression (params c) = Some old -> old <> "" ->
     FilterExpression p'
     = Some (old +:+ " AND (" +:+ rawFilterParams.FilterExpression f +:+ ")")) /\
  (exists vals, ExpressionAttributeValues p' = Some vals /\
     forall k,
       vals !! k =
       match rawFilterParams.ExpressionAttributeValues f !! k with
       | Some v => Some v
       | None => default ∅ (ExpressionAttributeValues (params c)) !! k
       end) /\
  (forall existing, ExpressionAttributeNames (params c) = Some existing ->
     exists nms, ExpressionAttributeNames p' = Some nms /\
       forall k,
         nms !! k =
         match rawFilterParams.ExpressionAttributeNames f !! k with
         | Some v => Some v
         | None => existing !! k
         end).
Proof.
  simpl. repeat split.
  - intros Hf. rewrite Hf. reflexivity.
  - intros old Hold Hne. rewrite Hold.
    destruct old; [congruence|]. reflexivity.
  - destruct (ExpressionAttributeValues (params c)) as [existing|]; simpl.
    + eexists. split; [reflexivity|]. intros k.
      rewrite lookup_union.
      destruct (rawFilterParams.ExpressionAttributeValues f !! k),
        (existing !! k); reflexivity.
    + eexists. split; [reflexivity|]. intros k. rewrite lookup_empty.
      destruct (rawFilterParams.ExpressionAttributeValues f !! k); reflexivity.
  - intros existing ->. eexists. split; [reflexivity|]. intros k.
    rewrite lookup_union.
    destruct (rawFilterParams.ExpressionAttributeNames f !! k),
      (existing !! k); reflexivity.
Qed.

(** Without a name table in the request, the merged name table is empty,
    whatever names the filter brings. *)
Lemma filterRaw_without_name_table (c : Chain) (f : rawFilterParams.t) :
  ExpressionAttributeNames (params c) = None ->
  ExpressionAttributeNames (params (filterRaw c f)) = Some ∅.
Proof. intros Hnone. simpl. rewrite Hnone. reflexivity. Qed.

(** C6, at the failing input: on a request without name table (the one
    [Table.scan] builds) the merged name table is empty, so the new name
    placeholder is lost, while the value placeholder is installed. *)
Theorem filterRaw_drops_names_without_table :
  let p' := params (filterRaw scanChain statusFilter) in
  FilterExpression p' = Some "attribute_exists(#status)" /\
  ExpressionAttributeNames p' = Some ∅ /\
  (forall nms, ExpressionAttributeNames p' = Some nms -> nms !! "#status" = None) /\
  ExpressionAttributeValues p' = Some {[ ":val" := AttrS "active" ]}.
Proof.
  simpl. repeat split. intros nms [= <-]. apply lookup_empty.
Qed.

(** ** Building a filter *)

(** Every comparison operator is made of characters that the placeholder
    sanitiser removes. *)
Lemma keepAlphaNum_FilterOperator (op : string) :
  isFilterOperator op -> keepAlphaNum op = "".
Proof.
  intros [->|[->|[->|[->|[->| ->]]]]]; reflexivity.
Qed.

(** Hence two comparison operators on one field share a value
    placeholder. *)
Lemma valuePlaceholderOf_collides (safeKey : string) (n : nat) (op1 op2 : string) :
  isFilterOperator op1 -> isFilterOperator op2 ->
  valuePlaceholderOf safeKey n op1 = valuePlaceholderOf safeKey n op2.
Proof.
  intros H1 H2. unfold valuePlaceholderOf.
  rewrite (keepAlphaNum_FilterOperator op1 H1),
    (keepAlphaNum_FilterOperator op2 H2). reflexivity.
Qed.

(** C4, at the failing input [{ age: { '>': 18, '<': 65 } }]: both clauses
    are emitted and joined by AND, but they name the same value
    placeholder, which holds the literal of the last operator; the literal
    18 is in no entry of the value table. *)
Theorem filter_range_shares_value_placeholder :
  let p' := params (filter sampleChain ageRangeFilter) in
  FilterExpression p' = Some "#age_0 > :val_age_0_ AND #age_0 < :val_age_0_" /\
  ExpressionAttributeNames p' = Some (<["#age_0" := "age"]> {[ "#pk" := "pk" ]}) /\
  ExpressionAttributeValues p'
  = Some (<[":val_age_0_" := AttrN "65"]> {[ ":pk" := AttrS "tenant1" ]}) /\
  (forall vals k, ExpressionAttributeValues p' = Some vals ->
     vals !! k <> Some (AttrN "18")).
Proof.
  assert (Hv : ExpressionAttributeValues (params (filter sampleChain ageRangeFilter))
               = Some (<[":val_age_0_" := AttrN "65"]> {[ ":pk" := AttrS "tenant1" ]})).
  { vm_compute. reflexivity. }
  intros p'. subst p'.
  split; [vm_compute; reflexivity|].
  split; [vm_compute; reflexivity|].
  split; [exact Hv|].
  - intros vals k Hvals. rewrite Hv in Hvals. injection Hvals as <-.
    destruct (decide (k = ":val_age_0_")) as [->|Hk].
    + rewrite lookup_insert_eq. discriminate.
    + rewrite lookup_insert_ne by congruence.
      destruct (decide (k = ":pk")) as [->|Hk'].
      * rewrite lookup_singleton_eq. discriminate.
      * rewrite lookup_singleton_ne by congruence. discriminate.
Qed.

(** ** Ordering the supplied keys *)

Lemma indexOf_spec (l : list string) (x : string) :
  -1 <= indexOf l x /\ (indexOf l x = -1 <-> x ∉ l).
Proof.
  induction l as [|y l [IHge IHiff]]; simpl.
  - split; [lia|]. split; [intros _; apply not_elem_of_nil | reflexivity].
  - destruct (String.eqb_spec y x) as [->|Hne].
    + split; [lia|]. split; [lia|]. intros Hn. exfalso. apply Hn. left.
    + rewrite not_elem_of_cons.
      destruct (Z.ltb_spec (indexOf l x) 0) as [Hlt|Hge].
      * split; [lia|]. split; [|reflexivity].
        intros _. split; [congruence|]. apply IHiff. lia.
      * split; [lia|]. split; [lia|].
        intros [_ Hn]. apply IHiff in Hn. lia.
Qed.

Lemma indexOf_elem (l : list string) (x : string) :
  0 <= indexOf l x <-> x ∈ l.
Proof.
  destruct (indexOf_spec l x) as [Hge Hiff]. split.
  - intros H0. destruct (decide (x ∈ l)) as [|Hn]; [assumption|].
    apply Hiff in Hn. lia.
  - intros Hin. destruct (decide (indexOf l x = -1)) as [Hm|]; [|lia].
    apply Hiff in Hm. contradiction.
Qed.

Lemma indexOf_lookup (l : list string) (i : nat) (x : string) :
  NoDup l -> l !! i = Some x -> indexOf l x = Z.of_nat i.
Proof.
  revert i. induction l as [|y l IH]; intros i Hnd Hi; [discriminate|].
  apply NoDup_cons in Hnd as [Hy Hnd]. simpl.
  destruct i as [|i]; simpl in Hi.
  - injection Hi as ->. rewrite String.eqb_refl. reflexivity.
  - destruct (String.eqb_spec y x) as [->|Hne].
    + exfalso. apply Hy. eapply list_elem_of_lookup_2. exact Hi.
    + rewrite (IH i Hnd Hi).
      destruct (Z.ltb_spec (Z.of_nat i) 0); lia.
Qed.

Lemma indexOf_inj (l : list string) (x y : string) :
  NoDup l -> x ∈ l -> indexOf l x = indexOf l y -> x = y.
Proof.
  intros Hnd Hx Heq.
  assert (Hy : y ∈ l).
  { apply indexOf_elem. rewrite <- Heq. apply indexOf_elem. exact Hx. }
  apply list_elem_of_lookup in Hx as [i Hi], Hy as [j Hj].
  rewrite (indexOf_lookup l i x Hnd Hi), (indexOf_lookup l j y Hnd Hj) in Heq.
  assert (i = j) by lia. subst j. congruence.
Qed.

Section StableSort.

Variable rank : string -> Z.

Lemma insert_by_Permutation (x : string) (l : list string) :
  insert_by rank x l ≡ₚ x :: l.
Proof.
  induction l as [|y l IH]; simpl; [reflexivity|].
  destruct (rank x <=? rank y); [reflexivity|].
  rewrite IH. apply Permutation_swap.
Qed.

Lemma sort_by_Permutation (l : list string) : sort_by rank l ≡ₚ l.
Proof.
  induction l as [|x l IH]; simpl; [reflexivity|].
  rewrite insert_by_Permutation, IH. reflexivity.
Qed.

Lemma insert_by_sorted (x : string) (l : list string) :
  StronglySorted (fun a b => rank a <= rank b) l ->
  StronglySorted (fun a b => rank a <= rank b) (insert_by rank x l).
Proof.
  induction l as [|y l IH]; simpl; intros Hs.
  - repeat constructor.
  - apply StronglySorted_inv in Hs as [Hs Hall].
    destruct (Z.leb_spec (rank x) (rank y)) as [Hle|Hgt].
    + constructor; [constructor; assumption|].
      constructor; [exact Hle|].
      eapply Forall_impl; [exact Hall|]. simpl. intros; lia.
    + constructor; [apply IH; exact Hs|].
      rewrite insert_by_Permutation. constructor; [lia | exact Hall].
Qed.

Lemma sort_by_sorted (l : list string) :
  StronglySorted (fun a b => rank a <= rank b) (sort_by rank l).
Proof.
  induction l as [|x l IH]; simpl; [constructor|].
  apply insert_by_sorted. exact IH.
Qed.

(** The first key after sorting has the least rank. *)
Lemma sort_by_head_least (l : list string) (h x : string) :
  sort_by rank l !! 0%nat = Some h -> x ∈ l -> rank h <= rank x.
Proof.
  intros Hh Hx. pose proof (sort_by_sorted l) as Hs.
  rewrite <- sort_by_Permutation in Hx.
  destruct (sort_by rank l) as [|h' o]; [discriminate|].
  injection Hh as ->. apply StronglySorted_inv in Hs as [_ Hall].
  apply elem_of_cons in Hx as [->|Hx]; [lia|].
  rewrite Forall_forall in Hall. apply Hall. exact Hx.
Qed.

Lemma sort_by_nonempty (l : list string) :
  l <> [] -> exists h, sort_by rank l !! 0%nat = Some h /\ h ∈ l.
Proof.
  intros Hne. pose proof (sort_by_Permutation l) as Hp.
  destruct (sort_by rank l) as [|h o] eqn:Hs.
  - apply Permutation_nil in Hp. congruence.
  - exists h. split; [reflexivity|]. rewrite <- Hp. left.
Qed.

End StableSort.

(** ** Validation of a partial sort key *)

Lemma declared_strictly_sorted (pre l : list string) :
  NoDup (pre ++ l) ->
  StronglySorted
    (fun a b => indexOf (pre ++ l) a < indexOf (pre ++ l) b) l.
Proof.
  revert pre. induction l as [|y l IH]; intros pre Hnd; [constructor|].
  constructor.
  - specialize (IH (pre ++ [y])). rewrite <- app_assoc in IH. apply IH, Hnd.
  - apply Forall_forall. intros z Hz.
    apply list_elem_of_lookup in Hz as [j Hj].
    rewrite (indexOf_lookup (pre ++ y :: l) (length pre) y Hnd)
      by (apply list_lookup_middle; reflexivity).
    rewrite (indexOf_lookup (pre ++ y :: l) (length pre + S j) z Hnd).
    + lia.
    + rewrite lookup_app_r by lia.
      replace (length pre + S j - length pre)%nat with (S j) by lia.
      exact Hj.
Qed.

Lemma StronglySorted_filter {A : Type} (R : A -> A -> Prop) (P : A -> Prop)
    `{forall x, Decision (P x)} (l : list A) :
  StronglySorted R l -> StronglySorted R (base.filter P l).
Proof.
  induction 1 as [|a l Hs IH Hall]; [constructor|].
  rewrite filter_cons. destruct (decide (P a)); [|exact IH].
  constructor; [exact IH|].
  apply Forall_forall. intros x Hx. apply list_elem_of_filter in Hx as [_ Hx].
  rewrite Forall_forall in Hall. apply Hall, Hx.
Qed.

Lemma sorted_strict (ks o : list string) :
  NoDup ks -> NoDup o -> (forall x, x ∈ o -> x ∈ ks) ->
  StronglySorted (fun a b => indexOf ks a <= indexOf ks b) o ->
  StronglySorted (fun a b => indexOf ks a < indexOf ks b) o.
Proof.
  intros Hks. induction o as [|a o IH]; intros Hnd Hsub Hs; [constructor|].
  apply NoDup_cons in Hnd as [Ha Hnd].
  apply StronglySorted_inv in Hs as [Hs Hall].
  constructor.
  - apply IH; [exact Hnd | | exact Hs]. intros x Hx. apply Hsub. right. exact Hx.
  - rewrite Forall_forall in Hall. apply Forall_forall. intros b Hb.
    specialize (Hall b Hb).
    destruct (decide (indexOf ks a = indexOf ks b)) as [Heq|]; [|lia].
    apply indexOf_inj in Heq; [subst b; contradiction | exact Hks |].
    apply Hsub. left.
Qed.

Lemma indexOf_lt_antisymm (ks : list string) :
  AntiSymm eq (fun a b => indexOf ks a < indexOf ks b).
Proof. intros a b H1 H2. lia. Qed.

(** Declared supplied keys, once ordered, are the declared parts that are
    supplied, in declared order. *)
Lemma sort_by_declared (ks sup : list string) :
  NoDup ks -> NoDup sup -> (forall u, u ∈ sup -> u ∈ ks) ->
  sort_by (indexOf ks) sup = base.filter (fun p => p ∈ sup) ks.
Proof.
  intros Hks Hsup Hsub.
  apply (@StronglySorted_unique string
           (fun a b => indexOf ks a < indexOf ks b) (indexOf_lt_antisymm ks)).
  - apply sorted_strict; [exact Hks | | | apply sort_by_sorted].
    + rewrite sort_by_Permutation. exact Hsup.
    + intros x Hx. rewrite sort_by_Permutation in Hx. apply Hsub, Hx.
  - apply StronglySorted_filter.
    apply (declared_strictly_sorted [] ks). exact Hks.
  - rewrite sort_by_Permutation. apply NoDup_Permutation.
    + exact Hsup.
    + apply NoDup_filter, Hks.
    + intros x. rewrite list_elem_of_filter. split; [|intros [? _]; assumption].
      intros Hx. split; [exact Hx | apply Hsub, Hx].
Qed.

Lemma walkSchema_lockstep (k o pk po : list string) :
  length po = length pk ->
  walkSchema (pk ++ k) (po ++ o) (seq (length pk) (length k)) = lockstep o k.
Proof.
  revert o pk po. induction k as [|p k IH]; intros o pk po Hlen; [reflexivity|].
  simpl. rewrite length_app.
  destruct o as [|x o].
  - simpl. replace (length po + 0 =? length pk)%nat with true; [reflexivity|].
    symmetry. apply Nat.eqb_eq. lia.
  - replace (length po + length (x :: o) =? length pk)%nat with false
      by (symmetry; apply Nat.eqb_neq; simpl; lia).
    rewrite (list_lookup_middle po o x) by (symmetry; exact Hlen).
    rewrite (list_lookup_middle pk k p) by reflexivity.
    destruct (decide (Some x = Some p)) as [Heq|Hne];
      destruct (decide (x = p)) as [->|Hne']; try congruence.
    + specialize (IH o (pk ++ [p]) (po ++ [p])).
      rewrite <- !app_assoc, !length_app in IH. simpl in IH.
      replace (length pk + 1)%nat with (S (length pk)) in IH by lia.
      apply IH. lia.
    + reflexivity.
Qed.

(** What the traversal answers on the supplied declared parts. *)
Lemma lockstep_filter (P : string -> Prop) `{forall x, Decision (P x)}
    (k : list string) :
  NoDup k ->
  (lockstep (base.filter P k) k = Return tt <-> exists j, base.filter P k = take j k) /\
  (forall p, lockstep (base.filter P k) k = Throw (KEY_NOT_INCLUDED_IN_SK p) <->
     exists pre post, k = (pre ++ p :: post) /\ Forall P pre /\ ~ P p /\
                      Exists P post).
Proof.
  induction k as [|q k IH]; intros Hnd.
  - split.
    + split; [exists 0%nat; reflexivity | reflexivity].
    + intros p. split; [discriminate|].
      intros (pre & post & Hk & _). destruct pre; discriminate.
  - apply NoDup_cons in Hnd as [Hq Hnd]. destruct (IH Hnd) as [IHok IHerr].
    rewrite filter_cons. destruct (decide (P q)) as [HPq|HPq].
    + simpl. rewrite decide_True by reflexivity. split.
      * rewrite IHok. split.
        -- intros [j Hj]. exists (S j). simpl. congruence.
        -- intros [[|j] Hj]; [discriminate|]. exists j. simpl in Hj. congruence.
      * intros p. rewrite IHerr. split.
        -- intros (pre & post & -> & Hpre & Hp & Hpost).
           exists (q :: pre), post. repeat split; try assumption.
           constructor; assumption.
        -- intros (pre & post & Hk & Hpre & Hp & Hpost).
           destruct pre as [|q' pre]; simpl in Hk.
           ++ injection Hk as -> _. contradiction.
           ++ injection Hk as -> ->. apply Forall_cons in Hpre as [_ Hpre].
              exists pre, post. repeat split; assumption.
    + destruct (base.filter P k) as [|x o] eqn:Hf.
      * simpl. split.
        -- split; [intros _; exists 0%nat; reflexivity | reflexivity].
        -- intros p. split; [discriminate|].
           intros (pre & post & Hk & Hpre & Hp & Hpost). exfalso.
           destruct pre as [|q' pre]; simpl in Hk.
           ++ injection Hk as -> ->. apply Exists_exists in Hpost as (z & Hz & HPz).
              assert (Hin : z ∈ base.filter P post)
                by (apply list_elem_of_filter; split; assumption).
              rewrite Hf in Hin. apply not_elem_of_nil in Hin. exact Hin.
           ++ injection Hk as -> _. apply Forall_cons in Hpre as [HP _].
              contradiction.
      * assert (Hx : x ∈ k /\ P x).
        { assert (Hin : x ∈ base.filter P k) by (rewrite Hf; left).
          apply list_elem_of_filter in Hin as [? ?]. split; assumption. }
        destruct Hx as [Hxk HPx].
        assert (Hxq : x <> q) by (intros ->; contradiction).
        simpl. rewrite decide_False by exact Hxq. split.
        -- split; [discriminate|]. intros [[|j] Hj]; [discriminate|].
           simpl in Hj. congruence.
        -- intros p. split.
           ++ intros [= <-]. exists [], k. repeat split; try assumption.
              ** constructor.
              ** apply Exists_exists. exists x. split; assumption.
           ++ intros (pre & post & Hk & Hpre & Hp & Hpost).
              destruct pre as [|q' pre]; simpl in Hk.
              ** injection Hk as -> _. reflexivity.
              ** injection Hk as -> _. apply Forall_cons in Hpre as [HP _].
                 contradiction.
Qed.

Lemma indexOf_head (p : string) (l : list string) (f : string) :
  indexOf (p :: l) f = 0 <-> f = p.
Proof.
  simpl. destruct (String.eqb_spec p f) as [->|Hne].
  - split; reflexivity.
  - destruct (indexOf_spec l f) as [Hge _].
    destruct (Z.ltb_spec (indexOf l f) 0); split; intros; try lia; congruence.
Qed.

(** The first check: when a supplied field of least declared index is not
    the first declared part, validation throws FIRST_KEY_NOT_INCLUDED_IN_SK. *)
Lemma first_key_rejected (ks sup : list string) :
  sup <> [] ->
  (exists f, first_supplied ks sup f /\ ks !! 0%nat <> Some f) ->
  assertPartialOrderSKIsCorrect ks sup = Throw FIRST_KEY_NOT_INCLUDED_IN_SK.
Proof.
  intros Hne (f & [Hf Hleast] & Hnot).
  unfold assertPartialOrderSKIsCorrect.
  apply length_nonzero_iff in Hne as Hlen. rewrite Hlen.
  destruct (sort_by_nonempty (indexOf ks) sup Hne) as (h & Hh & Hhin).
  rewrite Hh. rewrite decide_False; [reflexivity|].
  intros Heq. symmetry in Heq.
  destruct ks as [|p ks']; [discriminate|]. injection Heq as ->.
  pose proof (sort_by_head_least (indexOf (h :: ks')) sup h f Hh Hf) as H1.
  specialize (Hleast h Hhin).
  assert (H0 : indexOf (h :: ks') h = 0) by (apply indexOf_head; reflexivity).
  assert (Hf0 : indexOf (h :: ks') f = 0) by lia.
  apply indexOf_head in Hf0. subst f. apply Hnot. reflexivity.
Qed.

(** An undeclared supplied field is a field of least declared index. *)
Lemma undeclared_is_first (ks sup : list string) (u : string) :
  u ∈ sup -> u ∉ ks ->
  exists f, first_supplied ks sup f /\ ks !! 0%nat <> Some f.
Proof.
  intros Hu Hnot. exists u. split.
  - split; [exact Hu|]. intros g _.
    destruct (indexOf_spec ks u) as [_ Hiff], (indexOf_spec ks g) as [Hge _].
    apply Hiff in Hnot. lia.
  - intros H0. apply Hnot. eapply list_elem_of_lookup_2. exact H0.
Qed.

(** On declared supplied keys, validation is the first check followed by the
    simultaneous traversal. *)
Lemma assert_declared (p1 : string) (ks' sup : list string) :
  NoDup (p1 :: ks') -> NoDup sup -> sup <> [] ->
  (forall u, u ∈ sup -> u ∈ p1 :: ks') ->
  assertPartialOrderSKIsCorrect (p1 :: ks') sup
  = if decide (p1 ∈ sup)
    then lockstep (base.filter (fun p => p ∈ sup) ks') ks'
    else Throw FIRST_KEY_NOT_INCLUDED_IN_SK.
Proof.
  intros Hks Hsup Hne Hsub. unfold assertPartialOrderSKIsCorrect.
  apply length_nonzero_iff in Hne as Hlen. rewrite Hlen.
  rewrite (sort_by_declared _ _ Hks Hsup Hsub), filter_cons.
  destruct (decide (p1 ∈ sup)) as [Hin|Hout].
  - simpl. rewrite decide_True by reflexivity. rewrite Nat.sub_0_r.
    apply (walkSchema_lockstep ks' _ [p1] [p1]). reflexivity.
  - rewrite decide_False; [reflexivity|]. simpl. intros H0.
    apply NoDup_cons in Hks as [Hp1 _]. apply Hp1.
    assert (Hin : p1 ∈ base.filter (fun p => p ∈ sup) ks')
      by (eapply list_elem_of_lookup_2; exact H0).
    apply list_elem_of_filter in Hin as [_ Hin]. exact Hin.
Qed.

Lemma supplied_Permutation_filter (ks sup : list string) :
  NoDup ks -> NoDup sup -> (forall u, u ∈ sup -> u ∈ ks) ->
  sup ≡ₚ base.filter (fun p => p ∈ sup) ks.
Proof.
  intros Hks Hsup Hsub.
  rewrite <- (sort_by_declared ks sup Hks Hsup Hsub).
  symmetry. apply sort_by_Permutation.
Qed.

Lemma sort_by_prefix (ks sup : list string) (j : nat) :
  NoDup ks -> sup ≡ₚ take j ks -> sort_by (indexOf ks) sup = take j ks.
Proof.
  intros Hks Hperm.
  assert (Htake : NoDup (take j ks)).
  { rewrite <- (take_drop j ks) in Hks. apply NoDup_app in Hks as [? _].
    assumption. }
  apply (@StronglySorted_unique string
           (fun a b => indexOf ks a < indexOf ks b) (indexOf_lt_antisymm ks)).
  - apply sorted_strict; [exact Hks | | | apply sort_by_sorted].
    + rewrite sort_by_Permutation, Hperm. exact Htake.
    + intros x Hx. rewrite sort_by_Permutation, Hperm in Hx.
      apply elem_of_take in Hx as (i & Hi & _).
      eapply list_elem_of_lookup_2. exact Hi.
  - apply (StronglySorted_app_1_l _ _ (drop j ks)). rewrite take_drop.
    apply (declared_strictly_sorted [] ks). exact Hks.
  - rewrite sort_by_Permutation. exact Hperm.
Qed.

Lemma lockstep_take (k : list string) (n : nat) :
  lockstep (take n k) k = Return tt.
Proof.
  revert n. induction k as [|p k IH]; intros [|n]; simpl; try reflexivity.
  rewrite decide_True by reflexivity. apply IH.
Qed.

(** Validation accepts every non-empty prefix of the declared parts, in
    whatever order its fields are supplied. *)
Lemma assert_prefix_ok (ks sup : list string) (j : nat) :
  NoDup ks -> (0 < j <= length ks)%nat -> sup ≡ₚ take j ks ->
  assertPartialOrderSKIsCorrect ks sup = Return tt.
Proof.
  intros Hks Hj Hperm. unfold assertPartialOrderSKIsCorrect.
  rewrite (sort_by_prefix ks sup j Hks Hperm).
  destruct ks as [|p1 ks']; [simpl in Hj; lia|].
  destruct j as [|j]; [lia|].
  replace (length sup =? 0)%nat with false.
  - simpl. rewrite decide_True by reflexivity. rewrite Nat.sub_0_r.
    etransitivity; [|apply (lockstep_take ks' j)].
    apply (walkSchema_lockstep ks' (take j ks') [p1] [p1]). reflexivity.
  - symmetry. apply Nat.eqb_neq. apply Permutation_length in Hperm.
    rewrite Hperm. simpl. lia.
Qed.

(** C5. For declared sort parts without repetition and a supplied set of
    field names: validation succeeds exactly when the supplied fields are a
    non-empty prefix of the declared parts; it throws SK_EMPTY when nothing
    is supplied; FIRST_KEY_NOT_INCLUDED_IN_SK when the first supplied field
    by declared index is not the first declared part; and otherwise
    KEY_NOT_INCLUDED_IN_SK naming the first declared part that is missing
    while a later one is supplied. *)
Theorem assertPartialOrderSKIsCorrect_spec (ks sup : list string) :
  NoDup ks -> NoDup sup ->
  (assertPartialOrderSKIsCorrect ks sup = Return tt <->
     exists j, (0 < j <= length ks)%nat /\ sup ≡ₚ take j ks) /\
  (sup = [] -> assertPartialOrderSKIsCorrect ks sup = Throw SK_EMPTY) /\
  (sup <> [] ->
   (exists f, first_supplied ks sup f /\ ks !! 0%nat <> Some f) ->
   assertPartialOrderSKIsCorrect ks sup = Throw FIRST_KEY_NOT_INCLUDED_IN_SK) /\
  (forall pre p post,
     ks = pre ++ p :: post -> pre <> [] ->
     (forall u, u ∈ sup -> u ∈ ks) ->
     (forall q, q ∈ pre -> q ∈ sup) -> p ∉ sup ->
     (exists q, q ∈ post /\ q ∈ sup) ->
     assertPartialOrderSKIsCorrect ks sup = Throw (KEY_NOT_INCLUDED_IN_SK p)).
Proof.
  intros Hks Hsup. split; [|split; [|split]].
  - split; [|intros (j & Hj & Hperm); eapply assert_prefix_ok; eassumption].
    intros Hok.
    destruct sup as [|s0 sup0] eqn:Esup; [discriminate|]. rewrite <- Esup in *.
    assert (Hne : sup <> []) by (rewrite Esup; discriminate).
    destruct (decide (Forall (fun u => u ∈ ks) sup)) as [Hall|Hnall].
    + rewrite Forall_forall in Hall.
      destruct ks as [|p1 ks'].
      { exfalso. specialize (Hall s0). rewrite Esup in Hall.
        eapply not_elem_of_nil. apply Hall. left. }
      rewrite (assert_declared p1 ks' sup Hks Hsup Hne Hall) in Hok.
      destruct (decide (p1 ∈ sup)) as [Hp1|]; [|discriminate].
      apply NoDup_cons in Hks as Hks'. destruct Hks' as [_ Hks'].
      apply (lockstep_filter (fun p => p ∈ sup) ks' Hks') in Hok as [j' Hj'].
      exists (S (j' `min` length ks')). split; [simpl; lia|].
      rewrite (supplied_Permutation_filter _ _ Hks Hsup Hall).
      rewrite filter_cons, decide_True by exact Hp1. simpl.
      rewrite Hj'. rewrite <- take_take, firstn_all. reflexivity.
    + exfalso. apply not_Forall_Exists in Hnall; [|intros x; apply _].
      apply Exists_exists in Hnall as (u & Hu & Hnot).
      rewrite (first_key_rejected ks sup Hne) in Hok; [discriminate|].
      eapply undeclared_is_first; eassumption.
  - intros ->. reflexivity.
  - apply first_key_rejected.
  - intros pre p post Hk Hpre Hsub Hin Hp (q & Hq & Hqs).
    destruct pre as [|p1 pre']; [congruence|]. simpl in Hk. subst ks.
    assert (Hne : sup <> []) by (intros ->; eapply not_elem_of_nil; exact Hqs).
    rewrite (assert_declared p1 _ sup Hks Hsup Hne Hsub).
    rewrite decide_True by (apply Hin; left).
    apply NoDup_cons in Hks as [_ Hks'].
    apply (lockstep_filter (fun p => p ∈ sup) _ Hks').
    exists pre', post. repeat split; try assumption.
    + apply Forall_forall. intros x Hx. apply Hin. right. exact Hx.
    + apply Exists_exists. exists q. split; assumption.
Qed.

Lemma assertPartialOrderSKIsCorrect_spec_witness :
  assertPartialOrderSKIsCorrect ["A"; "B"; "C"; "D"; "E"] ["C"; "A"]
  = Throw (KEY_NOT_INCLUDED_IN_SK "B") /\
  assertPartialOrderSKIsCorrect ["A"; "B"; "C"; "D"; "E"] ["B"; "A"]
  = Return tt.
Proof.
  assert (Hks : NoDup ["A"; "B"; "C"; "D"; "E"]) by by_decide.
  split.
  - assert (Hsup : NoDup ["C"; "A"]) by by_decide.
    destruct (assertPartialOrderSKIsCorrect_spec _ _ Hks Hsup)
      as (_ & _ & _ & Hkey).
    apply (Hkey ["A"] "B" ["C"; "D"; "E"]).
    + reflexivity.
    + discriminate.
    + apply (proj1 (Forall_forall (fun u => u ∈ ["A"; "B"; "C"; "D"; "E"]) _)).
      by_decide.
    + apply (proj1 (Forall_forall (fun q => q ∈ ["C"; "A"]) _)). by_decide.
    + by_decide.
    + exists "C". split; by_decide.
  - assert (Hsup : NoDup ["B"; "A"]) by by_decide.
    destruct (assertPartialOrderSKIsCorrect_spec _ _ Hks Hsup) as (Hok & _).
    apply Hok. exists 2%nat. split; [simpl; lia|]. simpl. apply Permutation_swap.
Defined.

(** ** Unknown fields in a partial sort key *)

(** C10. When the supplied partial sort key has a field that is not a
    declared sort part, validation throws FIRST_KEY_NOT_INCLUDED_IN_SK,
    whatever else is supplied, and so do [formatPartialOrderedSK] and the
    range builders that call it; the error carries no field name. *)
Theorem unknown_field_rejected (c : Chain) (skd : KeyDef)
    (sk sk2 : list (string * jsval)) (operator u : string) :
  getSK (schemaFormatter c) = Some skd ->
  u ∈ map fst sk -> u ∉ keys skd ->
  assertPartialOrderSKIsCorrect (keys skd) (map fst sk)
  = Throw FIRST_KEY_NOT_INCLUDED_IN_SK /\
  formatPartialOrderedSK (schemaFormatter c) sk
  = Throw FIRST_KEY_NOT_INCLUDED_IN_SK /\
  (compare c sk operator).2 = Throw FIRST_KEY_NOT_INCLUDED_IN_SK /\
  (whereSKBeginsWith c sk).2 = Throw FIRST_KEY_NOT_INCLUDED_IN_SK /\
  (whereSKBetween c sk sk2).2 = Throw FIRST_KEY_NOT_INCLUDED_IN_SK.
Proof.
  intros Hsk Hu Hnot.
  assert (Hne : map fst sk <> []).
  { intros Hnil. rewrite Hnil in Hu. eapply not_elem_of_nil. exact Hu. }
  assert (Ha : assertPartialOrderSKIsCorrect (keys skd) (map fst sk)
               = Throw FIRST_KEY_NOT_INCLUDED_IN_SK).
  { apply first_key_rejected; [exact Hne|].
    eapply undeclared_is_first; eassumption. }
  assert (Hf : formatPartialOrderedSK (schemaFormatter c) sk
               = Throw FIRST_KEY_NOT_INCLUDED_IN_SK).
  { unfold formatPartialOrderedSK, skKeysOf. rewrite Hsk, Ha. reflexivity. }
  unfold compare, whereSKBeginsWith, whereSKBetween. rewrite Hsk, Hf.
  repeat split; assumption || reflexivity.
Qed.

Lemma unknown_field_rejected_witness :
  formatPartialOrderedSK partialsFormatter
    [("A", JString "a"); ("B", JString "b"); ("X", JString "x")]
  = Throw FIRST_KEY_NOT_INCLUDED_IN_SK.
Proof.
  destruct (unknown_field_rejected
              (mkChain sampleParams "query" partialsFormatter)
              (mkKeyDef "sk" ["A"; "B"; "C"; "D"; "E"] (Some "#"))
              [("A", JString "a"); ("B", JString "b"); ("X", JString "x")]
              [] "=" "X") as (_ & Hf & _).
  - reflexivity.
  - simpl. by_decide.
  - simpl. by_decide.
  - exact Hf.
Defined.

(** ** Encoding a partial sort key *)

(** The part of C7 that the code satisfies: a partial sort key whose fields
    are enumerated in declared order is encoded as the prefix it is. *)
Lemma formatPartialOrderedSK_declared_order (sf : SchemaFormatter)
    (skd : KeyDef) (sk : list (string * jsval)) (j : nat) :
  getSK sf = Some skd -> NoDup (keys skd) ->
  (0 < j <= length (keys skd))%nat ->
  map fst sk = take j (keys skd) ->
  formatPartialOrderedSK sf sk
  = formatKey (list_to_map sk)
      {| name := name skd; keys := take j (keys skd);
         separator := separator skd |}.
Proof.
  intros Hsk Hnd Hj Hkeys. unfold formatPartialOrderedSK, skKeysOf.
  rewrite Hsk, (assert_prefix_ok (keys skd) (map fst sk) j Hnd Hj)
    by (rewrite Hkeys; reflexivity).
  simpl. rewrite Hkeys. reflexivity.
Qed.

(** In general a validated partial sort key is encoded over its own
    enumeration of the fields. *)
Lemma formatPartialOrderedSK_enumeration_order (sf : SchemaFormatter)
    (skd : KeyDef) (sk : list (string * jsval)) :
  getSK sf = Some skd ->
  assertPartialOrderSKIsCorrect (keys skd) (map fst sk) = Return tt ->
  formatPartialOrderedSK sf sk
  = formatKey (list_to_map sk)
      {| name := name skd; keys := map fst sk; separator := separator skd |}.
Proof.
  intros Hsk Hok. unfold formatPartialOrderedSK, skKeysOf.
  rewrite Hsk, Hok. reflexivity.
Qed.

(** C7, at the failing input: the prefix [{ B: 'b', A: 'a' }] of the
    declared parts [A, B, ...] passes validation and is encoded in its own
    enumeration order, as ['b#a'], where the declared order gives ['a#b'],
    the encoding of the same record written [{ A: 'a', B: 'b' }]. *)
Theorem formatPartialOrderedSK_keeps_supplied_order :
  assertPartialOrderSKIsCorrect (skKeysOf partialsFormatter)
    (map fst reversedPrefix) = Return tt /\
  formatPartialOrderedSK partialsFormatter reversedPrefix = Return "b#a" /\
  formatPartialOrderedSK partialsFormatter (rev reversedPrefix) = Return "a#b" /\
  (list_to_map reversedPrefix : gmap string jsval)
  = list_to_map (rev reversedPrefix).
Proof.
  split; [vm_compute; reflexivity|].
  split; [vm_compute; reflexivity|].
  split; [vm_compute; reflexivity|].
  apply map_eq. intros k. simpl.
  destruct (decide (k = "A")) as [->|HA]; [reflexivity|].
  destruct (decide (k = "B")) as [->|HB]; [reflexivity|].
  rewrite !lookup_insert_ne by congruence. reflexivity.
Qed.

(** ** Splitting what was joined *)

Lemma prefix_append (sep rest : string) : String.prefix sep (sep +:+ rest) = true.
Proof.
  induction sep as [|a sep IH]; simpl; [destruct rest; reflexivity|].
  destruct (Ascii.ascii_dec a a); [exact IH | congruence].
Qed.

Lemma prefix_free (sep rest : string) (c : ascii) :
  sep <> "" -> occurs c sep = false -> String.prefix sep (String c rest) = false.
Proof.
  destruct sep as [|a sep]; [congruence|]. intros _ Hocc. simpl in *.
  apply orb_false_iff in Hocc as [Hca _].
  destruct (Ascii.ascii_dec a c) as [->|]; [|reflexivity].
  rewrite Ascii.eqb_refl in Hca. discriminate.
Qed.

Lemma split_go_skip (sep pre rest cur : string) :
  split_go sep (pre +:+ rest) (String.length pre) cur = split_go sep rest 0 cur.
Proof.
  induction pre as [|a pre IH]; simpl; [destruct rest; reflexivity|]. exact IH.
Qed.

Lemma append_assoc (a b c : string) : (a +:+ b) +:+ c = a +:+ (b +:+ c).
Proof.
  induction a as [|x a IH]; [reflexivity|].
  change (String x ((a +:+ b) +:+ c) = String x (a +:+ (b +:+ c))).
  f_equal. exact IH.
Qed.

Lemma append_empty_r (a : string) : a +:+ "" = a.
Proof.
  induction a as [|x a IH]; [reflexivity|].
  change (String x (a +:+ "") = String x a). f_equal. exact IH.
Qed.

Lemma split_go_cons (sep s cur : string) (c : ascii) :
  split_go sep (String c s) 0 cur
  = if String.prefix sep (String c s)
    then cur :: split_go sep s (String.length sep - 1) ""
    else split_go sep s 0 (cur +:+ String c "").
Proof. reflexivity. Qed.

Lemma split_go_last (sep part cur : string) :
  sep <> "" -> free_of sep part = true ->
  split_go sep part 0 cur = [cur +:+ part].
Proof.
  intros Hsep. revert cur. induction part as [|c part IH]; intros cur Hfree.
  - rewrite append_empty_r. reflexivity.
  - simpl in Hfree. apply andb_true_iff in Hfree as [Hc Hfree].
    apply negb_true_iff in Hc.
    rewrite split_go_cons, (prefix_free sep part c Hsep Hc), (IH _ Hfree).
    rewrite append_assoc. reflexivity.
Qed.

Lemma split_go_part (sep part rest cur : string) :
  sep <> "" -> free_of sep part = true ->
  split_go sep (part +:+ sep +:+ rest) 0 cur
  = (cur +:+ part) :: split_go sep rest 0 "".
Proof.
  intros Hsep. revert cur. induction part as [|c part IH]; intros cur Hfree.
  - rewrite append_empty_r.
    destruct sep as [|a sep']; [congruence|].
    change ("" +:+ String a sep' +:+ rest) with (String a (sep' +:+ rest)).
    rewrite split_go_cons.
    change (String a (sep' +:+ rest)) with (String a sep' +:+ rest).
    rewrite prefix_append. f_equal.
    change (String.length (String a sep') - 1)%nat
      with (String.length sep' - 0)%nat.
    rewrite Nat.sub_0_r. apply split_go_skip.
  - simpl in Hfree. apply andb_true_iff in Hfree as [Hc Hfree].
    apply negb_true_iff in Hc.
    change (String c part +:+ sep +:+ rest)
      with (String c (part +:+ sep +:+ rest)).
    rewrite split_go_cons, (prefix_free sep _ c Hsep Hc), (IH _ Hfree).
    rewrite append_assoc. reflexivity.
Qed.

(** Splitting a joined list gives the list back, when the separator is not
    empty and no part uses one of its characters. *)
Lemma split_join (sep : string) (parts : list string) :
  sep <> "" -> parts <> [] -> Forall (fun p => free_of sep p = true) parts ->
  split sep (join sep parts) = parts.
Proof.
  intros Hsep Hne Hall. unfold split.
  induction parts as [|p parts IH]; [congruence|].
  apply Forall_cons in Hall as [Hp Hall].
  destruct parts as [|p' parts].
  - simpl. apply (split_go_last sep p "" Hsep Hp).
  - change (join sep (p :: p' :: parts))
      with (p +:+ sep +:+ join sep (p' :: parts)).
    rewrite (split_go_part sep p _ "" Hsep Hp). simpl. f_equal.
    apply IH; [discriminate | exact Hall].
Qed.

(** ** Round trip of a key side *)

Lemma mapM_mustGet (item : gmap string jsval) (ks : list string) :
  (forall k, k ∈ ks -> exists s, item !! k = Some (JString s)) ->
  mapM (mustGet item) ks = Return (map (stringOf item) ks).
Proof.
  induction ks as [|k ks IH]; intros Hall; [reflexivity|].
  simpl. destruct (Hall k) as [s Hs]; [left|].
  unfold mustGet at 1. unfold stringOf at 1. rewrite Hs. simpl.
  rewrite IH; [reflexivity|]. intros k' Hk'. apply Hall. right. exact Hk'.
Qed.

Lemma assignParts_lookup (f : string -> string) (ks : list string)
    (obj : gmap string jsval) (k : string) :
  assignParts ks (map f ks) obj !! k
  = if decide (k ∈ ks) then Some (JString (f k)) else obj !! k.
Proof.
  revert obj. induction ks as [|a ks IH]; intros obj.
  - destruct (decide (k ∈ [])) as [Hin|]; [|reflexivity].
    apply not_elem_of_nil in Hin. contradiction.
  - simpl. rewrite IH.
    destruct (decide (k ∈ ks)) as [Hin|Hout];
      destruct (decide (k ∈ a :: ks)) as [Hin'|Hout']; try reflexivity.
    + exfalso. apply Hout'. right. exact Hin.
    + apply elem_of_cons in Hin' as [->|]; [|contradiction].
      apply lookup_insert_eq.
    + apply lookup_insert_ne. intros ->. apply Hout'. left.
Qed.

(** Decoding an encoded side gives back the declared parts of the item. *)
Lemma decodeSide_formatKey (def : KeyDef) (item : gmap string jsval) :
  (forall k, k ∈ keys def -> exists s, item !! k = Some (JString s)) ->
  (if truthy_string (separator def)
   then forall k, k ∈ keys def ->
                  free_of (default "" (separator def)) (stringOf item k) = true
   else keys def = [name def]) ->
  exists enc, formatKey item def = Return enc /\
    forall k, decodeSide def enc !! k
              = if decide (k ∈ keys def) then item !! k else None.
Proof.
  intros Hpop Hside. unfold formatKey, decodeSide.
  rewrite (mapM_mustGet item (keys def) Hpop). simpl.
  eexists. split; [reflexivity|]. intros k.
  assert (Hitem : k ∈ keys def -> item !! k = Some (JString (stringOf item k))).
  { intros Hk. destruct (Hpop k Hk) as [s Hs]. unfold stringOf.
    rewrite Hs. reflexivity. }
  destruct (truthy_string (separator def)) eqn:Htruthy.
  - apply truthy_string_spec in Htruthy as (sep & Hsep & Hne).
    rewrite Hsep in *. simpl in Hside. simpl.
    destruct (decide (k ∈ keys def)) as [Hk|Hk].
    + rewrite split_join; [| exact Hne | |].
      * rewrite assignParts_lookup, decide_True by exact Hk.
        symmetry. apply Hitem. exact Hk.
      * intros Hnil. apply fmap_nil_inv in Hnil. rewrite Hnil in Hk.
        apply not_elem_of_nil in Hk. exact Hk.
      * apply Forall_forall. intros p Hp.
        apply list_elem_of_fmap in Hp as (k' & -> & Hk'). apply Hside, Hk'.
    + destruct (keys def) as [|k0 ks] eqn:Hkeys; [apply lookup_empty|].
      rewrite split_join; [| exact Hne | discriminate |].
      * rewrite assignParts_lookup, decide_False by exact Hk. apply lookup_empty.
      * apply Forall_forall. intros p Hp.
        apply list_elem_of_fmap in Hp as (k' & -> & Hk'). apply Hside, Hk'.
  - rewrite Hside in *.
    destruct (decide (k ∈ [name def])) as [Hk|Hk].
    + apply list_elem_of_singleton in Hk as ->. simpl.
      rewrite lookup_singleton_eq. symmetry. apply Hitem. left.
    + simpl. apply lookup_singleton_ne. intros Heq. apply Hk. rewrite <- Heq. left.
Qed.




(** The same round trip for a whole cursor, through the two functions that
    [pivot] and [run] call: a cursor made of the parts of both sides is
    encoded into the physical key attributes and decoded back. *)
Lemma cursor_roundtrip (sf : SchemaFormatter) (cursor : gmap string jsval) :
  (forall skd, getSK sf = Some skd -> name skd <> name (getPK sf)) ->
  side_decodable (getPK sf) cursor ->
  (forall skd, getSK sf = Some skd -> side_decodable skd cursor) ->
  (forall k, is_Some (cursor !! k) ->
     k ∈ keys (getPK sf) \/ exists skd, getSK sf = Some skd /\ k ∈ keys skd) ->
  exists rec, formatItemKeysDtoAsRecord sf cursor = Return rec /\
              formatRecordAsItemDto sf rec = Return cursor.
Proof.
  intros Hnames [Hpk1 Hpk2] Hsk Hdom.
  destruct (decodeSide_formatKey (getPK sf) cursor Hpk1 Hpk2)
    as (pkv & Hpkv & Hpkm).
  unfold formatItemKeysDtoAsRecord, formatRecordAsItemDto. rewrite Hpkv. simpl.
  destruct (getSK sf) as [skd|] eqn:Hsf.
  - destruct (Hsk skd eq_refl) as [Hsk1 Hsk2].
    destruct (decodeSide_formatKey skd cursor Hsk1 Hsk2) as (skv & Hskv & Hskm).
    specialize (Hnames skd eq_refl).
    rewrite Hskv. simpl. eexists. split; [reflexivity|].
    unfold attrToString.
    rewrite lookup_insert_ne, lookup_singleton_eq by exact Hnames. simpl.
    rewrite lookup_insert_eq. simpl. f_equal. apply map_eq. intros k.
    rewrite lookup_union, lookup_fmap, lookup_union, Hskm, Hpkm.
    rewrite lookup_delete, lookup_delete, lookup_insert, lookup_singleton.
    assert (Hdata : (JString <$>
              (if decide (name skd = k) then None
               else if decide (name (getPK sf) = k) then None
               else if decide (name skd = k) then Some skv
               else if decide (name (getPK sf) = k) then Some pkv else None))
              = @None jsval).
    { repeat case_decide; reflexivity. }
    rewrite Hdata. clear Hdata.
    destruct (decide (k ∈ keys skd)) as [Hks|Hks];
      destruct (decide (k ∈ keys (getPK sf))) as [Hkp|Hkp];
      destruct (cursor !! k) as [v|] eqn:Hk; try reflexivity.
    exfalso. destruct (Hdom k) as [Hin|(skd' & [= <-] & Hin)];
      [rewrite Hk; eexists; reflexivity | contradiction | contradiction].
  - eexists. split; [reflexivity|].
    unfold attrToString. rewrite lookup_singleton_eq. simpl. f_equal.
    apply map_eq. intros k.
    rewrite lookup_union, lookup_fmap, lookup_union, Hpkm.
    rewrite lookup_delete, lookup_singleton, lookup_empty.
    assert (Hdata : (JString <$>
              (if decide (name (getPK sf) = k) then None
               else if decide (name (getPK sf) = k) then Some pkv else None))
              = @None jsval).
    { repeat case_decide; reflexivity. }
    rewrite Hdata. clear Hdata.
    destruct (decide (k ∈ keys (getPK sf))) as [Hkp|Hkp];
      destruct (cursor !! k) as [v|] eqn:Hk; try reflexivity.
    exfalso. destruct (Hdom k) as [Hin|(skd' & [=] & _)];
      [rewrite Hk; eexists; reflexivity | contradiction].
Qed.

(** ** Agreement with the repository's tests *)

Example split_example :
  split "#" "tenant#user" = ["tenant"; "user"] /\
  split "#" "" = [""] /\
  split "ab" "xabyab" = ["x"; "y"; ""] /\
  split "aa" "aaax" = [""; "ax"].
Proof. repeat split; reflexivity. Qed.

(** [assertPartialOrderSKIsCorrect] on the parts [A] to [E]. *)
Example assertPartialOrderSKIsCorrect_tests :
  let ks := ["A"; "B"; "C"; "D"; "E"] in
  assertPartialOrderSKIsCorrect ks [] = Throw SK_EMPTY /\
  assertPartialOrderSKIsCorrect ks ["B"] = Throw FIRST_KEY_NOT_INCLUDED_IN_SK /\
  assertPartialOrderSKIsCorrect ks ["B"; "C"; "D"]
  = Throw FIRST_KEY_NOT_INCLUDED_IN_SK /\
  assertPartialOrderSKIsCorrect ks ["A"] = Return tt /\
  assertPartialOrderSKIsCorrect ks ["A"; "B"; "C"; "D"; "E"] = Return tt /\
  assertPartialOrderSKIsCorrect ks ["A"; "C"] = Throw (KEY_NOT_INCLUDED_IN_SK "B") /\
  assertPartialOrderSKIsCorrect ks ["A"; "D"] = Throw (KEY_NOT_INCLUDED_IN_SK "B") /\
  assertPartialOrderSKIsCorrect ks ["A"; "B"; "D"]
  = Throw (KEY_NOT_INCLUDED_IN_SK "C") /\
  assertPartialOrderSKIsCorrect ks ["A"; "B"; "C"; "E"]
  = Throw (KEY_NOT_INCLUDED_IN_SK "D") /\
  assertPartialOrderSKIsCorrect [] ["any"] = Throw FIRST_KEY_NOT_INCLUDED_IN_SK.
Proof. repeat split; vm_compute; reflexivity. Qed.

(** [formatPartialOrderedSK] on the same schema. *)
Example formatPartialOrderedSK_tests :
  formatPartialOrderedSK partialsFormatter [] = Throw SK_EMPTY /\
  formatPartialOrderedSK partialsFormatter [("A", JString "a")] = Return "a" /\
  formatPartialOrderedSK partialsFormatter
    [("A", JString "a"); ("B", JString "b"); ("C", JString "c")]
  = Return "a#b#c" /\
  formatPartialOrderedSK partialsFormatter
    [("A", JString "a"); ("B", JString "b"); ("D", JString "d")]
  = Throw (KEY_NOT_INCLUDED_IN_SK "C").
Proof. repeat split; vm_compute; reflexivity. Qed.

(** [formatItemKeysDtoAsRecord] and [formatRecordAsItemDto] on composite
    sides, and [formatRecordAsItemDto] on sides without separator. *)
Example formatter_tests :
  formatItemKeysDtoAsRecord formattingFormatter
    (<["tenantId" := JString "tenant"]> (<["userId" := JString "user"]>
       (<["sort" := JString "MSG"]> {[ "timestamp" := JString "1700000000000" ]})))
  = Return (<["pk" := "tenant#user"]> {[ "sk" := "MSG|1700000000000" ]}) /\
  formatRecordAsItemDto formattingFormatter
    (<["pk" := "tenant#user"]> (<["sk" := "purchase|1234"]>
       {[ "status" := "shipped" ]}))
  = Return (<["tenantId" := JString "tenant"]> (<["userId" := JString "user"]>
       (<["sort" := JString "purchase"]> (<["timestamp" := JString "1234"]>
          {[ "status" := JString "shipped" ]})))) /\
  formatRecordAsItemDto sampleFormatter
    (<["pk" := "tenant-123"]> (<["sk" := "latest"]> {[ "status" := "archived" ]}))
  = Return (<["pk" := JString "tenant-123"]> (<["sk" := JString "latest"]>
       {[ "status" := JString "archived" ]})).
Proof. repeat split; vm_compute; reflexivity. Qed.

(** [formatPaginationResult] on three items and a limit of three, and on two
    items and a limit of five. *)
Example formatPaginationResult_tests :
  formatPaginationResult [idItem "1"; idItem "2"; idItem "3"] 3 forward
    (Some (idItem "3")) None
  = {| items := [idItem "1"; idItem "2"];
       lastEvaluatedKey := Some (idItem "2");
       firstEvaluatedKey := Some (idItem "1");
       count := 2; hasNext := true; hasPrevious := false;
       direction := forward |} /\
  formatPaginationResult [idItem "1"; idItem "2"] 5 forward
    (Some (idItem "2")) None
  = {| items := [idItem "1"; idItem "2"];
       lastEvaluatedKey := Some (idItem "2");
       firstEvaluatedKey := Some (idItem "1");
       count := 2; hasNext := true; hasPrevious := false;
       direction := forward |} /\
  formatPaginationResult [idItem "1"] 1 forward (Some (idItem "1")) None
  = {| items := []; lastEvaluatedKey := None; firstEvaluatedKey := None;
       count := 0; hasNext := true; hasPrevious := false;
       direction := forward |}.
Proof. repeat split; reflexivity. Qed.

(** [filterRaw] and [filter] on the request of the chain tests. *)
Example filter_tests :
  FilterExpression (params (filterRaw sampleChain statusFilter))
  = Some "attribute_exists(#status)" /\
  ExpressionAttributeNames (params (filterRaw sampleChain statusFilter))
  = Some (<["#pk" := "pk"]> {[ "#status" := "status" ]}) /\
  FilterExpression
    (params (filterRaw (filterRaw sampleChain statusFilter) statusFilter))
  = Some "attribute_exists(#status) AND (attribute_exists(#status))" /\
  FilterExpression
    (params (filter sampleChain
               [("status", Some (CondValue (FString "active")));
                ("age", Some (CondOperators [(">", Some (FNumber 21))]))]))
  = Some "#status_0 = :val_status_0 AND #age_1 > :val_age_1_" /\
  FilterExpression
    (params (filter sampleChain
               [("age", Some (CondOperators [(">=", None)]))]))
  = None.
Proof. repeat split; vm_compute; reflexivity. Qed.

(** * Further properties *)

(** ** Outcome of the key encoder *)

Lemma mapM_mustGet_missing (item : gmap string jsval) (pre post : list string)
    (k : string) :
  (forall q, q ∈ pre -> exists s, item !! q = Some (JString s)) ->
  item !! k = None \/ item !! k = Some JUndefined ->
  mapM (mustGet item) (pre ++ k :: post) = Throw (KEY_PART_REQUIRED k).
Proof.
  intros Hpre Hk. induction pre as [|q pre IH]; simpl.
  - unfold mustGet. destruct Hk as [-> | ->]; reflexivity.
  - destruct (Hpre q) as [s Hs]; [left|].
    unfold mustGet at 1. rewrite Hs. simpl. rewrite IH; [reflexivity|].
    intros q' Hq'. apply Hpre. right. exact Hq'.
Qed.

(** X1. Encoding a side succeeds when every declared part holds a string,
    and gives the values joined in declared order with the separator (['#']
    when none is declared); it throws KEY_PART_REQUIRED naming the first
    declared part that holds no string, when that part is [undefined], or
    is missing and not named like a member that every object inherits. *)
Theorem formatKey_outcome (item : gmap string jsval) (def : KeyDef) :
  ((forall k, k ∈ keys def -> exists s, item !! k = Some (JString s)) ->
   formatKey item def
   = Return (join (default "#" (separator def))
               (map (stringOf item) (keys def)))) /\
  (forall pre k post,
     keys def = pre ++ k :: post ->
     (forall q, q ∈ pre -> exists s, item !! q = Some (JString s)) ->
     (item !! k = None /\ k ∉ objectPrototypeNames) \/
     item !! k = Some JUndefined ->
     formatKey item def = Throw (KEY_PART_REQUIRED k)).
Proof.
  split.
  - intros Hall. unfold formatKey. rewrite (mapM_mustGet item _ Hall).
    reflexivity.
  - intros pre k post Hkeys Hpre Hk. unfold formatKey. rewrite Hkeys.
    assert (Hk' : item !! k = None \/ item !! k = Some JUndefined)
      by (destruct Hk as [[Hk _]|Hk]; [left|right]; exact Hk).
    rewrite (mapM_mustGet_missing item pre post k Hpre Hk'). reflexivity.
Qed.

Lemma formatKey_outcome_witness :
  formatKey {[ "tenantId" := JString "t1" ]} compositeSide
  = Throw (KEY_PART_REQUIRED "userId").
Proof.
  destruct (formatKey_outcome {[ "tenantId" := JString "t1" ]} compositeSide)
    as [_ Hmiss].
  apply (Hmiss ["tenantId"] "userId" []).
  - reflexivity.
  - intros q Hq. apply list_elem_of_singleton in Hq as ->.
    exists "t1". reflexivity.
  - left. split; [reflexivity|by_decide].
Defined.

(** ** Joining what was split *)

Lemma prefix_true (sep s : string) :
  String.prefix sep s = true -> exists rest, s = sep +:+ rest.
Proof.
  revert s. induction sep as [|a sep IH]; intros s Hp.
  - exists s. reflexivity.
  - destruct s as [|b s]; [discriminate|]. simpl in Hp.
    destruct (Ascii.ascii_dec a b) as [->|]; [|discriminate].
    destruct (IH s Hp) as [rest ->]. exists rest. reflexivity.
Qed.

Lemma split_go_nonempty (sep s cur : string) (k : nat) :
  split_go sep s k cur <> [].
Proof.
  revert k cur. induction s as [|c s IH]; intros k cur; [discriminate|].
  destruct k as [|k]; [|apply IH].
  rewrite split_go_cons.
  destruct (String.prefix sep (String c s)); [discriminate | apply IH].
Qed.

Lemma length_append (a b : string) :
  String.length (a +:+ b) = (String.length a + String.length b)%nat.
Proof.
  induction a as [|x a IH]; [reflexivity|].
  change (S (String.length (a +:+ b))
          = S (String.length a + String.length b)). f_equal. exact IH.
Qed.

Lemma join_cons (sep p : string) (rest : list string) :
  rest <> [] -> join sep (p :: rest) = p +:+ sep +:+ join sep rest.
Proof. destruct rest; [congruence | reflexivity]. Qed.

Lemma join_split_go (sep : string) (n : nat) (s cur : string) :
  sep <> "" -> (String.length s <= n)%nat ->
  join sep (split_go sep s 0 cur) = cur +:+ s.
Proof.
  intros Hsep. revert s cur. induction n as [|n IH]; intros s cur Hlen.
  - destruct s; [|simpl in Hlen; lia]. simpl. symmetry. apply append_empty_r.
  - destruct s as [|c s]; [simpl; symmetry; apply append_empty_r|].
    rewrite split_go_cons.
    destruct (String.prefix sep (String c s)) eqn:Hp.
    + apply prefix_true in Hp as [rest Hrest].
      destruct sep as [|a sep']; [congruence|].
      change (String a sep' +:+ rest) with (String a (sep' +:+ rest)) in Hrest.
      injection Hrest as -> ->.
      change (String.length (String a sep') - 1)%nat
        with (String.length sep' - 0)%nat.
      rewrite Nat.sub_0_r, split_go_skip.
      rewrite join_cons by apply split_go_nonempty.
      rewrite IH.
      * reflexivity.
      * simpl in Hlen. rewrite length_append in Hlen. lia.
    + rewrite IH by (simpl in Hlen; lia). apply append_assoc.
Qed.

(** Joining the segments of a string with the separator that split it gives
    the string back. *)
Lemma join_split (sep s : string) :
  sep <> "" -> join sep (split sep s) = s.
Proof.
  intros Hsep. unfold split.
  apply (join_split_go sep (String.length s) s "" Hsep). lia.
Qed.

(** ** Decoding, then encoding *)

Lemma assignParts_notin (ks vals : list string) (obj : gmap string jsval)
    (k : string) :
  k ∉ ks -> assignParts ks vals obj !! k = obj !! k.
Proof.
  revert vals obj. induction ks as [|a ks IH]; intros vals obj Hk; [reflexivity|].
  apply not_elem_of_cons in Hk as [Hne Hk]. simpl.
  rewrite IH by exact Hk. apply lookup_insert_ne. congruence.
Qed.

Lemma assignParts_lookup_index (ks vals : list string)
    (obj : gmap string jsval) (i : nat) (k : string) :
  NoDup ks -> ks !! i = Some k ->
  assignParts ks vals obj !! k
  = Some (match vals !! i with Some v => JString v | None => JUndefined end).
Proof.
  revert vals obj i. induction ks as [|a ks IH]; intros vals obj i Hnd Hi;
    [discriminate|].
  apply NoDup_cons in Hnd as [Ha Hnd]. destruct i as [|i]; simpl in Hi.
  - injection Hi as ->. simpl. rewrite assignParts_notin by exact Ha.
    rewrite lookup_insert_eq. destruct vals; reflexivity.
  - simpl. rewrite (IH (tail vals) _ i Hnd Hi).
    destruct vals; reflexivity.
Qed.

(** Encoding what a side with separator decoded: the segments that found a
    part, joined again, or KEY_PART_REQUIRED for the first part without
    segment. *)
Lemma formatKey_decoded (ks segs : list string) (nm : string) (sep : string) :
  NoDup ks ->
  formatKey (assignParts ks segs ∅) (mkKeyDef nm ks (Some sep))
  = match ks !! length segs with
    | Some k => Throw (KEY_PART_REQUIRED k)
    | None => Return (join sep (take (length ks) segs))
    end.
Proof.
  intros Hnd. destruct (ks !! length segs) as [k|] eqn:Hk.
  - apply (proj2 (formatKey_outcome _ (mkKeyDef nm ks (Some sep)))
             (take (length segs) ks) k (drop (S (length segs)) ks)).
    + simpl. symmetry. apply take_drop_middle. exact Hk.
    + intros q Hq. apply elem_of_take in Hq as (i & Hi & Hlt).
      rewrite (assignParts_lookup_index ks segs ∅ i q Hnd Hi).
      destruct (lookup_lt_is_Some_2 segs i Hlt) as [v Hv]. rewrite Hv.
      exists v. reflexivity.
    + right. rewrite (assignParts_lookup_index ks segs ∅ _ k Hnd Hk).
      rewrite lookup_ge_None_2 by lia. reflexivity.
  - apply lookup_ge_None in Hk.
    assert (Hall : forall q, q ∈ ks ->
              exists s, assignParts ks segs ∅ !! q = Some (JString s)).
    { intros q Hq. apply list_elem_of_lookup in Hq as [i Hi].
      rewrite (assignParts_lookup_index ks segs ∅ i q Hnd Hi).
      apply lookup_lt_Some in Hi as Hlt.
      destruct (lookup_lt_is_Some_2 segs i) as [v Hv]; [lia|]. rewrite Hv.
      exists v. reflexivity. }
    rewrite (proj1 (formatKey_outcome _ (mkKeyDef nm ks (Some sep))) Hall).
    simpl. f_equal. f_equal. apply list_eq. intros i.
    rewrite list_lookup_fmap.
    destruct (ks !! i) as [q|] eqn:Hi; simpl.
    + apply lookup_lt_Some in Hi as Hlt. rewrite lookup_take_lt by exact Hlt.
      unfold stringOf. rewrite (assignParts_lookup_index ks segs ∅ i q Hnd Hi).
      destruct (lookup_lt_is_Some_2 segs i) as [v Hv]; [lia|]. rewrite Hv.
      reflexivity.
    + apply lookup_ge_None in Hi. symmetry. apply lookup_take_ge. exact Hi.
Qed.

(** X2. A physical key string read from the store encodes back to itself
    after decoding: on a side with separator and distinct parts, when the
    string has as many segments as the side has parts; on a side without
    separator, when its single part is named like the physical attribute. *)
Theorem formatKey_decodeSide (def : KeyDef) (s : string) :
  (if truthy_string (separator def)
   then NoDup (keys def) /\
        length (split (default "" (separator def)) s) = length (keys def)
   else keys def = [name def]) ->
  formatKey (decodeSide def s) def = Return s.
Proof.
  intros Hside. unfold decodeSide. destruct def as [nm ks sepo]. simpl in *.
  destruct (truthy_string sepo) eqn:Ht.
  - apply truthy_string_spec in Ht as (sep & -> & Hne). simpl in *.
    destruct Hside as [Hnd Hlen].
    rewrite (formatKey_decoded ks _ nm sep Hnd).
    rewrite lookup_ge_None_2 by lia.
    rewrite <- Hlen, firstn_all, join_split by exact Hne. reflexivity.
  - subst ks. unfold formatKey. simpl. unfold mustGet.
    rewrite lookup_singleton_eq. reflexivity.
Qed.

Lemma formatKey_decodeSide_witness :
  formatKey (decodeSide compositeSide "tenant#user") compositeSide
  = Return "tenant#user".
Proof.
  apply formatKey_decodeSide. simpl. split; [by_decide | reflexivity].
Defined.

(** X3. On a side with separator and distinct parts, a physical key with
    too few segments decodes to a record that cannot be encoded again:
    KEY_PART_REQUIRED names the first part left without segment; with too
    many segments, the extra ones are dropped. *)
Theorem formatKey_decodeSide_arity (def : KeyDef) (sep s : string) :
  separator def = Some sep -> sep <> "" -> NoDup (keys def) ->
  (forall k, keys def !! length (split sep s) = Some k ->
     formatKey (decodeSide def s) def = Throw (KEY_PART_REQUIRED k)) /\
  ((length (keys def) <= length (split sep s))%nat ->
     formatKey (decodeSide def s) def
     = Return (join sep (take (length (keys def)) (split sep s)))).
Proof.
  intros Hsep Hne Hnd. destruct def as [nm ks sepo]. simpl in *. subst sepo.
  destruct sep as [|a sep']; [congruence|].
  unfold decodeSide. simpl.
  rewrite (formatKey_decoded ks _ nm _ Hnd). split.
  - intros k Hk. rewrite Hk. reflexivity.
  - intros Hlen. rewrite lookup_ge_None_2 by lia. reflexivity.
Qed.

Lemma formatKey_decodeSide_arity_witness :
  formatKey (decodeSide compositeSide "tenant") compositeSide
  = Throw (KEY_PART_REQUIRED "userId") /\
  formatKey (decodeSide compositeSide "a#b#c") compositeSide = Return "a#b".
Proof.
  destruct (formatKey_decodeSide_arity compositeSide "#" "tenant")
    as [Hshort _]; [reflexivity | discriminate | by_decide |].
  destruct (formatKey_decodeSide_arity compositeSide "#" "a#b#c")
    as [_ Hlong]; [reflexivity | discriminate | by_decide |].
  split.
  - apply Hshort. reflexivity.
  - apply Hlong. simpl. lia.
Defined.

(** ** Decoding a record of the store *)



(** ** Extracting the key fields of an item *)

Lemma pickKeys_notin (ks : list string) (item formatted : gmap string jsval)
    (k : string) :
  k ∉ ks -> pickKeys ks item formatted !! k = formatted !! k.
Proof.
  revert formatted. induction ks as [|a ks IH]; intros formatted Hk;
    [reflexivity|].
  apply not_elem_of_cons in Hk as [Hne Hk]. simpl.
  rewrite IH by exact Hk. apply lookup_insert_ne. congruence.
Qed.

Lemma pickKeys_lookup (ks : list string) (item formatted : gmap string jsval)
    (k : string) :
  k ∈ ks ->
  pickKeys ks item formatted !! k = Some (default JUndefined (item !! k)).
Proof.
  revert formatted. induction ks as [|a ks IH]; intros formatted Hk.
  - apply not_elem_of_nil in Hk. contradiction.
  - simpl. destruct (decide (k ∈ ks)) as [Hin|Hout]; [apply IH, Hin|].
    apply elem_of_cons in Hk as [->|]; [|contradiction].
    rewrite pickKeys_notin by exact Hout. apply lookup_insert_eq.
Qed.

Lemma mapM_ext {A B : Type} (f g : A -> result B) (l : list A) :
  (forall x, x ∈ l -> f x = g x) -> mapM f l = mapM g l.
Proof.
  induction l as [|x l IH]; intros Hfg; [reflexivity|]. simpl.
  rewrite (Hfg x) by left. rewrite IH; [reflexivity|].
  intros y Hy. apply Hfg. right. exact Hy.
Qed.

Lemma formatKey_pickKeys (item : gmap string jsval) (def : KeyDef) :
  formatKey (pickKeys (keys def) item ∅) def = formatKey item def.
Proof.
  unfold formatKey. f_equal. apply mapM_ext. intros k Hk. unfold mustGet.
  rewrite (pickKeys_lookup _ item ∅ k Hk).
  destruct (item !! k) as [[|s]|]; reflexivity.
Qed.

(** X5. Extracting the partition-key (sort-key) fields of an item and
    encoding them gives what encoding the item itself gives, error
    included; extracting the sort-key fields throws
    SK_NOT_DEFINED_IN_SCHEMA when the schema has no sort side. *)
Theorem formatKey_after_extraction (sf : SchemaFormatter)
    (item : gmap string jsval) :
  formatPK sf (formatPKFromItem sf item) = formatPK sf item /\
  match getSK sf with
  | None => formatSKFromItem sf item = Throw SK_NOT_DEFINED_IN_SCHEMA
  | Some _ =>
    exists skItem, formatSKFromItem sf item = Return skItem /\
                   formatSK sf skItem = formatSK sf item
  end.
Proof.
  split.
  - apply formatKey_pickKeys.
  - unfold formatSKFromItem, formatSK. destruct (getSK sf) as [skd|];
      [|reflexivity].
    eexists. split; [reflexivity|]. apply formatKey_pickKeys.
Qed.

(** ** Encoding an item for the store *)

Lemma kept_lookup (sf : SchemaFormatter) (item : gmap string jsval)
    (k : string) :
  base.filter (fun kv : string * jsval => ~ isFolded sf kv.1) item !! k
  = if decide (isFolded sf k) then None else item !! k.
Proof.
  rewrite map_lookup_filter. destruct (item !! k) as [v|]; simpl.
  - destruct (decide (isFolded sf k)) as [Hf|Hf].
    + rewrite option_guard_False by (simpl; tauto). reflexivity.
    + rewrite option_guard_True by exact Hf. reflexivity.
  - destruct (decide (isFolded sf k)); reflexivity.
Qed.

(** The attributes of the record that [formatItemDtoAsRecord] builds. *)
Lemma formatItemDtoAsRecord_lookup (sf : SchemaFormatter)
    (item : gmap string jsval) (rec : gmap string string) :
  formatItemDtoAsRecord sf item = Return rec ->
  exists pkv, formatKey item (getPK sf) = Return pkv /\
  forall k,
    rec !! k =
    if decide (~ isFolded sf k /\ is_Some (item !! k))
    then item !! k ≫= marshallValue
    else match getSK sf with
         | Some skd =>
           if decide (k = name skd)
           then match formatKey item skd with
                | Return skv => Some skv
                | Throw _ => None
                end
           else if decide (k = name (getPK sf)) then Some pkv else None
         | None => if decide (k = name (getPK sf)) then Some pkv else None
         end.
Proof.
  unfold formatItemDtoAsRecord. intros Hrec.
  destruct (formatKey item (getPK sf)) as [pkv|e] eqn:Hpk; [|discriminate].
  exists pkv. split; [reflexivity|]. simpl in Hrec.
  destruct (getSK sf) as [skd|] eqn:Hsf.
  - destruct (formatKey item skd) as [skv|e] eqn:Hsk; [|discriminate].
    simpl in Hrec. injection Hrec as <-. intros k.
    rewrite lookup_omap, lookup_union, kept_lookup.
    destruct (decide (isFolded sf k)) as [Hf|Hf].
    + rewrite decide_False by tauto. rewrite (left_id None _).
      rewrite lookup_insert, lookup_singleton.
      repeat case_decide; subst; simpl; congruence.
    + destruct (item !! k) as [v|] eqn:Hk.
      * rewrite decide_True by (split; [exact Hf | eexists; reflexivity]).
        rewrite lookup_insert, lookup_singleton.
        repeat case_decide; reflexivity.
      * rewrite decide_False by (intros [_ [? ?]]; discriminate).
        rewrite (left_id None _), lookup_insert, lookup_singleton.
        repeat case_decide; subst; simpl; congruence.
  - simpl in Hrec. injection Hrec as <-. intros k.
    rewrite lookup_omap, lookup_union, kept_lookup.
    destruct (decide (isFolded sf k)) as [Hf|Hf].
    + rewrite decide_False by tauto. rewrite (left_id None _).
      rewrite lookup_singleton. repeat case_decide; subst; simpl; congruence.
    + destruct (item !! k) as [v|] eqn:Hk.
      * rewrite decide_True by (split; [exact Hf | eexists; reflexivity]).
        rewrite lookup_singleton. repeat case_decide; reflexivity.
      * rewrite decide_False by (intros [_ [? ?]]; discriminate).
        rewrite (left_id None _), lookup_singleton.
        repeat case_decide; subst; simpl; congruence.
Qed.

(** X6. Besides the two physical key attributes, the record built for an
    item holds exactly the fields of the item that are not key parts, or are
    key parts listed in [preserve], each with its value; a field whose value
    is [undefined] is left out, and a key part that is not preserved is not
    stored as an attribute of its own. *)
Theorem formatItemDtoAsRecord_preserve (sf : SchemaFormatter)
    (item : gmap string jsval) (rec : gmap string string) (k : string) :
  formatItemDtoAsRecord sf item = Return rec ->
  k <> name (getPK sf) ->
  (forall skd, getSK sf = Some skd -> k <> name skd) ->
  rec !! k = if decide (isFolded sf k) then None
             else item !! k ≫= marshallValue.
Proof.
  intros Hrec Hpk Hsk.
  destruct (formatItemDtoAsRecord_lookup sf item rec Hrec) as (pkv & _ & Hlook).
  rewrite Hlook.
  destruct (decide (isFolded sf k)) as [Hf|Hf].
  - rewrite decide_False by tauto.
    destruct (getSK sf) as [skd|].
    + rewrite decide_False by (apply Hsk; reflexivity).
      rewrite decide_False by exact Hpk. reflexivity.
    + rewrite decide_False by exact Hpk. reflexivity.
  - destruct (item !! k) as [v|] eqn:Hk.
    + rewrite decide_True by (split; [exact Hf | eexists; reflexivity]).
      reflexivity.
    + rewrite decide_False by (intros [_ [? ?]]; discriminate).
      destruct (getSK sf) as [skd|].
      * rewrite decide_False by (apply Hsk; reflexivity).
        rewrite decide_False by exact Hpk. reflexivity.
      * rewrite decide_False by exact Hpk. reflexivity.
Qed.

Lemma formatItemDtoAsRecord_preserve_witness :
  formatItemDtoAsRecord formattingFormatter messageItem = Return messageRecord /\
  messageRecord !! "tenantId" = None /\
  messageRecord !! "userId" = Some "u" /\
  messageRecord !! "message" = Some "hi".
Proof.
  assert (Hrec : formatItemDtoAsRecord formattingFormatter messageItem
                 = Return messageRecord) by (vm_compute; reflexivity).
  pose proof (formatItemDtoAsRecord_preserve formattingFormatter messageItem
                messageRecord) as Hp.
  split; [exact Hrec|]. split; [|split].
  - rewrite (Hp "tenantId" Hrec); [| discriminate | intros skd [= <-]; discriminate].
    rewrite decide_True; [reflexivity|]. split; by_decide.
  - rewrite (Hp "userId" Hrec); [| discriminate | intros skd [= <-]; discriminate].
    rewrite decide_False; [reflexivity|]. intros [_ Hn]. apply Hn. by_decide.
  - rewrite (Hp "message" Hrec); [| discriminate | intros skd [= <-]; discriminate].
    rewrite decide_False; [reflexivity|]. intros [Hin _]. revert Hin. by_decide.
Defined.

Lemma store_roundtrip (sf : SchemaFormatter) (item : gmap string jsval) :
  (forall skd, getSK sf = Some skd -> name skd <> name (getPK sf)) ->
  side_decodable (getPK sf) item ->
  (forall skd, getSK sf = Some skd -> side_decodable skd item) ->
  (forall k, is_Some (item !! k) -> ~ isFolded sf k ->
     k <> name (getPK sf) /\ forall skd, getSK sf = Some skd -> k <> name skd) ->
  exists rec, formatItemDtoAsRecord sf item = Return rec /\
    formatRecordAsItemDto sf rec = Return (JString <$> omap marshallValue item).
Proof.
  intros Hnames [Hpk1 Hpk2] Hsk Hfree.
  destruct (decodeSide_formatKey (getPK sf) item Hpk1 Hpk2)
    as (pkv & Hpkv & Hpkm).
  assert (Hskv : forall skd, getSK sf = Some skd ->
            exists skv, formatKey item skd = Return skv /\
              forall k, decodeSide skd skv !! k
                        = if decide (k ∈ keys skd) then item !! k else None).
  { intros skd Hsf. destruct (Hsk skd Hsf) as [H1 H2].
    apply (decodeSide_formatKey skd item H1 H2). }
  assert (Hex : exists rec, formatItemDtoAsRecord sf item = Return rec).
  { unfold formatItemDtoAsRecord. rewrite Hpkv. simpl.
    destruct (getSK sf) as [skd|] eqn:Hsf; [|eexists; reflexivity].
    destruct (Hskv skd eq_refl) as (skv & -> & _). eexists. reflexivity. }
  destruct Hex as [rec Hrec]. exists rec. split; [exact Hrec|].
  destruct (formatItemDtoAsRecord_lookup sf item rec Hrec) as (pkv' & Hpkv' & Hlook).
  rewrite Hpkv in Hpkv'. injection Hpkv' as <-.
  assert (Hphys : forall k,
            (k = name (getPK sf) \/ exists skd, getSK sf = Some skd /\ k = name skd) ->
            ~ (~ isFolded sf k /\ is_Some (item !! k))).
  { intros k Hk [Hf Hin]. destruct (Hfree k Hin Hf) as [H1 H2].
    destruct Hk as [->|(skd & Hsf & ->)]; [congruence|].
    apply (H2 skd Hsf). reflexivity. }
  assert (Hparts : forall k, isFolded sf k ->
            exists s, item !! k = Some (JString s)).
  { intros k [Hin _]. apply elem_of_app in Hin as [Hin|Hin].
    - apply Hpk1, Hin.
    - unfold skKeysOf in Hin. destruct (getSK sf) as [skd|] eqn:Hsf.
      + destruct (Hsk skd eq_refl) as [H1 _]. apply H1, Hin.
      + apply not_elem_of_nil in Hin. contradiction. }
  assert (Hkeyparts : forall k,
            k ∈ keys (getPK sf) ++ skKeysOf sf ->
            exists s, item !! k = Some (JString s)).
  { intros k Hin. apply elem_of_app in Hin as [Hin|Hin].
    - apply Hpk1, Hin.
    - unfold skKeysOf in Hin. destruct (getSK sf) as [skd|] eqn:Hsf.
      + destruct (Hsk skd eq_refl) as [H1 _]. apply H1, Hin.
      + apply not_elem_of_nil in Hin. contradiction. }
  unfold formatRecordAsItemDto, attrToString.
  rewrite (Hlook (name (getPK sf))).
  rewrite decide_False by (apply Hphys; left; reflexivity).
  destruct (getSK sf) as [skd|] eqn:Hsf.
  - destruct (Hskv skd eq_refl) as (skv & Hskv' & Hskm).
    specialize (Hnames skd eq_refl).
    rewrite decide_False by congruence. rewrite decide_True by reflexivity.
    simpl. rewrite (Hlook (name skd)).
    rewrite decide_False
      by (apply Hphys; right; exists skd; split; reflexivity).
    rewrite decide_True by reflexivity. rewrite Hskv'. simpl. f_equal.
    apply map_eq. intros k.
    rewrite lookup_union, lookup_fmap, lookup_union, Hskm, Hpkm.
    rewrite lookup_delete, lookup_delete, lookup_fmap, lookup_omap.
    destruct (decide (name skd = k)) as [<-|Hk1].
    { simpl. rewrite (left_id None _).
      specialize (Hphys (name skd)
                    (or_intror (ex_intro _ skd (conj eq_refl eq_refl)))).
      destruct (decide (name skd ∈ keys skd)) as [Hin|Hout].
      - destruct (Hkeyparts (name skd)) as [s Hs].
        { apply elem_of_app. right. unfold skKeysOf. rewrite Hsf. exact Hin. }
        rewrite Hs; simpl; repeat case_decide; reflexivity.
      - destruct (decide (name skd ∈ keys (getPK sf))) as [Hin|Hout'].
        + destruct (Hpk1 _ Hin) as [s Hs]. rewrite Hs; simpl; repeat case_decide; reflexivity.
        + rewrite (left_id None _).
          destruct (item !! name skd) as [v|] eqn:Hv; [|reflexivity].
          exfalso. apply Hphys. split; [|eexists; reflexivity].
          intros [Hin _]. apply elem_of_app in Hin as [?|Hin]; [contradiction|].
          unfold skKeysOf in Hin. rewrite Hsf in Hin. contradiction. }
    destruct (decide (name (getPK sf) = k)) as [<-|Hk2].
    { simpl. rewrite (left_id None _).
      specialize (Hphys (name (getPK sf)) (or_introl eq_refl)).
      destruct (decide (name (getPK sf) ∈ keys skd)) as [Hin|Hout].
      - destruct (Hkeyparts (name (getPK sf))) as [s Hs].
        { apply elem_of_app. right. unfold skKeysOf. rewrite Hsf. exact Hin. }
        rewrite Hs; simpl; repeat case_decide; reflexivity.
      - destruct (decide (name (getPK sf) ∈ keys (getPK sf))) as [Hin|Hout'].
        + destruct (Hpk1 _ Hin) as [s Hs]. rewrite Hs; simpl; repeat case_decide; reflexivity.
        + rewrite (left_id None _).
          destruct (item !! name (getPK sf)) as [v|] eqn:Hv; [|reflexivity].
          exfalso. apply Hphys. split; [|eexists; reflexivity].
          intros [Hin _]. apply elem_of_app in Hin as [?|Hin]; [contradiction|].
          unfold skKeysOf in Hin. rewrite Hsf in Hin. contradiction. }
    rewrite (Hlook k).
    rewrite (decide_False (P := k = name skd)) by congruence.
    rewrite (decide_False (P := k = name (getPK sf))) by congruence.
    destruct (decide (~ isFolded sf k /\ is_Some (item !! k))) as [[Hf [v Hv]]|Hn].
    + rewrite Hv. simpl. destruct v as [|s]; simpl.
      * rewrite (left_id None _).
        destruct (decide (k ∈ keys skd)) as [Hin|Hout].
        { destruct (Hkeyparts k) as [s Hs]; [|congruence].
          apply elem_of_app. right. unfold skKeysOf. rewrite Hsf. exact Hin. }
        destruct (decide (k ∈ keys (getPK sf))) as [Hin|Hout'];
          [|reflexivity].
        destruct (Hpk1 _ Hin) as [s Hs]. congruence.
      * repeat case_decide; reflexivity.
    + simpl. rewrite (left_id None _).
      destruct (decide (k ∈ keys skd)) as [Hin|Hout].
      { destruct (Hkeyparts k) as [s Hs]; [|rewrite Hs; simpl; repeat case_decide; reflexivity].
        apply elem_of_app. right. unfold skKeysOf. rewrite Hsf. exact Hin. }
      destruct (decide (k ∈ keys (getPK sf))) as [Hin|Hout'].
      { destruct (Hpk1 _ Hin) as [s Hs]. rewrite Hs; simpl; repeat case_decide; reflexivity. }
      rewrite (left_id None _).
      destruct (item !! k) as [v|] eqn:Hv; [|reflexivity].
      exfalso. apply Hn. split; [|eexists; reflexivity].
      intros [Hin _]. apply elem_of_app in Hin as [?|Hin]; [contradiction|].
      unfold skKeysOf in Hin. rewrite Hsf in Hin. contradiction.
  - rewrite decide_True by reflexivity. simpl. f_equal.
    apply map_eq. intros k.
    rewrite lookup_union, lookup_fmap, lookup_union, lookup_empty, Hpkm.
    rewrite (left_id None _).
    rewrite lookup_delete, lookup_fmap, lookup_omap.
    destruct (decide (name (getPK sf) = k)) as [<-|Hk2].
    { simpl. rewrite (left_id None _).
      specialize (Hphys (name (getPK sf)) (or_introl eq_refl)).
      destruct (decide (name (getPK sf) ∈ keys (getPK sf))) as [Hin|Hout'].
      + destruct (Hpk1 _ Hin) as [s Hs]. rewrite Hs; simpl; repeat case_decide; reflexivity.
      + destruct (item !! name (getPK sf)) as [v|] eqn:Hv; [|reflexivity].
        exfalso. apply Hphys. split; [|eexists; reflexivity].
        intros [Hin _]. apply elem_of_app in Hin as [?|Hin]; [contradiction|].
        unfold skKeysOf in Hin. rewrite Hsf in Hin.
        apply not_elem_of_nil in Hin. exact Hin. }
    rewrite (Hlook k).
    rewrite (decide_False (P := k = name (getPK sf))) by congruence.
    destruct (decide (~ isFolded sf k /\ is_Some (item !! k))) as [[Hf [v Hv]]|Hn].
    + rewrite Hv. simpl. destruct v as [|s]; simpl.
      * rewrite (left_id None _).
        destruct (decide (k ∈ keys (getPK sf))) as [Hin|Hout'];
          [|reflexivity].
        destruct (Hpk1 _ Hin) as [s Hs]. congruence.
      * repeat case_decide; reflexivity.
    + simpl. rewrite (left_id None _).
      destruct (decide (k ∈ keys (getPK sf))) as [Hin|Hout'].
      { destruct (Hpk1 _ Hin) as [s Hs]. rewrite Hs; simpl; repeat case_decide; reflexivity. }
      destruct (item !! k) as [v|] eqn:Hv; [|reflexivity].
      exfalso. apply Hn. split; [|eexists; reflexivity].
      intros [Hin _]. apply elem_of_app in Hin as [?|Hin]; [contradiction|].
      unfold skKeysOf in Hin. rewrite Hsf in Hin.
      apply not_elem_of_nil in Hin. exact Hin.
Qed.

(** X7. What is stored is what is read: for an item whose key parts can be
    decoded (see [side_decodable]), whose other fields are not named like a
    physical key attribute, on a schema whose two physical attributes have
    different names, [formatItemDtoAsRecord] succeeds and
    [formatRecordAsItemDto] gives back the item, without its [undefined]
    fields. *)
Theorem formatItemDtoAsRecord_roundtrip (sf : SchemaFormatter)
    (item : gmap string jsval) :
  (forall skd, getSK sf = Some skd -> name skd <> name (getPK sf)) ->
  side_decodable (getPK sf) item ->
  (forall skd, getSK sf = Some skd -> side_decodable skd item) ->
  (forall k, is_Some (item !! k) -> ~ isFolded sf k ->
     k <> name (getPK sf) /\ forall skd, getSK sf = Some skd -> k <> name skd) ->
  exists rec, formatItemDtoAsRecord sf item = Return rec /\
    formatRecordAsItemDto sf rec = Return (JString <$> omap marshallValue item).
Proof. apply store_roundtrip. Qed.

Lemma formatItemDtoAsRecord_roundtrip_witness :
  exists rec, formatItemDtoAsRecord formattingFormatter messageItem = Return rec /\
    formatRecordAsItemDto formattingFormatter rec
    = Return (JString <$> omap marshallValue messageItem).
Proof.
  apply formatItemDtoAsRecord_roundtrip.
  - intros skd [= <-]. discriminate.
  - split; [|simpl]; intros k Hk;
      repeat (apply elem_of_cons in Hk as [->|Hk]);
      try (apply elem_of_nil in Hk; contradiction);
      first [reflexivity | eexists; reflexivity].
  - intros skd [= <-].
    split; [|simpl]; intros k Hk;
      repeat (apply elem_of_cons in Hk as [->|Hk]);
      try (apply elem_of_nil in Hk; contradiction);
      first [reflexivity | eexists; reflexivity].
  - intros k [v Hv] _. split.
    + intros ->. vm_compute in Hv. discriminate.
    + intros skd [= <-] ->. vm_compute in Hv. discriminate.
Defined.

(** ** Placeholders that end in a counter *)

Lemma append_cons (c : ascii) (a b : string) :
  String c a +:+ b = String c (a +:+ b).
Proof. reflexivity. Qed.

Lemma append_inj_l (a x y : string) : a +:+ x = a +:+ y -> x = y.
Proof.
  induction a as [|c a IH]; intros Heq; [exact Heq|].
  rewrite !append_cons in Heq. injection Heq as Heq. apply IH, Heq.
Qed.

Lemma occurs_append (c : ascii) (a b : string) :
  occurs c (a +:+ b) = occurs c a || occurs c b.
Proof.
  induction a as [|x a IH]; [reflexivity|].
  rewrite append_cons. simpl. rewrite IH. apply orb_assoc.
Qed.

Lemma pretty_N_go_no_underscore (x : N) (s : string) :
  occurs "_" s = false -> occurs "_" (pretty_N_go x s) = false.
Proof.
  revert s. induction (N.lt_wf_0 x) as [x _ IH]. intros s Hs.
  destruct (decide (x = 0%N)) as [->|Hx].
  - rewrite pretty_N_go_0. exact Hs.
  - rewrite pretty_N_go_step by lia. apply IH.
    + apply N.div_lt; lia.
    + change (Ascii.eqb "_" (pretty_N_char (x `mod` 10))
              || occurs "_" s = false).
      rewrite Hs, orb_false_r. generalize (x `mod` 10)%N. intros m.
      unfold pretty_N_char. repeat case_match; reflexivity.
Qed.

Lemma pretty_nat_no_underscore (n : nat) : occurs "_" (pretty n) = false.
Proof.
  unfold pretty, pretty_nat, pretty, pretty_N.
  case_decide; [reflexivity|].
  apply pretty_N_go_no_underscore. reflexivity.
Qed.

Lemma underscore_suffix_inj (s1 s2 d1 d2 : string) :
  occurs "_" d1 = false -> occurs "_" d2 = false ->
  s1 +:+ "_" +:+ d1 = s2 +:+ "_" +:+ d2 -> s1 = s2 /\ d1 = d2.
Proof.
  intros H1 H2. revert s2.
  induction s1 as [|c s1 IH]; intros [|c' s2] Heq.
  - injection Heq as Heq. split; [reflexivity|exact Heq].
  - change (String "_" d1 = String c' (s2 +:+ "_" +:+ d2)) in Heq.
    injection Heq as Hc Heq.
    exfalso. rewrite Heq, occurs_append in H1.
    apply orb_false_iff in H1 as [_ H1].
    change (true = false) in H1. discriminate.
  - change (String c (s1 +:+ "_" +:+ d1) = String "_" d2) in Heq.
    injection Heq as Hc Heq.
    exfalso. rewrite <- Heq, occurs_append in H2.
    apply orb_false_iff in H2 as [_ H2].
    change (true = false) in H2. discriminate.
  - change (String c (s1 +:+ "_" +:+ d1) = String c' (s2 +:+ "_" +:+ d2))
      in Heq.
    injection Heq as Hc Heq.
    destruct (IH s2 Heq) as [-> ->]. subst. split; reflexivity.
Qed.

Lemma counter_suffix_inj (s1 s2 : string) (i j : nat) :
  s1 +:+ "_" +:+ pretty i = s2 +:+ "_" +:+ pretty j -> s1 = s2 /\ i = j.
Proof.
  intros Heq.
  destruct (underscore_suffix_inj s1 s2 (pretty i) (pretty j)
              (pretty_nat_no_underscore i) (pretty_nat_no_underscore j) Heq)
    as [Hs Hp].
  split; [exact Hs|]. apply (inj pretty), Hp.
Qed.

Lemma counter_suffix_has_underscore (s : string) (i : nat) :
  occurs "_" (s +:+ "_" +:+ pretty i) = true.
Proof. rewrite occurs_append. simpl. apply orb_true_r. Qed.

(** ** Projection *)

Lemma attrPlaceholderOf_inj (a b : string) (i j : nat) :
  attrPlaceholderOf a i = attrPlaceholderOf b j -> i = j.
Proof.
  unfold attrPlaceholderOf. intros Heq. apply append_inj_l in Heq.
  apply counter_suffix_inj in Heq as [_ Heq]. exact Heq.
Qed.

Lemma attrPlaceholderOf_has_underscore (a : string) (i : nat) :
  occurs "_" (attrPlaceholderOf a i) = true.
Proof. reflexivity. Qed.

Lemma projectLoop_spec (attributes : list string) (n : nat)
    (names0 : gmap string string) (parts0 : list string) :
  let '(names1, parts1) := projectLoop attributes n names0 parts0 in
  parts1 = parts0 ++ imap (fun i a => attrPlaceholderOf a (n + i)) attributes /\
  (forall i a, attributes !! i = Some a ->
     names1 !! attrPlaceholderOf a (n + i) = Some a) /\
  (forall k, (forall i a, attributes !! i = Some a ->
                k <> attrPlaceholderOf a (n + i)) ->
     names1 !! k = names0 !! k).
Proof.
  revert n names0 parts0.
  induction attributes as [|attr rest IH]; intros n names0 parts0; simpl.
  - split; [symmetry; apply app_nil_r|]. split; [intros i a Hi; discriminate|].
    reflexivity.
  - specialize (IH (S n) (<[attrPlaceholderOf attr n := attr]> names0)
                  (parts0 ++ [attrPlaceholderOf attr n])).
    destruct (projectLoop rest (S n) _ _) as [names1 parts1].
    destruct IH as (Hparts & Hbound & Hframe).
    split; [|split].
    + rewrite Hparts, <- app_assoc. simpl. rewrite Nat.add_0_r.
      do 2 f_equal. apply imap_ext. intros i a _. simpl.
      f_equal. lia.
    + intros [|i] a Hi; simpl in Hi.
      * injection Hi as <-. rewrite Nat.add_0_r, Hframe.
        -- apply lookup_insert_eq.
        -- intros i b _ Heq. apply attrPlaceholderOf_inj in Heq. lia.
      * replace (n + S i)%nat with (S n + i)%nat by lia. apply Hbound, Hi.
    + intros k Hk. rewrite Hframe.
      * apply lookup_insert_ne. intros Heq. apply (Hk 0%nat attr eq_refl).
        rewrite Nat.add_0_r. symmetry. exact Heq.
      * intros i a Hi. replace (S n + i)%nat with (n + S i)%nat by lia.
        apply (Hk (S i)), Hi.
Qed.

(** X8. [project] asks for the physical key attributes and then for the
    fields of the caller, each through a placeholder of its own: the
    projection expression lists the placeholders in that order, and the name
    table resolves each placeholder to the attribute it stands for, so that
    no two attributes share a placeholder. *)
Theorem project_placeholders_resolve (c : Chain)
    (projectDto : option (list string)) :
  let attributes := projectedAttributes (schemaFormatter c) projectDto in
  ProjectionExpression (params (project c projectDto))
  = Some (join ", " (imap (fun i a => attrPlaceholderOf a i) attributes)) /\
  exists table,
    ExpressionAttributeNames (params (project c projectDto)) = Some table /\
    forall i a, attributes !! i = Some a ->
                table !! attrPlaceholderOf a i = Some a.
Proof.
  intros attributes. unfold project. fold attributes.
  pose proof (projectLoop_spec attributes 0 ∅ []) as Hspec.
  destruct (projectLoop attributes 0 ∅ []) as [names1 parts1].
  destruct Hspec as (Hparts & Hbound & _). simpl in Hparts. simpl.
  split; [rewrite Hparts; reflexivity|].
  eexists. split; [reflexivity|]. intros i a Hi.
  apply lookup_union_Some_l. apply (Hbound i a Hi).
Qed.

Lemma project_twice (c : Chain) (projectDto : option (list string)) :
  project (project c projectDto) projectDto = project c projectDto.
Proof.
  unfold project at 1 3.
  replace (schemaFormatter (project c projectDto)) with (schemaFormatter c)
    by (unfold project; destruct (projectLoop _ _ _ _); reflexivity).
  destruct (projectLoop (projectedAttributes (schemaFormatter c) projectDto)
              0 ∅ []) as [names1 parts1] eqn:Hloop.
  unfold project. rewrite Hloop. unfold with_params. simpl.
  do 2 f_equal. f_equal. rewrite (assoc_L (∪)), (idemp_L (∪)). reflexivity.
Qed.

(** X9. Projecting twice with the same fields is projecting once: the
    placeholders are the same and the name table does not grow, whatever
    else the chain holds. *)
Theorem project_idempotent (c : Chain) (projectDto : option (list string)) :
  project (project c projectDto) projectDto = project c projectDto.
Proof. apply project_twice. Qed.

(** ** Bindings that a filter and a projection leave alone *)

Lemma namePlaceholder_has_underscore (safeKey : string) (n : nat) :
  occurs "_" ("#" +:+ safeKey +:+ "_" +:+ pretty n) = true.
Proof.
  change (occurs "_" (String "#" (safeKey +:+ "_" +:+ pretty n)) = true).
  simpl. apply counter_suffix_has_underscore.
Qed.

Lemma valuePlaceholder_prefix (rest : string) :
  String.prefix ":val_" (":val_" +:+ rest) = true.
Proof. apply prefix_append. Qed.

Lemma filterOperators_frame (safeKey namePlaceholder : string) (n : nat)
    (condObj : list (string * option FilterValue)) (parts : list string)
    (vals : gmap string AttributeValue) (k : string) :
  String.prefix ":val_" k = false ->
  (filterOperators safeKey namePlaceholder n condObj parts vals).2 !! k
  = vals !! k.
Proof.
  intros Hk. revert parts vals.
  induction condObj as [|[operator [value|]] rest IH]; intros parts vals;
    simpl; [reflexivity| |apply IH].
  rewrite IH. apply lookup_insert_ne. intros <-.
  unfold valuePlaceholderOf in Hk. rewrite valuePlaceholder_prefix in Hk.
  discriminate.
Qed.

Lemma filterStep_frame (st : FilterState)
    (entry : string * option FilterCondition) (n v : string) :
  occurs "_" n = false -> String.prefix ":val_" v = false ->
  names (filterStep st entry) !! n = names st !! n /\
  values (filterStep st entry) !! v = values st !! v.
Proof.
  intros Hn Hv. destruct entry as [key [[value|condObj]|]]; simpl.
  - split.
    + apply lookup_insert_ne. intros <-.
      rewrite namePlaceholder_has_underscore in Hn. discriminate.
    + apply lookup_insert_ne. intros <-.
      rewrite valuePlaceholder_prefix in Hv. discriminate.
  - pose proof (filterOperators_frame (replaceDots key)
                  ("#" +:+ replaceDots key +:+ "_" +:+ pretty (counter st))
                  (counter st) condObj (expressionParts st) (values st) v Hv)
      as Hframe.
    destruct (filterOperators _ _ _ _ _ _) as [parts' values']. simpl.
    split; [|exact Hframe].
    apply lookup_insert_ne. intros <-.
    rewrite namePlaceholder_has_underscore in Hn. discriminate.
  - split; reflexivity.
Qed.

Lemma fold_filterStep_frame (fo : FilterObject) (st : FilterState)
    (n v : string) :
  occurs "_" n = false -> String.prefix ":val_" v = false ->
  names (fold_left filterStep fo st) !! n = names st !! n /\
  values (fold_left filterStep fo st) !! v = values st !! v.
Proof.
  intros Hn Hv. revert st.
  induction fo as [|entry fo IH]; intros st; simpl; [split; reflexivity|].
  destruct (IH (filterStep st entry)) as [IHn IHv].
  destruct (filterStep_frame st entry n v Hn Hv) as [Hn' Hv'].
  split; congruence.
Qed.

(** X10. A filter never rebinds the placeholders of the key condition: a
    name placeholder without underscore (['#pk'], ['#sk']) and a value
    placeholder that does not start with [':val_'] ([':pk'], [':sk'],
    [':low'], [':high']) resolve after [filter] as they did before, and the
    key condition is the same. *)
Theorem filter_keeps_key_bindings (c : Chain) (fo : FilterObject)
    (n v : string) :
  occurs "_" n = false -> String.prefix ":val_" v = false ->
  default ∅ (ExpressionAttributeNames (params (filter c fo))) !! n
  = default ∅ (ExpressionAttributeNames (params c)) !! n /\
  default ∅ (ExpressionAttributeValues (params (filter c fo))) !! v
  = default ∅ (ExpressionAttributeValues (params c)) !! v /\
  KeyConditionExpression (params (filter c fo))
  = KeyConditionExpression (params c).
Proof.
  intros Hn Hv. unfold filter.
  destruct (fold_filterStep_frame fo (mkFilterState [] ∅ ∅ 0) n v Hn Hv)
    as [Hnames Hvalues].
  simpl in Hnames, Hvalues.
  rewrite (lookup_empty (M := gmap string)) in Hnames.
  rewrite (lookup_empty (M := gmap string)) in Hvalues.
  destruct (0 <? length _)%nat; [|repeat split; reflexivity].
  unfold filterRaw. simpl. split; [|split; [|reflexivity]].
  - destruct (ExpressionAttributeNames (params c)) as [existing|]; simpl;
      [|reflexivity].
    rewrite lookup_union, Hnames. apply (left_id None _).
  - destruct (ExpressionAttributeValues (params c)) as [existing|]; simpl.
    + rewrite lookup_union, Hvalues. apply (left_id None _).
    + rewrite Hvalues. symmetry. apply lookup_empty.
Qed.

Lemma filter_keeps_key_bindings_witness :
  default ∅ (ExpressionAttributeNames (params (filter sampleChain ageRangeFilter)))
    !! "#pk" = Some "pk" /\
  default ∅ (ExpressionAttributeValues (params (filter sampleChain ageRangeFilter)))
    !! ":pk" = Some (AttrS "tenant1") /\
  KeyConditionExpression (params (filter sampleChain ageRangeFilter))
  = Some "#pk = :pk".
Proof.
  destruct (filter_keeps_key_bindings sampleChain ageRangeFilter "#pk" ":pk")
    as (Hn & Hv & Hk); [reflexivity|reflexivity|].
  rewrite Hn, Hv, Hk. split; [|split]; reflexivity.
Defined.

(** X11. A projection never rebinds a name placeholder without underscore
    (['#pk'], ['#sk']), and leaves the key condition, the filter, the values,
    the limit and the start key as they were. *)
Theorem project_keeps_key_bindings (c : Chain)
    (projectDto : option (list string)) (n : string) :
  occurs "_" n = false ->
  default ∅ (ExpressionAttributeNames (params (project c projectDto))) !! n
  = default ∅ (ExpressionAttributeNames (params c)) !! n /\
  KeyConditionExpression (params (project c projectDto))
  = KeyConditionExpression (params c) /\
  FilterExpression (params (project c projectDto))
  = FilterExpression (params c) /\
  ExpressionAttributeValues (params (project c projectDto))
  = ExpressionAttributeValues (params c) /\
  Limit (params (project c projectDto)) = Limit (params c) /\
  ExclusiveStartKey (params (project c projectDto))
  = ExclusiveStartKey (params c).
Proof.
  intros Hn. unfold project.
  pose proof (projectLoop_spec
                (projectedAttributes (schemaFormatter c) projectDto) 0 ∅ [])
    as Hspec.
  destruct (projectLoop _ 0 ∅ []) as [names1 parts1].
  destruct Hspec as (_ & _ & Hframe). simpl.
  split; [|repeat split; reflexivity].
  rewrite lookup_union, Hframe, lookup_empty; [apply (left_id None _)|].
  intros i a _ ->. rewrite attrPlaceholderOf_has_underscore in Hn.
  discriminate.
Qed.

Lemma project_keeps_key_bindings_witness :
  default ∅ (ExpressionAttributeNames
               (params (project sampleChain (Some ["status"])))) !! "#pk"
  = Some "pk".
Proof.
  destruct (project_keeps_key_bindings sampleChain (Some ["status"]) "#pk")
    as (Hn & _); [reflexivity|].
  rewrite Hn. reflexivity.
Defined.

(** ** Name placeholders of a filter *)

Lemma namePlaceholderOf_inj (k1 k2 : string) (i j : nat) :
  namePlaceholderOf k1 i = namePlaceholderOf k2 j -> i = j.
Proof.
  unfold namePlaceholderOf. intros Heq. apply append_inj_l in Heq.
  apply counter_suffix_inj in Heq as [_ Heq]. exact Heq.
Qed.

Lemma filterStep_defined (st : FilterState) (key : string)
    (cond : FilterCondition) :
  names (filterStep st (key, Some cond))
  = <[namePlaceholderOf key (counter st) := key]> (names st) /\
  counter (filterStep st (key, Some cond)) = S (counter st).
Proof.
  destruct cond as [value|condObj]; simpl; [split; reflexivity|].
  destruct (filterOperators _ _ _ _ _ _). split; reflexivity.
Qed.

Lemma fold_filterStep_names (fo : FilterObject) (st : FilterState) :
  let st' := fold_left filterStep fo st in
  (forall i key cond, definedEntries fo !! i = Some (key, cond) ->
     names st' !! namePlaceholderOf key (counter st + i) = Some key) /\
  (forall k, (forall i key cond, definedEntries fo !! i = Some (key, cond) ->
                k <> namePlaceholderOf key (counter st + i)) ->
     names st' !! k = names st !! k).
Proof.
  revert st. induction fo as [|[key [cond|]] fo IH]; intros st; simpl.
  - split; [intros i key cond Hi; discriminate|reflexivity].
  - destruct (filterStep_defined st key cond) as [Hnames Hcounter].
    destruct (IH (filterStep st (key, Some cond))) as [Hbound Hframe].
    rewrite Hcounter in Hbound, Hframe.
    change (definedEntries ((key, Some cond) :: fo))
      with ((key, cond) :: definedEntries fo).
    split.
    + intros [|i] key' cond' Hi; simpl in Hi.
      * injection Hi as <- <-. rewrite Nat.add_0_r, Hframe.
        -- rewrite Hnames. apply lookup_insert_eq.
        -- intros i k' c' _ Heq. apply namePlaceholderOf_inj in Heq. lia.
      * replace (counter st + S i)%nat with (S (counter st) + i)%nat by lia.
        apply (Hbound i key' cond' Hi).
    + intros k Hk. rewrite Hframe.
      * rewrite Hnames. apply lookup_insert_ne. intros Heq.
        apply (Hk 0%nat key cond eq_refl). rewrite Nat.add_0_r.
        symmetry. exact Heq.
      * intros i k' c' Hi.
        replace (S (counter st) + i)%nat with (counter st + S i)%nat by lia.
        apply (Hk (S i) k' c'), Hi.
  - apply (IH st).
Qed.

(** X12. On a chain that has a name table, a filter that generates a
    clause binds, for every field whose condition is not [undefined], the
    name placeholder of that field (its name with dots replaced, followed by
    its rank among those fields) to the field: no two fields share a name
    placeholder. *)
Theorem filter_name_placeholders_resolve (c : Chain) (fo : FilterObject)
    (table : gmap string string) :
  ExpressionAttributeNames (params c) = Some table ->
  clausesOf fo <> [] ->
  exists table',
    ExpressionAttributeNames (params (filter c fo)) = Some table' /\
    forall i key cond, definedEntries fo !! i = Some (key, cond) ->
                       table' !! namePlaceholderOf key i = Some key.
Proof.
  intros Htable Hclauses. unfold filter. unfold clausesOf in Hclauses.
  destruct (fold_filterStep_names fo (mkFilterState [] ∅ ∅ 0)) as [Hbound _].
  simpl in Hbound.
  destruct (expressionParts _) as [|part parts] eqn:Hparts;
    [contradiction|].
  simpl. rewrite Htable. eexists. split; [reflexivity|].
  intros i key cond Hi. apply lookup_union_Some_l. apply (Hbound i key cond Hi).
Qed.

Lemma filter_name_placeholders_resolve_witness :
  exists table',
    ExpressionAttributeNames (params (filter sampleChain ageRangeFilter))
    = Some table' /\
    table' !! "#age_0" = Some "age".
Proof.
  destruct (filter_name_placeholders_resolve sampleChain ageRangeFilter
              {[ "#pk" := "pk" ]} eq_refl) as (table' & Htable & Hbound).
  - intros H. vm_compute in H. discriminate.
  - exists table'. split; [exact Htable|].
    apply (Hbound 0%nat "age"
             (CondOperators [(">", Some (FNumber 18)); ("<", Some (FNumber 65))])).
    reflexivity.
Defined.

(** ** A filter without values *)

Lemma filterOperators_no_value (safeKey namePlaceholder : string) (n : nat)
    (condObj : list (string * option FilterValue)) (parts : list string)
    (vals : gmap string AttributeValue) :
  Forall (fun ov => ov.2 = None) condObj ->
  filterOperators safeKey namePlaceholder n condObj parts vals = (parts, vals).
Proof.
  induction 1 as [|[operator value] rest Hnone _ IH]; [reflexivity|].
  simpl in Hnone. subst value. exact IH.
Qed.

Lemma fold_filterStep_no_value (fo : FilterObject) (st : FilterState) :
  definesNoValue fo ->
  expressionParts (fold_left filterStep fo st) = expressionParts st.
Proof.
  intros Hfo. revert st.
  induction Hfo as [|[key [[value|condObj]|]] fo Hentry _ IH]; intros st;
    simpl in *; [reflexivity|contradiction| |apply IH].
  rewrite IH. rewrite (filterOperators_no_value _ _ _ _ _ _ Hentry).
  reflexivity.
Qed.

(** X13. A filter none of whose conditions carries a value generates no
    clause and returns the chain as it was: no filter expression, no
    placeholder. *)
Theorem filter_without_values (c : Chain) (fo : FilterObject) :
  definesNoValue fo -> filter c fo = c.
Proof.
  intros Hfo. unfold filter.
  rewrite (fold_filterStep_no_value fo _ Hfo). reflexivity.
Qed.

Lemma filter_without_values_witness :
  filter sampleChain valuelessFilter = sampleChain.
Proof.
  apply filter_without_values.
  repeat constructor.
Defined.

(** ** Outcome of [run] *)






Lemma run_Return_inv (send : Command -> result CommandOutput) (c : Chain)
    (page : paginationResult) :
  (run send c).2 = Return page ->
  exists resp its newCursor oldCursor,
    issued send c = Return resp /\
    mapM (formatRecordAsItemDto (schemaFormatter c))
      (default [] (Items resp)) = Return its /\
    decodeOptional (schemaFormatter c) (LastEvaluatedKey resp)
      = Return newCursor /\
    decodeOptional (schemaFormatter c) (ExclusiveStartKey (params c))
      = Return oldCursor /\
    page = formatPaginationResult its (Limit (params c) + 1)
             (directionOf (params c)) newCursor oldCursor.
Proof.
  unfold run, issued. cbn [snd]. unfold runBody.
  change (schemaFormatter (incrementLimit c)) with (schemaFormatter c).
  change (ExclusiveStartKey (params (incrementLimit c)))
    with (ExclusiveStartKey (params c)).
  change (Limit (params (incrementLimit c))) with (Limit (params c) + 1).
  change (directionOf (params (incrementLimit c)))
    with (directionOf (params c)).
  intros Hrun.
  destruct (dispatch send (incrementLimit c)) as [resp|e] eqn:Hsend;
    [|discriminate].
  cbn [bind] in Hrun.
  destruct (mapM _ (default [] (Items resp))) as [its|e] eqn:Hits;
    [|discriminate].
  cbn [bind] in Hrun.
  destruct (decodeOptional _ (LastEvaluatedKey resp)) as [newCursor|e] eqn:Hnew;
    [|discriminate].
  cbn [bind] in Hrun.
  destruct (decodeOptional _ (ExclusiveStartKey (params c)))
    as [oldCursor|e] eqn:Hold; [|discriminate].
  cbn [bind] in Hrun. injection Hrun as <-.
  exists resp, its, newCursor, oldCursor.
  repeat (split; [first [assumption | reflexivity]|]). reflexivity.
Qed.

(** ** Running from a cursor *)

(** X15. After [pivot], both kinds of request that [run] can send start
    from the encoded cursor (for a chain without index, the physical key
    attributes of the cursor), and a page that [run] returns with an item
    in it reports a previous page. *)
Theorem pivot_then_run
    (fmtIndex : SchemaFormatter -> gmap string jsval -> string
                -> result (gmap string string))
    (send : Command -> result CommandOutput)
    (c c' : Chain) (cursor : gmap string jsval) :
  pivot fmtIndex c cursor = Return c' ->
  exists startKey,
    (truthy_string (IndexName (params c)) = false ->
     formatItemKeysDtoAsRecord (schemaFormatter c) cursor = Return startKey) /\
    ExclusiveStartKey (buildQueryCommandInput (incrementLimit c'))
    = Some startKey /\
    ExclusiveStartKey (buildScanCommandInput (incrementLimit c'))
    = Some startKey /\
    forall page, (run send c').2 = Return page -> items page <> [] ->
                 hasPrevious page = true.
Proof.
  unfold pivot. intros Hpivot.
  destruct (if truthy_string (IndexName (params c)) then _ else _)
    as [startKey|e] eqn:Hkey; [|discriminate].
  cbn [bind] in Hpivot. injection Hpivot as <-.
  exists startKey. split; [|split; [reflexivity|split; [reflexivity|]]].
  - intros Hidx. rewrite Hidx in Hkey. exact Hkey.
  - intros page Hrun Hitems.
    apply run_Return_inv in Hrun
      as (resp & its & newCursor & oldCursor & _ & _ & _ & Hold & ->).
    simpl in Hold.
    destruct (formatRecordAsItemDto (schemaFormatter c) startKey)
      as [old|e]; [|discriminate].
    cbn [bind] in Hold. injection Hold as <-.
    unfold formatPaginationResult in *.
    destruct (length its =? 0)%nat; [contradiction|]. reflexivity.
Qed.

Lemma pivot_then_run_witness :
  let cursor : gmap string jsval :=
    <["tenantId" := JString "tenant1"]> {[ "category" := JString "books" ]} in
  exists c', pivot noIndexFormatter sampleChain cursor = Return c' /\
    ExclusiveStartKey (buildQueryCommandInput (incrementLimit c'))
    = Some (<["pk" := "tenant1"]> {[ "sk" := "books" ]}).
Proof.
  intros cursor.
  destruct (pivot noIndexFormatter sampleChain cursor) as [c'|e] eqn:Hpivot;
    [|vm_compute in Hpivot; discriminate].
  exists c'. split; [reflexivity|].
  destruct (pivot_then_run noIndexFormatter emptyStore sampleChain c' cursor
              Hpivot) as (startKey & Hkey & Hquery & _).
  rewrite Hquery. f_equal.
  specialize (Hkey eq_refl). vm_compute in Hkey. injection Hkey as <-.
  vm_compute. reflexivity.
Defined.

(** ** Direction of a page *)

(** X16. The direction that a page reports is the one that a query
    request asks the store for: [forward] exactly when the request is sent
    with [ScanIndexForward = true], which is the case after
    [sortAscending]; after [sortDescending], and when no direction was ever
    set, the request is sent with [false] and the page reports
    [backward]. *)
Theorem run_reports_sent_direction (send : Command -> result CommandOutput)
    (c : Chain) (page : paginationResult) :
  (run send c).2 = Return page ->
  ScanIndexForward (buildQueryCommandInput (incrementLimit c))
  = Some (match direction page with forward => true | backward => false end)
  /\ (ScanIndexForward (params c) = None -> direction page = backward)
  /\ (forall b c0, c = setScanIndexForward c0 b ->
        direction page = if b then forward else backward).
Proof.
  intros Hrun.
  apply run_Return_inv in Hrun
    as (resp & its & newCursor & oldCursor & _ & _ & _ & _ & ->).
  assert (Hdir : direction
                   (formatPaginationResult its (Limit (params c) + 1)
                      (directionOf (params c)) newCursor oldCursor)
                 = directionOf (params c)).
  { unfold formatPaginationResult. destruct (length its =? 0)%nat; reflexivity. }
  rewrite Hdir. unfold directionOf. split; [|split].
  - simpl. destruct (ScanIndexForward (params c)) as [[|]|]; reflexivity.
  - intros ->. reflexivity.
  - intros b c0 ->. simpl. destruct b; reflexivity.
Qed.

Lemma run_reports_sent_direction_witness :
  exists page,
    (run twoRecordStore (sortDescending limitOneChain)).2 = Return page /\
    direction page = backward /\
    ScanIndexForward
      (buildQueryCommandInput (incrementLimit (sortDescending limitOneChain)))
    = Some false.
Proof.
  destruct ((run twoRecordStore (sortDescending limitOneChain)).2)
    as [page|e] eqn:Hrun; [|vm_compute in Hrun; discriminate].
  exists page. split; [reflexivity|].
  destruct (run_reports_sent_direction twoRecordStore
              (sortDescending limitOneChain) page Hrun) as (Hsent & _ & Hset).
  specialize (Hset false limitOneChain eq_refl).
  split; [exact Hset|]. rewrite Hsent, Hset. reflexivity.
Defined.

(** ** Range conditions *)

(** X17. Two comparisons chained on one query share the value placeholder
    [':sk']: the key condition holds both comparisons, and both read the
    value of the second one. *)
Theorem compare_twice_shares_value (c c1 c2 : Chain)
    (sk1 sk2 : list (string * jsval)) (op1 op2 : string) :
  compare c sk1 op1 = (c1, Return tt) ->
  compare c1 sk2 op2 = (c2, Return tt) ->
  exists v2 table,
    formatPartialOrderedSK (schemaFormatter c) sk2 = Return v2 /\
    KeyConditionExpression (params c2)
    = Some ((default "undefined" (KeyConditionExpression (params c))
             +:+ " AND #sk " +:+ op1 +:+ " :sk")
            +:+ " AND #sk " +:+ op2 +:+ " :sk") /\
    ExpressionAttributeValues (params c2) = Some table /\
    table !! ":sk" = Some (AttrS v2).
Proof.
  unfold compare. intros H1 H2.
  destruct (getSK (schemaFormatter c)) as [skd|] eqn:Hsk; [|discriminate].
  destruct (formatPartialOrderedSK (schemaFormatter c) sk1) as [v1|e];
    [|discriminate].
  injection H1 as <-. simpl in H2. rewrite Hsk in H2.
  destruct (formatPartialOrderedSK (schemaFormatter c) sk2) as [v2|e];
    [|discriminate].
  injection H2 as <-. exists v2. eexists.
  split; [reflexivity|]. split; [reflexivity|]. split; [reflexivity|].
  apply lookup_insert_eq.
Qed.

Lemma compare_twice_shares_value_witness :
  exists c1 c2,
    compare sampleChain [("category", JString "a")] ">" = (c1, Return tt) /\
    compare c1 [("category", JString "z")] "<" = (c2, Return tt) /\
    KeyConditionExpression (params c2)
    = Some "#pk = :pk AND #sk > :sk AND #sk < :sk" /\
    default ∅ (ExpressionAttributeValues (params c2)) !! ":sk"
    = Some (AttrS "z").
Proof.
  destruct (compare sampleChain [("category", JString "a")] ">")
    as [c1 r1] eqn:H1.
  destruct (compare c1 [("category", JString "z")] "<") as [c2 r2] eqn:H2.
  assert (r1 = Return tt) as ->
    by (apply (f_equal snd) in H1; vm_compute in H1; congruence).
  assert (r2 = Return tt) as ->.
  { apply (f_equal fst) in H1 as Hc1. simpl in Hc1. subst c1.
    apply (f_equal snd) in H2. vm_compute in H2. congruence. }
  exists c1, c2. split; [reflexivity|]. split; [exact H2|].
  destruct (compare_twice_shares_value sampleChain c1 c2
              [("category", JString "a")] [("category", JString "z")]
              ">" "<" H1 H2) as (v2 & table & Hv2 & Hcond & Htable & Hsk).
  vm_compute in Hv2. injection Hv2 as <-.
  rewrite Hcond, Htable. split; [reflexivity|exact Hsk].
Defined.

Lemma bindSortName_frame (c : Chain) (skName n : string) :
  n <> "#sk" ->
  default ∅ (ExpressionAttributeNames (params (bindSortName c skName))) !! n
  = default ∅ (ExpressionAttributeNames (params c)) !! n /\
  default ∅ (ExpressionAttributeValues (params (bindSortName c skName)))
  = default ∅ (ExpressionAttributeValues (params c)).
Proof.
  intros Hn. simpl. split.
  - apply lookup_insert_ne. congruence.
  - destruct (ExpressionAttributeValues (params c)); reflexivity.
Qed.

(** X18. A range condition on the sort key, whether it is accepted or
    rejected, leaves the other bindings of the request alone: every name
    placeholder but ['#sk'] and every value placeholder but [':sk'],
    [':low'] and [':high'] resolve as before (so ['#pk'] and [':pk'] do),
    and the filter, the projection, the limit and the start key are
    unchanged. *)
Theorem range_conditions_keep_other_bindings (c c' : Chain)
    (sk sk' : list (string * jsval)) (operator n v : string) :
  n <> "#sk" -> v <> ":sk" -> v <> ":low" -> v <> ":high" ->
  c' = (compare c sk operator).1 \/ c' = (whereSKBeginsWith c sk).1 \/
  c' = (whereSKBetween c sk sk').1 ->
  default ∅ (ExpressionAttributeNames (params c')) !! n
  = default ∅ (ExpressionAttributeNames (params c)) !! n /\
  default ∅ (ExpressionAttributeValues (params c')) !! v
  = default ∅ (ExpressionAttributeValues (params c)) !! v /\
  FilterExpression (params c') = FilterExpression (params c) /\
  ProjectionExpression (params c') = ProjectionExpression (params c) /\
  Limit (params c') = Limit (params c) /\
  ExclusiveStartKey (params c') = ExclusiveStartKey (params c).
Proof.
  intros Hn Hsk Hlow Hhigh Hc'.
  unfold compare, whereSKBeginsWith, whereSKBetween in Hc'.
  destruct (getSK (schemaFormatter c)) as [skd|].
  2:{ destruct Hc' as [->|[->| ->]]; repeat split; reflexivity. }
  destruct (bindSortName_frame c (name skd) n Hn) as [Hnames Hvalues].
  assert (Hbound : default ∅ (ExpressionAttributeValues
                                (params (bindSortName c (name skd)))) !! v
                   = default ∅ (ExpressionAttributeValues (params c)) !! v)
    by (rewrite Hvalues; reflexivity).
  destruct (formatPartialOrderedSK (schemaFormatter c) sk) as [v1|e1].
  2:{ destruct Hc' as [->|[->| ->]];
        (split; [exact Hnames|split; [exact Hbound|repeat split; reflexivity]]). }
  destruct Hc' as [->|[->|Hc']].
  - split; [exact Hnames|]. split; [|repeat split; reflexivity].
    cbn -[bindSortName]. rewrite lookup_insert_ne by congruence. exact Hbound.
  - split; [exact Hnames|]. split; [|repeat split; reflexivity].
    cbn -[bindSortName]. rewrite lookup_insert_ne by congruence. exact Hbound.
  - destruct (formatPartialOrderedSK (schemaFormatter c) sk') as [v2|e2];
      subst c'.
    + split; [exact Hnames|]. split; [|repeat split; reflexivity].
      cbn -[bindSortName]. rewrite !lookup_insert_ne by congruence.
      exact Hbound.
    + split; [exact Hnames|split; [exact Hbound|repeat split; reflexivity]].
Qed.

Lemma range_conditions_keep_other_bindings_witness :
  let c' := (whereSKBetween sampleChain [("category", JString "a")]
               [("category", JString "z")]).1 in
  default ∅ (ExpressionAttributeNames (params c')) !! "#pk" = Some "pk" /\
  default ∅ (ExpressionAttributeValues (params c')) !! ":pk"
  = Some (AttrS "tenant1").
Proof.
  intros c'.
  destruct (range_conditions_keep_other_bindings sampleChain c'
              [("category", JString "a")] [("category", JString "z")]
              "=" "#pk" ":pk") as (Hn & Hv & _);
    [discriminate|discriminate|discriminate|discriminate| |].
  - right. right. reflexivity.
  - rewrite Hn, Hv. split; reflexivity.
Defined.

(** ** Queries of a table *)

Lemma project_fields (c : Chain) (projectDto : option (list string)) :
  exists names1 parts1,
    projectLoop (projectedAttributes (schemaFormatter c) projectDto) 0 ∅ []
    = (names1, parts1) /\
    project c projectDto
    = with_params c
        {| TableName := TableName (params c);
           IndexName := IndexName (params c);
           ScanIndexForward := ScanIndexForward (params c);
           ProjectionExpression := Some (join ", " parts1);
           ExclusiveStartKey := ExclusiveStartKey (params c);
           KeyConditionExpression := KeyConditionExpression (params c);
           ExpressionAttributeNames :=
             Some (names1 ∪ default ∅ (ExpressionAttributeNames (params c)));
           Limit := Limit (params c);
           ExpressionAttributeValues := ExpressionAttributeValues (params c);
           FilterExpression := FilterExpression (params c) |}.
Proof.
  unfold project.
  destruct (projectLoop _ 0 ∅ []) as [names1 parts1].
  exists names1, parts1. split; reflexivity.
Qed.

(** X19. [Table.query] fails exactly when the partition key cannot be
    encoded, with the error of the encoder.  Otherwise it returns a query
    whose key condition is ['#pk = :pk'], with ['#pk'] bound to the physical
    partition attribute and [':pk'] to the encoded partition key, also when
    the caller asks for a projection; in that case every projected
    attribute has its placeholder bound as well. *)
Theorem Table_query_outcome (table : Table.t) (qparams : QueryParams.t) :
  let sf := Table.schemaFormatter table in
  match formatPK sf (QueryParams.pk qparams) with
  | Throw e => Table.query table qparams = Throw e
  | Return pkValue =>
    exists c, Table.query table qparams = Return c /\
      queryType c = "query" /\
      KeyConditionExpression (params c) = Some "#pk = :pk" /\
      default ∅ (ExpressionAttributeNames (params c)) !! "#pk"
      = Some (name (getPK sf)) /\
      ExpressionAttributeValues (params c)
      = Some {[ ":pk" := AttrS pkValue ]} /\
      Limit (params c) = QueryParams.limit qparams /\
      forall projectDto i a,
        QueryParams.project qparams = Some projectDto ->
        projectedAttributes sf (Some projectDto) !! i = Some a ->
        default ∅ (ExpressionAttributeNames (params c))
          !! attrPlaceholderOf a i = Some a
  end.
Proof.
  intros sf. unfold Table.query. fold sf.
  destruct (formatPK sf (QueryParams.pk qparams)) as [pkValue|e];
    [|reflexivity].
  cbn [bind]. eexists. split; [reflexivity|].
  destruct (QueryParams.project qparams) as [projectDto|].
  - match goal with |- context [project ?q _] => set (q0 := q) end.
    destruct (project_fields q0 (Some projectDto))
      as (names1 & parts1 & Hloop & ->).
    pose proof (projectLoop_spec
                  (projectedAttributes (schemaFormatter q0) (Some projectDto))
                  0 ∅ []) as Hspec.
    rewrite Hloop in Hspec. destruct Hspec as (_ & Hbound & Hframe).
    simpl. repeat (split; [reflexivity|]). split; [|split; [reflexivity|]].
    + rewrite lookup_union, Hframe, lookup_empty.
      * rewrite (left_id None _). apply lookup_singleton_eq.
      * intros i a _ Heq.
        pose proof (attrPlaceholderOf_has_underscore a (0 + i)) as Hu.
        rewrite <- Heq in Hu. discriminate.
    + split; [reflexivity|]. intros dto i a [= <-] Hi.
      apply lookup_union_Some_l. apply (Hbound i a Hi).
  - simpl. do 2 (split; [reflexivity|]).
    split; [apply lookup_singleton_eq|].
    do 2 (split; [reflexivity|]). intros dto i a Hdto. discriminate.
Qed.

Lemma setScanIndexForward_project (c : Chain) (b : bool)
    (projectDto : option (list string)) :
  project (setScanIndexForward c b) projectDto
  = setScanIndexForward (project c projectDto) b.
Proof.
  destruct (project_fields c projectDto) as (names1 & parts1 & Hloop & ->).
  unfold project.
  change (schemaFormatter (setScanIndexForward c b)) with (schemaFormatter c).
  rewrite Hloop. reflexivity.
Qed.

Lemma pivot_project
    (fmtIndex : SchemaFormatter -> gmap string jsval -> string
                -> result (gmap string string))
    (c c' : Chain) (cursor : gmap string jsval)
    (projectDto : option (list string)) :
  project c projectDto = c ->
  pivot fmtIndex c cursor = Return c' ->
  project c' projectDto = c'.
Proof.
  intros Hfix Hpivot. unfold pivot in Hpivot.
  destruct (if truthy_string (IndexName (params c)) then _ else _)
    as [startKey|e]; [|discriminate].
  cbn [bind] in Hpivot. injection Hpivot as <-.
  destruct (project_fields c projectDto) as (names1 & parts1 & Hloop & Hc).
  rewrite Hc in Hfix. unfold project.
  change (schemaFormatter (with_params c _)) with (schemaFormatter c).
  rewrite Hloop. unfold with_params in *. simpl.
  destruct c as [p qt sf]. simpl in *. injection Hfix as Hp.
  assert (HPE : Some (join ", " parts1) = ProjectionExpression p)
    by (apply (f_equal ProjectionExpression) in Hp; exact Hp).
  assert (HEAN : Some (names1 ∪ default ∅ (ExpressionAttributeNames p))
                 = ExpressionAttributeNames p)
    by (apply (f_equal ExpressionAttributeNames) in Hp; exact Hp).
  f_equal. f_equal; assumption.
Qed.

Lemma partitionQuery_once
    (fmtIndex : SchemaFormatter -> gmap string jsval -> string
                -> result (gmap string string))
    (table : Table.t) (qparams : QueryParams.t) :
  Table.partitionQuery fmtIndex table qparams
  = partitionQueryProjectedOnce fmtIndex table qparams.
Proof.
  unfold Table.partitionQuery, partitionQueryProjectedOnce, Table.query.
  destruct (formatPK _ _) as [pkValue|e]; [|reflexivity]. cbn [bind].
  destruct (QueryParams.project qparams) as [projectDto|].
  2:{ match goal with |- bind ?r _ = _ => destruct r; reflexivity end. }
  match goal with |- context [project ?q (Some projectDto)] =>
    set (q0 := project q (Some projectDto)) end.
  assert (Hq0 : project q0 (Some projectDto) = q0)
    by apply project_twice.
  assert (Hsorted : forall b,
            project (setScanIndexForward q0 b) (Some projectDto)
            = setScanIndexForward q0 b).
  { intros b. rewrite setScanIndexForward_project, Hq0. reflexivity. }
  unfold sortAscending, sortDescending.
  destruct (QueryParams.pagination qparams) as [[cursor dir]|]; simpl.
  - set (sorted := match dir with
                   | Some backward => setScanIndexForward q0 false
                   | _ => setScanIndexForward q0 true
                   end).
    assert (Hs : project sorted (Some projectDto) = sorted)
      by (unfold sorted; destruct dir as [[|]|]; apply Hsorted).
    destruct cursor as [cursor|]; cbn [bind].
    + destruct (pivot fmtIndex sorted cursor) as [c'|e] eqn:Hpivot;
        [|reflexivity].
      cbn [bind]. f_equal. apply (pivot_project fmtIndex sorted c' cursor _ Hs Hpivot).
    + f_equal. exact Hs.
  - f_equal. apply Hsorted.
Qed.

(** X20. The projection that [getPartitionBatch] applies changes
    nothing: the query it runs is the one of [Table.query], which is already
    projected, sorted and moved to the pivot. *)
Theorem partitionQuery_projects_once
    (fmtIndex : SchemaFormatter -> gmap string jsval -> string
                -> result (gmap string string))
    (table : Table.t) (qparams : QueryParams.t) :
  Table.partitionQuery fmtIndex table qparams
  = partitionQueryProjectedOnce fmtIndex table qparams.
Proof. apply partitionQuery_once. Qed.

Lemma pivot_ScanIndexForward
    (fmtIndex : SchemaFormatter -> gmap string jsval -> string
                -> result (gmap string string))
    (c c' : Chain) (cursor : gmap string jsval) :
  pivot fmtIndex c cursor = Return c' ->
  ScanIndexForward (params c') = ScanIndexForward (params c).
Proof.
  unfold pivot. intros Hpivot.
  destruct (if truthy_string (IndexName (params c)) then _ else _)
    as [startKey|e]; [|discriminate].
  cbn [bind] in Hpivot. injection Hpivot as <-. reflexivity.
Qed.

(** X21. A page of [getPartitionBatch] reports the direction that the
    caller asked for, and [forward] when the caller asked for none (a chain
    that is run without a direction reports [backward]). *)
Theorem getPartitionBatch_direction
    (send : Command -> result CommandOutput)
    (fmtIndex : SchemaFormatter -> gmap string jsval -> string
                -> result (gmap string string))
    (table : Table.t) (qparams : QueryParams.t) (page : paginationResult) :
  Table.getPartitionBatch send fmtIndex table qparams = Return page ->
  direction page
  = match QueryParams.pagination qparams with
    | Some pagination => default forward (Pagination.direction pagination)
    | None => forward
    end.
Proof.
  unfold Table.getPartitionBatch. rewrite partitionQuery_once.
  unfold partitionQueryProjectedOnce.
  destruct (Table.query table qparams) as [q|e]; [|discriminate].
  cbn [bind]. intros Hrun.
  assert (Hdir : forall c, (run send c).2 = Return page ->
                           direction page = directionOf (params c)).
  { intros c Hc. apply run_Return_inv in Hc
      as (resp & its & newCursor & oldCursor & _ & _ & _ & _ & ->).
    unfold formatPaginationResult. destruct (length its =? 0)%nat; reflexivity. }
  destruct (QueryParams.pagination qparams) as [[cursor dir]|];
    [|apply (Hdir _ Hrun)].
  simpl in *.
  set (sorted := match dir with
                 | Some backward => sortDescending q
                 | _ => sortAscending q
                 end) in *.
  assert (Hsorted : directionOf (params sorted) = default forward dir)
    by (unfold sorted; destruct dir as [[|]|]; reflexivity).
  destruct cursor as [cursor|]; cbn [bind] in Hrun.
  - destruct (pivot fmtIndex sorted cursor) as [c'|e] eqn:Hpivot;
      [|discriminate].
    cbn [bind] in Hrun. rewrite (Hdir _ Hrun). unfold directionOf.
    rewrite (pivot_ScanIndexForward fmtIndex sorted c' cursor Hpivot).
    exact Hsorted.
  - rewrite (Hdir _ Hrun). exact Hsorted.
Qed.

Lemma getPartitionBatch_direction_witness :
  exists page,
    Table.getPartitionBatch twoRecordStore noIndexFormatter sampleTable
      sampleQueryParams = Return page /\
    direction page = forward.
Proof.
  destruct (Table.getPartitionBatch twoRecordStore noIndexFormatter
              sampleTable sampleQueryParams) as [page|e] eqn:Hrun;
    [|vm_compute in Hrun; discriminate].
  exists page. split; [reflexivity|].
  apply (getPartitionBatch_direction twoRecordStore noIndexFormatter
           sampleTable sampleQueryParams page Hrun).
Defined.

(** ** Update and delete requests *)

Lemma substring_append (x y : string) :
  String.substring 0 (String.length x) (x +:+ y) = x.
Proof.
  induction x as [|c x IH]; simpl.
  - destruct y; reflexivity.
  - rewrite IH. reflexivity.
Qed.

Lemma sliceOffLastTwo_append (x : string) :
  sliceOffLastTwo (x +:+ ", ") = x.
Proof.
  unfold sliceOffLastTwo. rewrite length_append.
  replace (String.length x + String.length ", " - 2)%nat
    with (String.length x) by (simpl; lia).
  apply substring_append.
Qed.

Lemma concat_assignments (l : list string) :
  l <> [] ->
  fold_right String.append "" (map (fun c => c +:+ ", ") l)
  = join ", " l +:+ ", ".
Proof.
  induction l as [|c l IH]; [congruence|]. intros _.
  destruct l as [|d l].
  - simpl. rewrite append_empty_r. reflexivity.
  - rewrite join_cons by discriminate.
    change (fold_right String.append "" (map (fun c => c +:+ ", ") (c :: d :: l)))
      with ((c +:+ ", ")
            +:+ fold_right String.append "" (map (fun c => c +:+ ", ") (d :: l))).
    rewrite IH by discriminate. rewrite !append_assoc. reflexivity.
Qed.

Lemma placeholder_inj (prefix k1 k2 : string) :
  prefix +:+ k1 = prefix +:+ k2 -> k1 = k2.
Proof. apply append_inj_l. Qed.

Lemma updateLoop_spec (pkName skName : string)
    (itemAsRecord : gmap string string) (recordKeys : list string)
    (expr : string) (names0 : gmap string string)
    (values0 : gmap string (option string)) :
  let assigned :=
    base.filter (fun key => ~ (key = pkName \/ key = skName)) recordKeys in
  let '(expr', names', values') :=
    Table.updateLoop pkName skName itemAsRecord recordKeys expr names0 values0 in
  expr' = expr +:+ fold_right String.append ""
                     (map (fun c => c +:+ ", ") (map assignmentOf assigned)) /\
  (forall k, names' !! ("#" +:+ k)
             = if decide (k ∈ assigned) then Some k
               else names0 !! ("#" +:+ k)) /\
  (forall k, values' !! (":" +:+ k)
             = if decide (k ∈ assigned) then Some (itemAsRecord !! k)
               else values0 !! (":" +:+ k)).
Proof.
  revert expr names0 values0.
  induction recordKeys as [|key rest IH]; intros expr names0 values0.
  - simpl. split; [symmetry; apply append_empty_r|].
    split; intros k; reflexivity.
  - simpl Table.updateLoop.
    destruct (decide (key = pkName \/ key = skName)) as [Hkey|Hkey].
    + rewrite filter_cons_False by tauto. apply IH.
    + rewrite filter_cons_True by exact Hkey.
      specialize (IH (expr +:+ "#" +:+ key +:+ " = :" +:+ key +:+ ", ")
                    (<["#" +:+ key := key]> names0)
                    (<[":" +:+ key := itemAsRecord !! key]> values0)).
      cbv zeta in IH.
      destruct (Table.updateLoop _ _ _ rest _ _ _) as [[expr' names'] values'].
      destruct IH as (Hexpr & Hnames & Hvalues). split; [|split].
      * rewrite Hexpr. simpl. unfold assignmentOf.
        rewrite !append_assoc. reflexivity.
      * intros k. rewrite Hnames.
        destruct (decide (k ∈ base.filter _ rest)) as [Hin|Hout].
        -- rewrite decide_True by (right; exact Hin). reflexivity.
        -- destruct (decide (k = key)) as [->|Hne].
           ++ rewrite decide_True by left. apply lookup_insert_eq.
           ++ rewrite decide_False
                by (intros Hin; apply elem_of_cons in Hin as [?|?]; tauto).
              apply lookup_insert_ne. intros Heq.
              apply placeholder_inj in Heq. congruence.
      * intros k. rewrite Hvalues.
        destruct (decide (k ∈ base.filter _ rest)) as [Hin|Hout].
        -- rewrite decide_True by (right; exact Hin). reflexivity.
        -- destruct (decide (k = key)) as [->|Hne].
           ++ rewrite decide_True by left. apply lookup_insert_eq.
           ++ rewrite decide_False
                by (intros Hin; apply elem_of_cons in Hin as [?|?]; tauto).
              apply lookup_insert_ne. intros Heq.
              apply placeholder_inj in Heq. congruence.
Qed.

(** X22. The update request built from a record assigns every attribute
    of the record but the two physical key attributes, in the order of the
    record: its expression is ['SET '] followed by the assignments
    ['#k = :k'] separated by [', '], and ['#k'] and [':k'] are bound to the
    attribute and to its value.  For a record without any other attribute
    the expression is ['SE']. *)
Theorem createUpdateItemInputFromRecord_shape (table : Table.t)
    (entries : list (string * string)) :
  let input := Table.createUpdateItemInputFromRecord table entries in
  let assigned := assignedKeys table (map fst entries) in
  UpdateItemInput.UpdateExpression input
  = match assigned with
    | [] => "SE"
    | _ => "SET " +:+ join ", " (map assignmentOf assigned)
    end /\
  forall k, k ∈ assigned ->
    UpdateItemInput.ExpressionAttributeNames input !! ("#" +:+ k) = Some k /\
    UpdateItemInput.ExpressionAttributeValues input !! (":" +:+ k)
    = Some ((list_to_map entries : gmap string string) !! k).
Proof.
  intros input assigned. unfold input, assigned, assignedKeys,
    Table.createUpdateItemInputFromRecord.
  set (pkName := name (getPK (Table.schemaFormatter table))).
  destruct (getSK (Table.schemaFormatter table)) as [sk|].
  - pose proof (updateLoop_spec pkName (name sk) (list_to_map entries)
                  (map fst entries) "SET "
                  (<["#sk" := name sk]> {[ "#pk" := pkName ]}) ∅) as Hspec.
    cbv zeta in Hspec.
    destruct (Table.updateLoop _ _ _ _ _ _ _) as [[expr' names'] values'].
    destruct Hspec as (Hexpr & Hnames & Hvalues). simpl. split.
    + rewrite Hexpr.
      destruct (base.filter _ (map fst entries)) as [|k ks] eqn:Hassigned;
        [reflexivity|].
      rewrite concat_assignments by discriminate.
      rewrite <- append_assoc. apply sliceOffLastTwo_append.
    + intros k Hk. rewrite Hnames, Hvalues.
      rewrite !decide_True by exact Hk. split; reflexivity.
  - pose proof (updateLoop_spec pkName "" (list_to_map entries)
                  (map fst entries) "SET " {[ "#pk" := pkName ]} ∅) as Hspec.
    cbv zeta in Hspec.
    destruct (Table.updateLoop _ _ _ _ _ _ _) as [[expr' names'] values'].
    destruct Hspec as (Hexpr & Hnames & Hvalues). simpl. split.
    + rewrite Hexpr.
      destruct (base.filter _ (map fst entries)) as [|k ks] eqn:Hassigned;
        [reflexivity|].
      rewrite concat_assignments by discriminate.
      rewrite <- append_assoc. apply sliceOffLastTwo_append.
    + intros k Hk. rewrite Hnames, Hvalues.
      rewrite !decide_True by exact Hk. split; reflexivity.
Qed.

Lemma createUpdateItemInputFromRecord_shape_witness :
  UpdateItemInput.UpdateExpression
    (Table.createUpdateItemInputFromRecord sampleTable statusRecord)
  = "SET #status = :status, #age = :age" /\
  UpdateItemInput.ExpressionAttributeValues
    (Table.createUpdateItemInputFromRecord sampleTable statusRecord) !! ":age"
  = Some (Some "42") /\
  UpdateItemInput.UpdateExpression
    (Table.createUpdateItemInputFromRecord sampleTable bareRecord) = "SE".
Proof.
  pose proof (createUpdateItemInputFromRecord_shape sampleTable statusRecord)
    as [Hexpr Hbound].
  pose proof (createUpdateItemInputFromRecord_shape sampleTable bareRecord)
    as [Hbare _].
  split; [rewrite Hexpr; reflexivity|]. split; [|rewrite Hbare; reflexivity].
  destruct (Hbound "age") as [_ Hvalue]; [by_decide|].
  exact Hvalue.
Defined.

(** X23. The key of a delete request.  When no field that the record
    keeps as an attribute of its own (a field that is not a key part, or a
    preserved key part) is named like a physical key attribute, the request
    that [deleteItemInDynamo] builds for [{...pk, ...sk}] carries exactly the
    physical key attributes that [formatItemKeysDtoAsRecord] gives, and
    fails as it does. *)
Theorem deleteItemInput_key (table : Table.t) (pk sk : gmap string jsval) :
  let sf := Table.schemaFormatter table in
  (forall k, is_Some ((sk ∪ pk) !! k) -> ~ isFolded sf k ->
     k <> name (getPK sf) /\ forall skd, getSK sf = Some skd -> k <> name skd) ->
  Table.deleteItemInput table pk sk
  = let* key := formatItemKeysDtoAsRecord sf (sk ∪ pk) in
    Return (DeleteItemInput.mk (Table.tableName table) (Some <$> key)).
Proof.
  intros sf Hfree.
  unfold Table.deleteItemInput, formatItemDtoAsRecord,
    formatItemKeysDtoAsRecord, Table.createDeleteItemInputFromRecord.
  fold sf. set (item := sk ∪ pk) in *.
  destruct (formatKey item (getPK sf)) as [pkv|e]; [|reflexivity].
  cbn [bind].
  assert (Hkept : forall k,
            (k = name (getPK sf) \/
             exists skd, getSK sf = Some skd /\ k = name skd) ->
            base.filter (fun kv : string * jsval => ~ isFolded sf kv.1) item
              !! k = None).
  { intros k Hk. rewrite kept_lookup.
    destruct (decide (isFolded sf k)) as [Hf|Hf]; [reflexivity|].
    destruct (item !! k) as [v|] eqn:Hv; [|reflexivity]. exfalso.
    destruct (Hfree k) as [H1 H2]; [rewrite Hv; eexists; reflexivity|exact Hf|].
    destruct Hk as [->|(skd & Hsf & ->)]; [congruence|].
    apply (H2 skd Hsf). reflexivity. }
  destruct (getSK sf) as [skd|] eqn:Hsf.
  - destruct (formatKey item skd) as [skv|e]; [|reflexivity].
    cbn [bind]. f_equal. f_equal.
    rewrite fmap_insert, map_fmap_singleton.
    rewrite !lookup_omap, !lookup_union.
    rewrite (Hkept (name skd)) by (right; exists skd; split; reflexivity).
    rewrite (Hkept (name (getPK sf))) by (left; reflexivity).
    rewrite !(left_id None _), lookup_insert_eq. simpl.
    destruct (decide (name skd = name (getPK sf))) as [Heq|Hne].
    + rewrite <- Heq, !insert_singleton_eq. reflexivity.
    + rewrite lookup_insert_ne by exact Hne.
      rewrite lookup_singleton_eq. reflexivity.
  - cbn [bind]. f_equal. f_equal.
    rewrite map_fmap_singleton, lookup_omap, lookup_union.
    rewrite (Hkept (name (getPK sf))) by (left; reflexivity).
    rewrite (left_id None _), lookup_singleton_eq. reflexivity.
Qed.

Lemma deleteItemInput_key_witness :
  Table.deleteItemInput sampleTable {[ "tenantId" := JString "tenant1" ]}
    {[ "category" := JString "books" ]}
  = Return (DeleteItemInput.mk "TestTable"
              (<["pk" := Some "tenant1"]> {[ "sk" := Some "books" ]})).
Proof.
  rewrite deleteItemInput_key.
  - vm_compute. reflexivity.
  - intros k [v Hv] _. split.
    + intros ->. vm_compute in Hv. discriminate.
    + intros skd [= <-] ->. vm_compute in Hv. discriminate.
Defined.

(** ** An item read from the store as a cursor *)

Lemma mustGet_marshalled (item : gmap string jsval) (k : string) :
  mustGet (JString <$> omap marshallValue item) k = mustGet item k.
Proof.
  unfold mustGet. rewrite lookup_fmap, lookup_omap.
  destruct (item !! k) as [[|s]|]; reflexivity.
Qed.

Lemma formatKey_marshalled (item : gmap string jsval) (def : KeyDef) :
  formatKey (JString <$> omap marshallValue item) def = formatKey item def.
Proof.
  unfold formatKey. f_equal. apply mapM_ext. intros k _.
  apply mustGet_marshalled.
Qed.

Lemma physical_lookup (sf : SchemaFormatter) (rec : gmap string string)
    (k : string) :
  base.filter (fun kv : string * string => kv.1 ∈ physicalNames sf) rec !! k
  = if decide (k ∈ physicalNames sf) then rec !! k else None.
Proof.
  rewrite map_lookup_filter. destruct (rec !! k) as [v|]; simpl.
  - destruct (decide (k ∈ physicalNames sf)) as [Hin|Hout].
    + rewrite option_guard_True by exact Hin. reflexivity.
    + rewrite option_guard_False by exact Hout. reflexivity.
  - destruct (decide (k ∈ physicalNames sf)); reflexivity.
Qed.

(** X24. An item that was stored and read back can serve as a cursor:
    under the conditions of the store round trip, encoding the keys of the
    item that [formatRecordAsItemDto] returns gives the physical key
    attributes of the record that [formatItemDtoAsRecord] stored. *)
Theorem stored_item_as_cursor (sf : SchemaFormatter)
    (item : gmap string jsval) :
  (forall skd, getSK sf = Some skd -> name skd <> name (getPK sf)) ->
  side_decodable (getPK sf) item ->
  (forall skd, getSK sf = Some skd -> side_decodable skd item) ->
  (forall k, is_Some (item !! k) -> ~ isFolded sf k ->
     k <> name (getPK sf) /\ forall skd, getSK sf = Some skd -> k <> name skd) ->
  exists rec read,
    formatItemDtoAsRecord sf item = Return rec /\
    formatRecordAsItemDto sf rec = Return read /\
    formatItemKeysDtoAsRecord sf read
    = Return (base.filter (fun kv => kv.1 ∈ physicalNames sf) rec).
Proof.
  intros Hnames Hpk Hsk Hfree.
  destruct (store_roundtrip sf item Hnames Hpk Hsk Hfree)
    as (rec & Hrec & Hread).
  exists rec, (JString <$> omap marshallValue item).
  split; [exact Hrec|]. split; [exact Hread|].
  destruct (formatItemDtoAsRecord_lookup sf item rec Hrec)
    as (pkv & Hpkv & Hlook).
  assert (Hphys : forall k, k ∈ physicalNames sf ->
            ~ (~ isFolded sf k /\ is_Some (item !! k))).
  { intros k Hk [Hf Hin]. destruct (Hfree k Hin Hf) as [H1 H2].
    unfold physicalNames in Hk. apply elem_of_cons in Hk as [->|Hk];
      [congruence|].
    destruct (getSK sf) as [skd|]; [|apply elem_of_nil in Hk; contradiction].
    apply list_elem_of_singleton in Hk as ->. apply (H2 skd); reflexivity. }
  unfold formatItemKeysDtoAsRecord. rewrite formatKey_marshalled, Hpkv.
  cbn [bind].
  destruct (getSK sf) as [skd|] eqn:Hsf.
  - rewrite formatKey_marshalled.
    destruct (Hsk skd eq_refl) as [Hsk1 Hsk2].
    destruct (decodeSide_formatKey skd item Hsk1 Hsk2) as (skv & Hskv & _).
    rewrite Hskv. cbn [bind]. f_equal. apply map_eq. intros k.
    rewrite physical_lookup, lookup_insert, lookup_singleton.
    destruct (decide (k ∈ physicalNames sf)) as [Hin|Hout].
    + rewrite Hlook.
      rewrite (decide_False (P := ~ isFolded sf k /\ is_Some (item !! k)))
        by (apply Hphys, Hin). rewrite Hskv.
      unfold physicalNames in Hin. rewrite Hsf in Hin.
      specialize (Hnames skd eq_refl).
      apply elem_of_cons in Hin as [->|Hin].
      * repeat case_decide; congruence.
      * apply list_elem_of_singleton in Hin as ->.
        repeat case_decide; congruence.
    + unfold physicalNames in Hout. rewrite Hsf in Hout.
      rewrite !decide_False; [reflexivity| |].
      * intros <-. apply Hout. left.
      * intros <-. apply Hout. right. left.
  - f_equal. apply map_eq. intros k.
    rewrite physical_lookup, lookup_singleton.
    destruct (decide (k ∈ physicalNames sf)) as [Hin|Hout].
    + rewrite Hlook.
      rewrite (decide_False (P := ~ isFolded sf k /\ is_Some (item !! k)))
        by (apply Hphys, Hin).
      unfold physicalNames in Hin. rewrite Hsf in Hin.
      apply list_elem_of_singleton in Hin as ->.
      repeat case_decide; congruence.
    + unfold physicalNames in Hout. rewrite Hsf in Hout.
      rewrite decide_False; [reflexivity|].
      intros <-. apply Hout. left.
Qed.

Lemma stored_item_as_cursor_witness :
  exists rec read,
    formatItemDtoAsRecord formattingFormatter messageItem = Return rec /\
    formatRecordAsItemDto formattingFormatter rec = Return read /\
    formatItemKeysDtoAsRecord formattingFormatter read
    = Return (<["pk" := "t#u"]> {[ "sk" := "s|9" ]}).
Proof.
  destruct (stored_item_as_cursor formattingFormatter messageItem)
    as (rec & read & Hrec & Hread & Hkey).
  - intros skd [= <-]. discriminate.
  - split; [|simpl]; intros k Hk;
      repeat (apply elem_of_cons in Hk as [->|Hk]);
      try (apply elem_of_nil in Hk; contradiction);
      first [reflexivity | eexists; reflexivity].
  - intros skd [= <-].
    split; [|simpl]; intros k Hk;
      repeat (apply elem_of_cons in Hk as [->|Hk]);
      try (apply elem_of_nil in Hk; contradiction);
      first [reflexivity | eexists; reflexivity].
  - intros k [v Hv] _. split.
    + intros ->. vm_compute in Hv. discriminate.
    + intros skd [= <-] ->. vm_compute in Hv. discriminate.
  - exists rec, read. split; [exact Hrec|]. split; [exact Hread|].
    rewrite Hkey. vm_compute in Hrec. injection Hrec as <-.
    vm_compute. reflexivity.
Defined.

(** ** Placeholders shared by a filter and a projection *)

Lemma replaceHashes_id (s : string) :
  occurs "#" s = false -> replaceHashes s = s.
Proof.
  induction s as [|c s IH]; [reflexivity|]. intros Hs.
  change (Ascii.eqb "#" c || occurs "#" s = false) in Hs.
  change (String (if Ascii.eqb c "#" then "0"%char else c) (replaceHashes s)
          = String c s).
  apply orb_false_iff in Hs as [Hc Hs]. rewrite IH by exact Hs.
  rewrite Ascii.eqb_sym in Hc. rewrite Hc. reflexivity.
Qed.

Lemma occurs_hash_replaceDots (s : string) :
  occurs "#" (replaceDots s) = occurs "#" s.
Proof.
  induction s as [|c s IH]; [reflexivity|].
  change (Ascii.eqb "#" (if Ascii.eqb c "." then "_"%char else c)
          || occurs "#" (replaceDots s)
          = Ascii.eqb "#" c || occurs "#" s).
  rewrite IH. f_equal.
  destruct (Ascii.eqb_spec c "."); [subst c|]; reflexivity.
Qed.

Lemma attrPlaceholderOf_namePlaceholderOf (n : string) (i : nat) :
  occurs "#" n = false ->
  attrPlaceholderOf n i = namePlaceholderOf ("attr_" +:+ n) i.
Proof.
  intros Hn. unfold attrPlaceholderOf, namePlaceholderOf.
  rewrite replaceHashes_id by (rewrite occurs_hash_replaceDots; exact Hn).
  reflexivity.
Qed.

(** X25. The name placeholders of a filter and of a projection live in
    one table, and a projection can take one over.  On a chain that has a
    name table, filter first on the field named ['attr_'] followed by the
    name of the partition attribute (a name without ['#']), then project:
    the filter expression is unchanged and still mentions the placeholder
    of that field, which the filter had bound to the field and which now
    resolves to the partition attribute. *)
Theorem project_rebinds_filter_placeholder (c : Chain) (v : FilterValue)
    (projectDto : option (list string)) (table : gmap string string) :
  let n := name (getPK (schemaFormatter c)) in
  let filtered := filter c [("attr_" +:+ n, Some (CondValue v))] in
  let placeholder := namePlaceholderOf ("attr_" +:+ n) 0 in
  ExpressionAttributeNames (params c) = Some table ->
  occurs "#" n = false ->
  default ∅ (ExpressionAttributeNames (params filtered)) !! placeholder
  = Some ("attr_" +:+ n) /\
  default ∅ (ExpressionAttributeNames (params (project filtered projectDto)))
    !! placeholder = Some n /\
  FilterExpression (params (project filtered projectDto))
  = FilterExpression (params filtered).
Proof.
  intros n filtered placeholder Htable Hn.
  assert (Hfiltered : default ∅ (ExpressionAttributeNames (params filtered))
                        !! placeholder = Some ("attr_" +:+ n)).
  { unfold filtered, filter. simpl. rewrite Htable. simpl.
    apply lookup_union_Some_l. apply lookup_insert_eq. }
  split; [exact Hfiltered|].
  destruct (project_fields filtered projectDto)
    as (names1 & parts1 & Hloop & ->).
  pose proof (projectLoop_spec
                (projectedAttributes (schemaFormatter filtered) projectDto)
                0 ∅ []) as Hspec.
  rewrite Hloop in Hspec. destruct Hspec as (_ & Hbound & _).
  split; [|reflexivity]. simpl.
  apply lookup_union_Some_l. unfold placeholder.
  rewrite <- (attrPlaceholderOf_namePlaceholderOf n 0 Hn).
  apply (Hbound 0%nat n). reflexivity.
Qed.

Lemma project_rebinds_filter_placeholder_witness :
  let filtered := filter sampleChain [("attr_pk", Some (CondValue (FString "x")))] in
  FilterExpression (params (project filtered None))
  = Some "#attr_pk_0 = :val_attr_pk_0" /\
  default ∅ (ExpressionAttributeNames (params filtered)) !! "#attr_pk_0"
  = Some "attr_pk" /\
  default ∅ (ExpressionAttributeNames (params (project filtered None)))
    !! "#attr_pk_0" = Some "pk".
Proof.
  intros filtered.
  destruct (project_rebinds_filter_placeholder sampleChain (FString "x") None
              {[ "#pk" := "pk" ]} eq_refl eq_refl)
    as (Hfiltered & Hprojected & Hexpr).
  split; [|split].
  - transitivity (FilterExpression (params filtered));
      [exact Hexpr|reflexivity].
  - exact Hfiltered.
  - exact Hprojected.
Defined.
